(** * Inventory reconciliation and the inventory-deletion task of cli-utils

    A shallow embedding of [pkg/inventory/inventory-client.go] and
    [pkg/apply/task/delete_inv_task.go].  The cluster (the API server
    the client talks to) is an explicit state; every client operation
    is a function from the cluster to its Go result pair, the new
    cluster and the list of requests it sent. *)

From Stdlib Require Import OrderedTypeEx.
From stdpp Require Import gmap strings list fin_maps sorting.

Open Scope string_scope.
Open Scope list_scope.

(** ** Object references: [object.ObjMetadata] *)

Record GroupKind := mkGroupKind { Group : string; Kind : string }.

Record ObjMetadata := mkObjMetadata {
  Namespace : string;
  Name : string;
  objGroupKind : GroupKind
}.

#[global] Instance GroupKind_eq_dec : EqDecision GroupKind.
Proof. solve_decision. Defined.

#[global] Instance ObjMetadata_eq_dec : EqDecision ObjMetadata.
Proof. solve_decision. Defined.

#[global] Instance GroupKind_countable : Countable GroupKind.
Proof.
  refine (inj_countable' (fun gk => (Group gk, Kind gk))
                         (fun p => mkGroupKind p.1 p.2) _).
  by intros [].
Defined.

#[global] Instance ObjMetadata_countable : Countable ObjMetadata.
Proof.
  refine (inj_countable' (fun o => (Namespace o, Name o, objGroupKind o))
                         (fun p => mkObjMetadata p.1.1 p.1.2 p.2) _).
  by intros [].
Defined.

(** ** Inventory sets: the set algebra of package [object] *)

(** Modelled from the spec: [object.Union], [object.SetDiff] and
    [object.SetEquals] live in package [object], which is not among the
    sources.  The spec gives an InventorySet as a set of references
    without duplicates or order, with union, difference ("elements of A
    not in B") and set equality. *)
Definition Union (setA setB : gset ObjMetadata) : gset ObjMetadata := setA ∪ setB.
Definition SetDiff (setA setB : gset ObjMetadata) : gset ObjMetadata := setA ∖ setB.
Definition SetEquals (setA setB : gset ObjMetadata) : bool := bool_decide (setA = setB).

(** ** Errors *)

Inductive Verb := VList | VCreate | VUpdate | VDelete.

#[global] Instance Verb_eq_dec : EqDecision Verb.
Proof. solve_decision. Defined.

Inductive Error :=
  | ErrNilLocalInventory   (* "retrieving cluster inventory object with nil local inventory" *)
  | ErrNilApply            (* "attempting apply a nil inventory object" *)
  | ErrNilCreate           (* "attempting create a nil inventory object" *)
  | ErrNilDelete           (* "attempting delete a nil inventory object" *)
  | ErrNilWrapped          (* the wrapper holds no object *)
  | ErrNoMapping (gk : GroupKind)   (* the REST mapper knows no resource for the kind *)
  | ErrNoClient (resource : string) (* no client for the mapping *)
  | ErrNoLabel             (* the inventory label is missing *)
  | ErrDecode (entry : string)      (* malformed entry in the stored payload *)
  | ErrForbidden (v : Verb)         (* the API server rejects the verb *)
  | ErrNotFound (o : ObjMetadata)
  | ErrAlreadyExists (o : ObjMetadata).

#[global] Instance Error_eq_dec : EqDecision Error.
Proof. solve_decision. Defined.

(** ** Inventory objects: [resource.Info] and the record codec *)

(** One entry of the payload of an inventory object: the reference it
    encodes, or text that does not parse as one. *)
Inductive Entry :=
  | Ref (o : ObjMetadata)
  | Garbled (s : string).

#[global] Instance Entry_eq_dec : EqDecision Entry.
Proof. solve_decision. Defined.

(** What the API server stores for one object: its labels and its data. *)
Record Content := mkContent {
  Labels : gmap string string;
  Data : list Entry
}.

#[global] Instance Content_eq_dec : EqDecision Content.
Proof. solve_decision. Defined.

(** [resource.Info]: the identity of an object and the object itself. *)
Record Info := mkInfo {
  infoMeta : ObjMetadata;
  infoObject : Content
}.

#[global] Instance Info_eq_dec : EqDecision Info.
Proof. solve_decision. Defined.

(** Modelled from the spec: [object.InfoToObjMeta] (package [object] is
    not among the sources).  An [Info] of this model always carries its
    namespace, name and kind, so the transformation is total. *)
Definition InfoToObjMeta (info : Info) : ObjMetadata := infoMeta info.

(** [common.InventoryLabel] *)
Definition InventoryLabel : string := "cli-utils.sigs.k8s.io/inventory-id".

(** Modelled from the spec: [retrieveInventoryLabel] is not among the
    sources; the anchor is "distinguished by owning a specific label
    whose value is the inventory id". *)
Definition retrieveInventoryLabel (info : Info) : string * option Error :=
  match Labels (infoObject info) !! InventoryLabel with
  | Some label => (label, None)
  | None => ("", Some ErrNoLabel)
  end.

(** Modelled from the spec: the InventoryRecordCodec, encode total and
    decode failing explicitly on a malformed entry. *)
Definition encodeInventory (objs : gset ObjMetadata) : list Entry := Ref <$> elements objs.

Fixpoint decodeEntries (es : list Entry) : list ObjMetadata * option Error :=
  match es with
  | [] => ([], None)
  | Ref o :: es' =>
      let '(objs, err) := decodeEntries es' in (o :: objs, err)
  | Garbled s :: _ => ([], Some (ErrDecode s))
  end.

Definition decodeInventory (es : list Entry) : gset ObjMetadata * option Error :=
  match decodeEntries es with
  | (objs, None) => (list_to_set objs, None)
  | (_, Some e) => (∅, Some e)
  end.

(** Modelled from the spec: the wrapper of package [inventory]
    ([WrapInventoryObj] and the methods [Load], [Store], [GetObject] of
    what it returns) is not among the sources.  The wrapper holds the
    wrapped info and the set last stored into it; [Load] decodes the
    payload of the wrapped info, [GetObject] returns a copy of the
    wrapped info whose payload encodes the stored set. *)
Record Inventory := mkInventory {
  inv : option Info;
  objMetas : gset ObjMetadata
}.

Definition WrapInventoryObj (info : option Info) : Inventory :=
  {| inv := info; objMetas := ∅ |}.

Definition Load (w : Inventory) : gset ObjMetadata * option Error :=
  match inv w with
  | None => (∅, Some ErrNilWrapped)
  | Some info => decodeInventory (Data (infoObject info))
  end.

Definition Store (w : Inventory) (objs : gset ObjMetadata) : Inventory * option Error :=
  ({| inv := inv w; objMetas := objs |}, None).

Definition GetObject (w : Inventory) : option Info * option Error :=
  match inv w with
  | None => (None, Some ErrNilWrapped)
  | Some info =>
      (Some {| infoMeta := infoMeta info;
               infoObject := {| Labels := Labels (infoObject info);
                                Data := encodeInventory (objMetas w) |} |}, None)
  end.

(** ** The order of [ordering.SortableInfos] *)

(** A three-way comparison that decides equality, is antisymmetric and
    whose [Lt] is transitive. *)
Class TotalCompare {A : Type} (cmp : A → A → comparison) := {
  cmp_eq_iff : ∀ x y, cmp x y = Eq ↔ x = y;
  cmp_opp : ∀ x y, cmp x y = CompOpp (cmp y x);
  cmp_lt_trans : ∀ x y z, cmp x y = Lt → cmp y z = Lt → cmp x z = Lt
}.

Definition lexCompare (c1 c2 : comparison) : comparison :=
  match c1 with
  | Eq => c2
  | c => c
  end.

(** Modelled from the spec: package [ordering] is not among the
    sources; candidates are ordered "by namespace then name", with the
    kind as the last tie-break so that the order is total on object
    references. *)
Definition compareObjMetadata (a b : ObjMetadata) : comparison :=
  lexCompare (String.compare (Namespace a) (Namespace b))
    (lexCompare (String.compare (Name a) (Name b))
       (lexCompare (String.compare (Group (objGroupKind a)) (Group (objGroupKind b)))
          (String.compare (Kind (objGroupKind a)) (Kind (objGroupKind b))))).

(** [SortableInfos.Less], as "not after": [sort.Sort] only ever asks
    whether one element comes before another. *)
Definition infoLe (a b : Info) : Prop :=
  compareObjMetadata (InfoToObjMeta a) (InfoToObjMeta b) ≠ Gt.

#[global] Instance infoLe_dec a b : Decision (infoLe a b).
Proof. unfold infoLe. apply _. Defined.

(** [sort.Sort(ordering.SortableInfos(invInfos))]: the Go library sort
    is modelled by merge sort; on candidates with distinct identities
    every sorting algorithm returns the same list
    ([sortInfos_permutation_invariant] below). *)
Definition sortInfos (invInfos : list Info) : list Info := merge_sort infoLe invInfos.

(** ** The cluster: the API server behind the client *)

Record Cluster := mkCluster {
  objects : gmap ObjMetadata Content;   (* the stored objects, by identity *)
  denied : list Verb                    (* the verbs the server rejects *)
}.

(** [fmt.Sprintf("%s=%s", common.InventoryLabel, label)], kept as the
    pair of the label key and the value it must equal. *)
Record LabelSelector := mkSelector { selKey : string; selValue : string }.

Inductive Request :=
  | ReqList (resource namespace : string) (selector : LabelSelector)
  | ReqCreate (info : Info)
  | ReqReplace (info : Info)
  | ReqDelete (o : ObjMetadata).

#[global] Instance LabelSelector_eq_dec : EqDecision LabelSelector.
Proof. solve_decision. Defined.

#[global] Instance Request_eq_dec : EqDecision Request.
Proof. solve_decision. Defined.

#[global] Instance Cluster_eq_dec : EqDecision Cluster.
Proof. solve_decision. Defined.

Definition Call : Type := Request * option Error.

Definition isWrite (c : Call) : bool :=
  match c.1 with
  | ReqList _ _ _ => false
  | _ => true
  end.

(** A client operation: from the cluster to the operation's result, the
    cluster after it, and the requests sent, oldest first, each with the
    server's answer. *)
Definition Op (A : Type) : Type := Cluster → A * Cluster * list Call.

Definition ret {A} (a : A) : Op A := λ cl, (a, cl, []).

Definition bind {A B} (m : Op A) (k : A → Op B) : Op B :=
  λ cl, let '(a, cl1, t1) := m cl in
        let '(b, cl2, t2) := k a cl1 in
        (b, cl2, t1 ++ t2).

#[global] Instance Op_ret : MRet Op := @ret.
#[global] Instance Op_bind : MBind Op := λ A B k m, bind m k.

Definition matchesQuery (mapper : GroupKind → option string)
    (resource namespace : string) (selector : LabelSelector)
    (entry : ObjMetadata * Content) : bool :=
  bool_decide (mapper (objGroupKind entry.1) = Some resource) &&
  bool_decide (Namespace entry.1 = namespace) &&
  bool_decide (Labels entry.2 !! selKey selector = Some (selValue selector)).

Definition entryInfo (entry : ObjMetadata * Content) : Info :=
  {| infoMeta := entry.1; infoObject := entry.2 |}.

(** What the API server lists for a query: the objects of the resource
    type in the namespace that carry the label. *)
Definition listObjects (mapper : GroupKind → option string)
    (resource namespace : string) (selector : LabelSelector)
    (m : gmap ObjMetadata Content) : list Info :=
  entryInfo <$>
    filter (λ e, matchesQuery mapper resource namespace selector e = true) (map_to_list m).

(** The query of [resource.Builder], run by [Do().Infos()]. *)
Definition builderInfos (mapper : GroupKind → option string)
    (resource namespace : string) (selector : LabelSelector)
  : Op (list Info * option Error) :=
  λ cl,
    let req := ReqList resource namespace selector in
    if bool_decide (VList ∈ denied cl)
    then (([], Some (ErrForbidden VList)), cl, [(req, Some (ErrForbidden VList))])
    else
      ((listObjects mapper resource namespace selector (objects cl), None), cl, [(req, None)]).

(** [helper.Replace(info.Namespace, info.Name, overwrite, info.Object)] *)
Definition helperReplace (info : Info) : Op (option Error) :=
  λ cl,
    let key := InfoToObjMeta info in
    let err :=
      if bool_decide (VUpdate ∈ denied cl) then Some (ErrForbidden VUpdate)
      else match objects cl !! key with
           | None => Some (ErrNotFound key)
           | Some _ => None
           end in
    match err with
    | Some e => (Some e, cl, [(ReqReplace info, Some e)])
    | None =>
        (None, {| objects := <[key := infoObject info]> (objects cl); denied := denied cl |},
         [(ReqReplace info, None)])
    end.

(** [helper.Create(info.Namespace, clearResourceVersion, info.Object, nil)] *)
Definition helperCreate (info : Info) : Op (option Error) :=
  λ cl,
    let key := InfoToObjMeta info in
    let err :=
      if bool_decide (VCreate ∈ denied cl) then Some (ErrForbidden VCreate)
      else match objects cl !! key with
           | None => None
           | Some _ => Some (ErrAlreadyExists key)
           end in
    match err with
    | Some e => (Some e, cl, [(ReqCreate info, Some e)])
    | None =>
        (None, {| objects := <[key := infoObject info]> (objects cl); denied := denied cl |},
         [(ReqCreate info, None)])
    end.

(** [helper.Delete(info.Namespace, info.Name)] *)
Definition helperDelete (key : ObjMetadata) : Op (option Error) :=
  λ cl,
    let err :=
      if bool_decide (VDelete ∈ denied cl) then Some (ErrForbidden VDelete)
      else match objects cl !! key with
           | None => Some (ErrNotFound key)
           | Some _ => None
           end in
    match err with
    | Some e => (Some e, cl, [(ReqDelete key, Some e)])
    | None =>
        (None, {| objects := delete key (objects cl); denied := denied cl |},
         [(ReqDelete key, None)])
    end.

(** ** [ClusterInventoryClient] *)

(** The fields of the client the operations read: the REST mapper (a
    kind's resource, if it has one), the client factory (the error it
    returns for a resource, if any) and the dry-run flag.  The builder
    and the validator only serve the query [builderInfos]. *)
Record ClusterInventoryClient := mkClient {
  mapper : GroupKind → option string;
  clientFunc : string → option Error;
  dryRun : bool
}.

(** [cic.mapper.RESTMapping(gk)] *)
Definition RESTMapping (cic : ClusterInventoryClient) (gk : GroupKind)
  : string * option Error :=
  match mapper cic gk with
  | Some resource => (resource, None)
  | None => ("", Some (ErrNoMapping gk))
  end.

Definition SetDryRun (cic : ClusterInventoryClient) (b : bool) : ClusterInventoryClient :=
  {| mapper := mapper cic; clientFunc := clientFunc cic; dryRun := b |}.

Definition applyInventoryObj (cic : ClusterInventoryClient) (info : option Info)
  : Op (option Error) :=
  if dryRun cic then ret None
  else match info with
       | None => ret (Some ErrNilApply)
       | Some info => helperReplace info
       end.

Definition createInventoryObj (cic : ClusterInventoryClient) (info : option Info)
  : Op (option Error) :=
  if dryRun cic then ret None
  else match info with
       | None => ret (Some ErrNilCreate)
       | Some info =>
           let obj := InfoToObjMeta info in
           match RESTMapping cic (objGroupKind obj) with
           | (_, Some err) => ret (Some err)
           | (mapping, None) =>
               match clientFunc cic mapping with
               | Some err => ret (Some err)
               | None => helperCreate info
               end
           end
       end.

Definition DeleteInventoryObj (cic : ClusterInventoryClient) (info : option Info)
  : Op (option Error) :=
  if dryRun cic then ret None
  else match info with
       | None => ret (Some ErrNilDelete)
       | Some info =>
           let obj := InfoToObjMeta info in
           match RESTMapping cic (objGroupKind obj) with
           | (_, Some err) => ret (Some err)
           | (mapping, None) =>
               match clientFunc cic mapping with
               | Some err => ret (Some err)
               | None => helperDelete obj
               end
           end
       end.

(** The loop of [mergeClusterInventory] that loads the other inventory
    objects and unions them into the retained objects. *)
Fixpoint loadOthers (retainedObjs : gset ObjMetadata) (others : list Info)
  : gset ObjMetadata * option Error :=
  match others with
  | [] => (retainedObjs, None)
  | merge :: others' =>
      let wrapMerge := WrapInventoryObj (Some merge) in
      match Load wrapMerge with
      | (_, Some err) => (∅, Some err)
      | (mergeObjs, None) => loadOthers (Union retainedObjs mergeObjs) others'
      end
  end.

(** The loop of [mergeClusterInventory] that deletes the other
    inventory objects. *)
Fixpoint deleteOthers (cic : ClusterInventoryClient) (others : list Info)
  : Op (option Error) :=
  match others with
  | [] => ret None
  | merge :: others' =>
      err ← DeleteInventoryObj cic (Some merge);
      match err with
      | Some e => ret (Some e)
      | None => deleteOthers cic others'
      end
  end.

Definition mergeClusterInventory (cic : ClusterInventoryClient) (invInfos : list Info)
  : Op (option Info * option Error) :=
  if bool_decide (length invInfos = 0) then ret (None, None)
  else
  let invInfos := sortInfos invInfos in
  match invInfos with
  | [] => ret (None, None)   (* not reached: sorting keeps the length *)
  | retained :: others =>
      let wrapRetained := WrapInventoryObj (Some retained) in
      match Load wrapRetained with
      | (_, Some err) => ret (None, Some err)
      | (retainedObjs, None) =>
          match loadOthers retainedObjs others with
          | (_, Some err) => ret (None, Some err)
          | (retainedObjs, None) =>
              match Store wrapRetained retainedObjs with
              | (_, Some err) => ret (None, Some err)
              | (wrapRetained, None) =>
                  match GetObject wrapRetained with
                  | (_, Some err) => ret (None, Some err)
                  | (retainInfo, None) =>
                      err ← applyInventoryObj cic retainInfo;
                      match err with
                      | Some e => ret (None, Some e)
                      | None =>
                          err ← deleteOthers cic others;
                          match err with
                          | Some e => ret (None, Some e)
                          | None => ret (retainInfo, None)
                          end
                      end
                  end
              end
          end
      end
  end.

Definition getClusterInventoryInfo (cic : ClusterInventoryClient) (localInv : option Info)
  : Op (option Info * option Error) :=
  match localInv with
  | None => ret (None, Some ErrNilLocalInventory)
  | Some localInfo =>
      let localObj := InfoToObjMeta localInfo in
      match RESTMapping cic (objGroupKind localObj) with
      | (_, Some err) => ret (None, Some err)
      | (groupResource, None) =>
          let namespace := Namespace localObj in
          match retrieveInventoryLabel localInfo with
          | (_, Some err) => ret (None, Some err)
          | (label, None) =>
              let labelSelector := mkSelector InventoryLabel label in
              '(retrievedInventoryInfos, err) ←
                 builderInfos (mapper cic) groupResource namespace labelSelector;
              match err with
              | Some e => ret (None, Some e)
              | None =>
                  match retrievedInventoryInfos with
                  | [] => ret (None, None)
                  | [clusterInv] => ret (Some clusterInv, None)
                  | _ =>
                      '(clusterInv, err) ← mergeClusterInventory cic retrievedInventoryInfos;
                      match err with
                      | Some e => ret (None, Some e)
                      | None => ret (clusterInv, None)
                      end
                  end
              end
          end
      end
  end.

Definition GetClusterObjs (cic : ClusterInventoryClient) (localInv : option Info)
  : Op (gset ObjMetadata * option Error) :=
  '(clusterInv, err) ← getClusterInventoryInfo cic localInv;
  match err with
  | Some e => ret (∅, Some e)
  | None =>
      match clusterInv with
      | None => ret (∅, None)
      | Some _ => ret (Load (WrapInventoryObj clusterInv))
      end
  end.

Definition Merge (cic : ClusterInventoryClient) (localInv : option Info)
    (objs : gset ObjMetadata) : Op (gset ObjMetadata * option Error) :=
  let pruneIds : gset ObjMetadata := ∅ in
  '(clusterInv, err) ← getClusterInventoryInfo cic localInv;
  match err with
  | Some e => ret (pruneIds, Some e)
  | None =>
      match clusterInv with
      | None =>
          let inv := WrapInventoryObj localInv in
          match Store inv objs with
          | (_, Some err) => ret (∅, Some err)
          | (inv, None) =>
              match GetObject inv with
              | (_, Some err) => ret (∅, Some err)
              | (invInfo, None) =>
                  err ← createInventoryObj cic invInfo;
                  match err with
                  | Some e => ret (∅, Some e)
                  | None => ret (pruneIds, None)
                  end
              end
          end
      | Some _ =>
          '(clusterObjs, err) ← GetClusterObjs cic localInv;
          match err with
          | Some e => ret (pruneIds, Some e)
          | None =>
              if SetEquals objs clusterObjs then ret (pruneIds, None)
              else
                let pruneIds := SetDiff clusterObjs objs in
                let unionObjs := Union clusterObjs objs in
                let wrappedInv := WrapInventoryObj clusterInv in
                match Store wrappedInv unionObjs with
                | (_, Some err) => ret (pruneIds, Some err)
                | (wrappedInv, None) =>
                    if negb (dryRun cic) then
                      match GetObject wrappedInv with
                      | (_, Some err) => ret (pruneIds, Some err)
                      | (clusterInv, None) =>
                          err ← applyInventoryObj cic clusterInv;
                          match err with
                          | Some e => ret (pruneIds, Some e)
                          | None => ret (pruneIds, None)
                          end
                      end
                    else ret (pruneIds, None)
                end
          end
      end
  end.

Definition Replace (cic : ClusterInventoryClient) (localInv : option Info)
    (objs : gset ObjMetadata) : Op (option Error) :=
  '(clusterObjs, err) ← GetClusterObjs cic localInv;
  match err with
  | Some e => ret (Some e)
  | None =>
      if SetEquals objs clusterObjs then ret None
      else
        '(clusterInv, err) ← getClusterInventoryInfo cic localInv;
        match err with
        | Some e => ret (Some e)
        | None =>
            let wrappedInv := WrapInventoryObj clusterInv in
            match Store wrappedInv objs with
            | (_, Some err) => ret (Some err)
            | (wrappedInv, None) =>
                if negb (dryRun cic) then
                  match GetObject wrappedInv with
                  | (_, Some err) => ret (Some err)
                  | (clusterInv, None) => applyInventoryObj cic clusterInv
                  end
                else ret None
            end
        end
  end.


(** ** Notions used in the statements *)

Definition lexPair {A B : Type} (cmpA : A → A → comparison) (cmpB : B → B → comparison)
    (p q : A * B) : comparison :=
  lexCompare (cmpA p.1 q.1) (cmpB p.2 q.2).

Definition objTuple (o : ObjMetadata) : string * (string * (string * string)) :=
  (Namespace o, (Name o, (Group (objGroupKind o), Kind (objGroupKind o)))).

(** Infos with pairwise distinct identities. *)
Definition distinctInfos (l : list Info) : Prop := NoDup (InfoToObjMeta <$> l).

(** A call that is a delete request. *)
Definition isDeleteCall (c : Call) : Prop := ∃ o, c.1 = ReqDelete o.

(** The stored sets of the candidates, loaded and unioned the way
    [mergeClusterInventory] does it: the retained one first, then the
    others in their order. *)
Definition loadAll (invInfos : list Info) : gset ObjMetadata * option Error :=
  match invInfos with
  | [] => (∅, None)
  | retained :: others =>
      match Load (WrapInventoryObj (Some retained)) with
      | (_, Some err) => (∅, Some err)
      | (retainedObjs, None) => loadOthers retainedObjs others
      end
  end.

(** The inventory object [info] with the set [objs] stored into it: what
    [GetObject] returns after [Store]. *)
Definition withStored (info : Info) (objs : gset ObjMetadata) : Info :=
  {| infoMeta := infoMeta info;
     infoObject := {| Labels := Labels (infoObject info);
                      Data := encodeInventory objs |} |}.

(** The candidates the lookup of [getClusterInventoryInfo] retrieves for
    a descriptor, when the descriptor resolves and the server answers. *)
Definition lookupAnchors (cic : ClusterInventoryClient) (localInfo : Info) (cl : Cluster)
  : option (list Info) :=
  match RESTMapping cic (objGroupKind (InfoToObjMeta localInfo)),
        retrieveInventoryLabel localInfo with
  | (groupResource, None), (label, None) =>
      match builderInfos (mapper cic) groupResource (Namespace (InfoToObjMeta localInfo))
                         (mkSelector InventoryLabel label) cl with
      | ((found, None), _, _) => Some found
      | _ => None
      end
  | _, _ => None
  end.

(** The list request of that lookup, answered. *)
Definition lookupCall (cic : ClusterInventoryClient) (localInfo : Info) : Call :=
  (ReqList (RESTMapping cic (objGroupKind (InfoToObjMeta localInfo))).1
           (Namespace (InfoToObjMeta localInfo))
           (mkSelector InventoryLabel (retrieveInventoryLabel localInfo).1),
   None).

(** ** A small cluster, for the concrete runs *)

Definition exConfigMap : GroupKind := mkGroupKind "" "ConfigMap".
Definition exDeployment : GroupKind := mkGroupKind "apps" "Deployment".

Definition exA : ObjMetadata := mkObjMetadata "default" "a" exDeployment.
Definition exB : ObjMetadata := mkObjMetadata "default" "b" exDeployment.
Definition exC : ObjMetadata := mkObjMetadata "default" "c" exDeployment.
Definition exD : ObjMetadata := mkObjMetadata "default" "d" exDeployment.

Definition exAnchor1 : ObjMetadata := mkObjMetadata "default" "inventory-1" exConfigMap.
Definition exAnchor2 : ObjMetadata := mkObjMetadata "default" "inventory-2" exConfigMap.

Definition exLabels : gmap string string := {[ InventoryLabel := "id-1" ]}.

(** A client whose mapper knows config maps only. *)
Definition exClient (dry : bool) : ClusterInventoryClient :=
  {| mapper := λ gk, if bool_decide (gk = exConfigMap) then Some "configmaps" else None;
     clientFunc := λ _, None;
     dryRun := dry |}.

(** The local inventory descriptor: the first anchor, nothing stored. *)
Definition exLocal : Info := mkInfo exAnchor1 (mkContent exLabels []).

Definition exAnchorInfo (key : ObjMetadata) (objs : gset ObjMetadata) : Info :=
  mkInfo key (mkContent exLabels (encodeInventory objs)).

(** No anchor yet. *)
Definition exClusterNone : Cluster := mkCluster ∅ [].

(** One anchor, storing [objs]. *)
Definition exClusterOne (objs : gset ObjMetadata) : Cluster :=
  mkCluster {[ exAnchor1 := mkContent exLabels (encodeInventory objs) ]} [].

(** Two anchors of the same inventory id, storing [{a}] and [{b}]. *)
Definition exClusterTwo : Cluster :=
  mkCluster (<[ exAnchor2 := mkContent exLabels (encodeInventory {[ exB ]}) ]>
             {[ exAnchor1 := mkContent exLabels (encodeInventory {[ exA ]}) ]}) [].

(** Two anchors, the payload of the second one malformed. *)
Definition exClusterGarbled : Cluster :=
  mkCluster (<[ exAnchor2 := mkContent exLabels [Garbled "not-an-object"] ]>
             {[ exAnchor1 := mkContent exLabels (encodeInventory {[ exA ]}) ]}) [].

(** One anchor storing [{a}], on a server that rejects updates. *)
Definition exClusterReadOnly : Cluster :=
  mkCluster {[ exAnchor1 := mkContent exLabels (encodeInventory {[ exA ]}) ]} [VUpdate].

(** An operation that leaves every cluster as it found it and sends no
    create, replace or delete request. *)
Definition readOnly {A} (m : Op A) : Prop :=
  ∀ cl, (m cl).1.2 = cl ∧ Forall (λ c, isWrite c = false) (m cl).2.

(** ** The task that deletes the inventory object: [DeleteInvTask] *)

(** Modelled from the spec: the task's file is of a later version of
    the repository than the client's file.  Its [inventory.InventoryInfo]
    and [inventory.InventoryClient] are interfaces of package
    [inventory] at that version and are not among the sources, and the
    client above, whose [DeleteInventoryObj] takes a [*resource.Info],
    does not implement them.  They are parameters of the task: a type
    [I] of inventory infos, on which [Start] calls [Namespace] and
    [Name] for its log line, and a type [C] of clients with the one
    method [Start] calls, the deletion of the inventory object, which
    returns an error or nil.  A value of an interface may be nil
    ([None]); calling a method on a nil interface panics. *)
Class InventoryClient (C I : Type) := {
  clientDeleteInventoryObj : C → option I → Op (option Error)
}.

(** [event.ResourceAction], the classification of what a task does. *)
Inductive ResourceAction := ApplyAction | PruneAction | DeleteAction | WaitAction | InventoryAction.

(** [taskrunner.TaskResult] *)
Record TaskResult := mkTaskResult { Err : option Error }.

(** [taskrunner.TaskContext]: the context of the run, which holds the
    task channel.  [Start] receives a pointer to it, which may be nil
    ([None]); reading the channel off a nil context panics. *)
Inductive TaskContext := RunContext.

(** What is left to run of a goroutine: a call to the inventory client
    and the rest, which receives the call's error; a send on the task
    channel and the rest; a panic; or nothing. *)
Inductive Goroutine :=
  | GoCall (call : Op (option Error)) (rest : option Error → Goroutine)
  | GoSend (result : TaskResult) (rest : Goroutine)
  | GoPanic
  | GoDone.

(** The run of an apply: the cluster and the requests sent to it so
    far, the goroutines by their identifier (a finished goroutine stays,
    as [GoDone]), what has been delivered on the channel of the task
    context, oldest first, each result with the goroutine that sent it,
    and whether a goroutine has panicked.  No goroutine recovers, so a
    panic ends the program: nothing runs after it.  The single reader
    of the channel is taken to be receiving, so that a send is never
    blocked. *)
Record Runtime := mkRuntime {
  rtCluster : Cluster;
  rtTrace : list Call;
  goroutines : gmap nat Goroutine;
  taskChannel : list (nat * TaskResult);
  rtPanicked : bool
}.

(** The [go] statement: the goroutine is added under a fresh
    identifier, and the caller goes on. *)
Definition go (g : Goroutine) (rt : Runtime) : Runtime :=
  {| rtCluster := rtCluster rt;
     rtTrace := rtTrace rt;
     goroutines := <[fresh (dom (goroutines rt)) := g]> (goroutines rt);
     taskChannel := taskChannel rt;
     rtPanicked := rtPanicked rt |}.

(** One step of the goroutine [gid]: its call against the cluster, its
    send on the task channel, or its panic.  A finished or unknown
    goroutine does nothing. *)
Definition runGoroutine (gid : nat) (rt : Runtime) : Runtime :=
  match goroutines rt !! gid with
  | Some (GoCall call rest) =>
      let '(err, cl', t) := call (rtCluster rt) in
      {| rtCluster := cl';
         rtTrace := rtTrace rt ++ t;
         goroutines := <[gid := rest err]> (goroutines rt);
         taskChannel := taskChannel rt;
         rtPanicked := rtPanicked rt |}
  | Some (GoSend result rest) =>
      {| rtCluster := rtCluster rt;
         rtTrace := rtTrace rt;
         goroutines := <[gid := rest]> (goroutines rt);
         taskChannel := taskChannel rt ++ [(gid, result)];
         rtPanicked := rtPanicked rt |}
  | Some GoPanic =>
      {| rtCluster := rtCluster rt;
         rtTrace := rtTrace rt;
         goroutines := goroutines rt;
         taskChannel := taskChannel rt;
         rtPanicked := true |}
  | _ => rt
  end.

(** What the scheduler may do next: run a goroutine for a step, or have
    someone start a further goroutine. *)
Inductive Choice :=
  | Run (gid : nat)
  | Spawn (g : Goroutine).

(** Once a goroutine has panicked the program is over, and no choice
    has an effect. *)
Definition stepChoice (c : Choice) (rt : Runtime) : Runtime :=
  if rtPanicked rt then rt
  else match c with
       | Run gid => runGoroutine gid rt
       | Spawn g => go g rt
       end.

(** The runtime after the scheduler's choices [cs], taken in order. *)
Fixpoint schedule (cs : list Choice) (rt : Runtime) : Runtime :=
  match cs with
  | [] => rt
  | c :: cs' => schedule cs' (stepChoice c rt)
  end.

(** The number of steps the choices give to the goroutine [gid]. *)
Fixpoint stepsOf (gid : nat) (cs : list Choice) : nat :=
  match cs with
  | [] => 0
  | Run gid' :: cs' => (if bool_decide (gid' = gid) then 1 else 0) + stepsOf gid cs'
  | Spawn _ :: cs' => stepsOf gid cs'
  end.

(** The results the goroutine [gid] has delivered. *)
Definition deliveries (gid : nat) (rt : Runtime) : list (nat * TaskResult) :=
  filter (λ d, d.1 = gid) (taskChannel rt).

(** Every delivery so far comes from a goroutine of the runtime. *)
Definition deliveriesKnown (rt : Runtime) : Prop :=
  ∀ d, d ∈ taskChannel rt → is_Some (goroutines rt !! d.1).

(** Package [task]. *)
Module task.
Section task.
Context {C I : Type} `{!InventoryClient C I}.

Record DeleteInvTask := mkDeleteInvTask {
  TaskName : string;
  InvClient : option C;
  InvInfo : option I
}.

Definition Name (i : DeleteInvTask) : string := TaskName i.

Definition Action (i : DeleteInvTask) : ResourceAction := InventoryAction.

Definition Identifiers (i : DeleteInvTask) : list ObjMetadata := [].

(** The function literal of [Start].  Its first statement logs the
    namespace and the name of the inventory info: the two method calls
    are evaluated whatever the verbosity, and panic on a nil
    [InvInfo]; the log line itself is not modelled.  Its second
    statement calls the client, and panics on a nil [InvClient].  Its
    third statement reads the channel off the task context, which
    panics on a nil context, and sends the result. *)
Definition startBody (i : DeleteInvTask) (taskContext : option TaskContext) : Goroutine :=
  match InvInfo i with
  | None => GoPanic
  | Some invInfo =>
      match InvClient i with
      | None => GoPanic
      | Some invClient =>
          GoCall (clientDeleteInventoryObj invClient (Some invInfo))
                 (λ err, match taskContext with
                         | None => GoPanic
                         | Some _ => GoSend {| Err := err |} GoDone
                         end)
      end
  end.

Definition Start (i : DeleteInvTask) (taskContext : option TaskContext)
    (rt : Runtime) : Runtime :=
  go (startBody i taskContext) rt.

Definition ClearTimeout (i : DeleteInvTask) (rt : Runtime) : Runtime := rt.
End task.

Arguments DeleteInvTask C I : clear implicits.
End task.

(** How far a goroutine that calls [call] and then sends its error has
    come after [n] steps of its own: started; called the client, with
    the result ready to send; or sent the result and finished. *)
Definition startPhase (call : Op (option Error)) (gid n : nat) (rt : Runtime) : Prop :=
  match n with
  | 0 =>
      goroutines rt !! gid = Some (GoCall call (λ err, GoSend {| Err := err |} GoDone)) ∧
      deliveries gid rt = []
  | 1 =>
      ∃ cl0,
        goroutines rt !! gid = Some (GoSend {| Err := (call cl0).1.1 |} GoDone) ∧
        deliveries gid rt = []
  | _ =>
      ∃ cl0,
        goroutines rt !! gid = Some GoDone ∧
        deliveries gid rt = [(gid, {| Err := (call cl0).1.1 |})]
  end.

(** A goroutine that panics before it sends: at its next step
    ([late = false]), or at the step after its call ([late = true]).
    It has delivered nothing. *)
Definition panicPhase (gid : nat) (late : bool) (rt : Runtime) : Prop :=
  deliveries gid rt = [] ∧
  if late then ∃ call, goroutines rt !! gid = Some (GoCall call (λ _, GoPanic))
  else goroutines rt !! gid = Some GoPanic.

(** A client for the examples of the task, as a test would have it:
    its inventory infos are a namespace and a name, and it deletes the
    config map of that name from the cluster. *)
Record exFakeInfo := mkFakeInfo { fakeNamespace : string; fakeName : string }.

Inductive exFakeClient := FakeClient.

#[global] Instance exFakeClient_InventoryClient : InventoryClient exFakeClient exFakeInfo := {|
  clientDeleteInventoryObj _ invInfo :=
    match invInfo with
    | None => ret (Some ErrNilDelete)
    | Some info => helperDelete (mkObjMetadata (fakeNamespace info) (fakeName info) exConfigMap)
    end
|}.

(** A run that has not started anything yet, on the cluster with one
    anchor, and the task that deletes that anchor. *)
Definition exRuntime : Runtime :=
  {| rtCluster := exClusterOne {[ exA ]}; rtTrace := []; goroutines := ∅;
     taskChannel := []; rtPanicked := false |}.

Definition exTask : task.DeleteInvTask exFakeClient exFakeInfo :=
  task.mkDeleteInvTask "delete-inventory" (Some FakeClient)
    (Some (mkFakeInfo "default" "inventory-1")).

(** The same task without an inventory info, and without a client. *)
Definition exTaskNoInfo : task.DeleteInvTask exFakeClient exFakeInfo :=
  task.mkDeleteInvTask "delete-inventory" (Some FakeClient) None.

Definition exTaskNoClient : task.DeleteInvTask exFakeClient exFakeInfo :=
  task.mkDeleteInvTask "delete-inventory" None (Some (mkFakeInfo "default" "inventory-1")).

(** One anchor whose payload is malformed. *)
Definition exClusterOneGarbled : Cluster :=
  mkCluster {[ exAnchor1 := mkContent exLabels [Garbled "not-an-object"] ]} [].

(** An operation that stops at the first request the server rejects:
    a rejected request is the last one sent, and its error is the error
    the operation returns ([err] reads the error off the result). *)
Definition failsFast {A} (err : A → option Error) (m : Op A) : Prop :=
  ∀ cl j c e, (m cl).2 !! j = Some (c, Some e) →
              S j = length (m cl).2 ∧ err (m cl).1.1 = Some e.

(** Two anchors storing [{a}] and [{b}], on a server that rejects
    deletes. *)
Definition exClusterTwoNoDelete : Cluster :=
  mkCluster (<[ exAnchor2 := mkContent exLabels (encodeInventory {[ exB ]}) ]>
             {[ exAnchor1 := mkContent exLabels (encodeInventory {[ exA ]}) ]}) [VDelete].

(** An operation that adds no object to the cluster but, at most, ones
    with an identity in [K]. *)
Definition addsAtMost {A} (K : gset ObjMetadata) (m : Op A) : Prop :=
  ∀ cl, dom (objects ((m cl).1.2)) ⊆ dom (objects cl) ∪ K.
(** * Properties *)

(** ** The codec *)

Lemma decodeEntries_Ref (l : list ObjMetadata) :
  decodeEntries (Ref <$> l) = (l, None).
Proof.
  induction l as [|o l IH]; [done|].
  cbn. by rewrite IH.
Qed.

Lemma decodeInventory_encodeInventory (objs : gset ObjMetadata) :
  decodeInventory (encodeInventory objs) = (objs, None).
Proof.
  unfold decodeInventory, encodeInventory.
  rewrite decodeEntries_Ref. by rewrite list_to_set_elements_L.
Qed.

Lemma decodeInventory_error (es : list Entry) (objs : gset ObjMetadata) (e : Error) :
  decodeInventory es = (objs, Some e) → objs = ∅ ∧ ∃ s, e = ErrDecode s ∧ Garbled s ∈ es.
Proof.
  unfold decodeInventory.
  assert (∀ l e', decodeEntries es = (l, Some e') → ∃ s, e' = ErrDecode s ∧ Garbled s ∈ es) as Hd.
  { induction es as [|[o|s] es IH]; intros l e' Hdec; cbn in Hdec.
    - done.
    - destruct (decodeEntries es) as [l' [e''|]] eqn:Hes; simplify_eq.
      destruct (IH _ _ eq_refl) as (s & -> & Hin).
      exists s. split; [done|]. apply elem_of_cons. by right.
    - simplify_eq. exists s. split; [done|]. apply elem_of_cons. by left. }
  destruct (decodeEntries es) as [l [e'|]] eqn:Hes; intros ?; simplify_eq.
  split; [done|]. by eapply Hd.
Qed.

Lemma Load_Wrap (info : Info) :
  Load (WrapInventoryObj (Some info)) = decodeInventory (Data (infoObject info)).
Proof. done. Qed.

(** ** The order on inventory objects *)

Lemma lexCompare_Eq c1 c2 : lexCompare c1 c2 = Eq ↔ c1 = Eq ∧ c2 = Eq.
Proof. destruct c1, c2; cbn; intuition congruence. Qed.

Lemma lexCompare_Lt c1 c2 :
  lexCompare c1 c2 = Lt ↔ c1 = Lt ∨ (c1 = Eq ∧ c2 = Lt).
Proof. destruct c1, c2; cbn; intuition congruence. Qed.

Lemma lexCompare_opp c1 c2 :
  CompOpp (lexCompare c1 c2) = lexCompare (CompOpp c1) (CompOpp c2).
Proof. by destruct c1, c2. Qed.

#[global] Instance string_TotalCompare : TotalCompare String.compare.
Proof.
  split.
  - apply String_as_OT.cmp_eq.
  - apply String_as_OT.cmp_antisym.
  - intros x y z. change String.compare with String_as_OT.cmp.
    rewrite !String_as_OT.cmp_lt. apply String_as_OT.lt_trans.
Qed.

Section lex.
Context {A B : Type} (cmpA : A → A → comparison) (cmpB : B → B → comparison).
Context `{!TotalCompare cmpA, !TotalCompare cmpB}.

#[global] Instance lexPair_TotalCompare : TotalCompare (lexPair cmpA cmpB).
Proof.
  split.
  - intros [a b] [a' b']. unfold lexPair. cbn.
    rewrite lexCompare_Eq, !cmp_eq_iff. intuition congruence.
  - intros [a b] [a' b']. unfold lexPair. cbn.
    by rewrite lexCompare_opp, <-!cmp_opp.
  - intros [a b] [a' b'] [a'' b'']. unfold lexPair. cbn.
    rewrite !lexCompare_Lt, !cmp_eq_iff.
    intros [H1|[-> H1]] [H2|[-> H2]]; eauto using cmp_lt_trans.
Qed.
End lex.


Lemma objTuple_inj o1 o2 : objTuple o1 = objTuple o2 → o1 = o2.
Proof. destruct o1 as [? ? []], o2 as [? ? []]. unfold objTuple. cbn. congruence. Qed.

Lemma compareObjMetadata_lex a b :
  compareObjMetadata a b =
  lexPair String.compare (lexPair String.compare (lexPair String.compare String.compare))
    (objTuple a) (objTuple b).
Proof. done. Qed.

#[global] Instance compareObjMetadata_TotalCompare : TotalCompare compareObjMetadata.
Proof.
  split.
  - intros x y. rewrite compareObjMetadata_lex, cmp_eq_iff.
    split; [apply objTuple_inj | by intros ->].
  - intros x y. rewrite !compareObjMetadata_lex. apply cmp_opp.
  - intros x y z. rewrite !compareObjMetadata_lex. apply cmp_lt_trans.
Qed.

#[global] Instance infoLe_total : Total infoLe.
Proof.
  intros a b. unfold infoLe.
  rewrite (cmp_opp (InfoToObjMeta b) (InfoToObjMeta a)).
  destruct (compareObjMetadata (InfoToObjMeta a) (InfoToObjMeta b)); cbn; intuition congruence.
Qed.

#[global] Instance infoLe_trans : Transitive infoLe.
Proof.
  intros a b c. unfold infoLe.
  destruct (compareObjMetadata (InfoToObjMeta a) (InfoToObjMeta b)) eqn:Hab; [| |done].
  - apply cmp_eq_iff in Hab. by rewrite Hab.
  - destruct (compareObjMetadata (InfoToObjMeta b) (InfoToObjMeta c)) eqn:Hbc; [| |done].
    + apply cmp_eq_iff in Hbc. rewrite <-Hbc, Hab. done.
    + rewrite (cmp_lt_trans _ _ _ Hab Hbc). done.
Qed.

Lemma infoLe_antisym a b : infoLe a b → infoLe b a → InfoToObjMeta a = InfoToObjMeta b.
Proof.
  unfold infoLe. rewrite (cmp_opp (InfoToObjMeta b) (InfoToObjMeta a)).
  destruct (compareObjMetadata (InfoToObjMeta a) (InfoToObjMeta b)) eqn:Hab; cbn; try done.
  intros _ _. by apply cmp_eq_iff in Hab.
Qed.

Lemma sortInfos_Permutation (invInfos : list Info) : sortInfos invInfos ≡ₚ invInfos.
Proof. apply merge_sort_Permutation. Qed.

Lemma sortInfos_Sorted (invInfos : list Info) : StronglySorted infoLe (sortInfos invInfos).
Proof. apply StronglySorted_merge_sort; apply _. Qed.

Lemma sortInfos_length (invInfos : list Info) : length (sortInfos invInfos) = length invInfos.
Proof. by rewrite sortInfos_Permutation. Qed.


Lemma distinctInfos_inj (l : list Info) (x y : Info) :
  distinctInfos l → x ∈ l → y ∈ l → InfoToObjMeta x = InfoToObjMeta y → x = y.
Proof.
  unfold distinctInfos. induction l as [|z l IH]; [by intros _ ?%elem_of_nil|].
  rewrite fmap_cons, NoDup_cons.
  intros [Hz Hnd] Hx Hy Heq.
  apply elem_of_cons in Hx as [->|Hx]; apply elem_of_cons in Hy as [->|Hy].
  - done.
  - exfalso. apply Hz. rewrite Heq. by apply list_elem_of_fmap_2.
  - exfalso. apply Hz. rewrite <-Heq. by apply list_elem_of_fmap_2.
  - by apply IH.
Qed.

(** On candidates with distinct identities the sorted list depends only
    on which candidates there are, not on the order they were listed. *)
Lemma sortInfos_permutation_invariant (l1 l2 : list Info) :
  distinctInfos l1 → l1 ≡ₚ l2 → sortInfos l1 = sortInfos l2.
Proof.
  intros Hnd Hp.
  apply (StronglySorted_unique_strong infoLe); [|apply sortInfos_Sorted..|].
  - intros x1 x2 Hx1 Hx2 H12 H21.
    apply (distinctInfos_inj l1); [done| | |by apply infoLe_antisym].
    + by rewrite <-(sortInfos_Permutation l1).
    + by rewrite Hp, <-(sortInfos_Permutation l2).
  - by rewrite !sortInfos_Permutation.
Qed.

(** ** The cluster *)

Section listing.
Context (mapper : GroupKind → option string) (resource namespace : string)
        (selector : LabelSelector).

Lemma elem_of_listObjects (m : gmap ObjMetadata Content) (i : Info) :
  i ∈ listObjects mapper resource namespace selector m ↔
  m !! InfoToObjMeta i = Some (infoObject i) ∧
  matchesQuery mapper resource namespace selector (InfoToObjMeta i, infoObject i) = true.
Proof.
  unfold listObjects. rewrite list_elem_of_fmap. split.
  - intros ([k c] & -> & Hin). apply list_elem_of_filter in Hin as [Hm Hin].
    apply elem_of_map_to_list in Hin. done.
  - intros [Hl Hm]. exists (InfoToObjMeta i, infoObject i). split; [by destruct i|].
    apply list_elem_of_filter. split; [done|]. by apply elem_of_map_to_list.
Qed.

Lemma listObjects_distinct (m : gmap ObjMetadata Content) :
  distinctInfos (listObjects mapper resource namespace selector m).
Proof.
  unfold distinctInfos, listObjects. rewrite <-list_fmap_compose.
  change (InfoToObjMeta ∘ entryInfo) with (@fst ObjMetadata Content).
  apply (sublist_NoDup _ ((map_to_list m).*1)).
  - apply NoDup_fst_map_to_list.
  - apply fmap_sublist, sublist_filter.
Qed.

(** The kind of a listed object maps to the queried resource. *)
Lemma listObjects_mapper (m : gmap ObjMetadata Content) (i : Info) :
  i ∈ listObjects mapper resource namespace selector m →
  mapper (objGroupKind (InfoToObjMeta i)) = Some resource.
Proof.
  intros [_ Hm]%elem_of_listObjects. unfold matchesQuery in Hm. cbn in Hm.
  apply andb_true_iff in Hm as [Hm _]. apply andb_true_iff in Hm as [Hm _].
  by apply bool_decide_eq_true in Hm.
Qed.

(** A listing whose candidates are exactly [i]. *)
Lemma listObjects_singleton (m : gmap ObjMetadata Content) (i : Info) :
  (∀ j, j ∈ listObjects mapper resource namespace selector m ↔ j = i) →
  listObjects mapper resource namespace selector m = [i].
Proof.
  intros Hiff. apply Permutation_singleton_r.
  apply NoDup_Permutation.
  - pose proof (listObjects_distinct m) as Hd. unfold distinctInfos in Hd.
    by apply NoDup_fmap_1 in Hd.
  - apply NoDup_singleton.
  - intros j. rewrite Hiff, list_elem_of_singleton. done.
Qed.
End listing.

Lemma bind_run {A B} (m : Op A) (k : A → Op B) (cl : Cluster) :
  (m ≫= k) cl =
  let '(a, cl1, t1) := m cl in
  let '(b, cl2, t2) := k a cl1 in (b, cl2, t1 ++ t2).
Proof. done. Qed.


Lemma helperReplace_denied_same (info : Info) (cl : Cluster) :
  denied ((helperReplace info cl).1.2) = denied cl.
Proof.
  unfold helperReplace. case_bool_decide; [done|].
  by destruct (objects cl !! InfoToObjMeta info).
Qed.

Lemma helperReplace_ok (info : Info) (cl : Cluster) :
  VUpdate ∉ denied cl →
  is_Some (objects cl !! InfoToObjMeta info) →
  helperReplace info cl =
  (None, {| objects := <[InfoToObjMeta info := infoObject info]> (objects cl);
            denied := denied cl |}, [(ReqReplace info, None)]).
Proof.
  intros Hd [c Hc]. unfold helperReplace.
  rewrite bool_decide_eq_false_2 by done. by rewrite Hc.
Qed.

(** A replace request that the server accepts stores the object. *)
Lemma helperReplace_success (info : Info) (cl cl' : Cluster) (t : list Call) :
  helperReplace info cl = (None, cl', t) →
  cl' = {| objects := <[InfoToObjMeta info := infoObject info]> (objects cl);
           denied := denied cl |} ∧
  t = [(ReqReplace info, None)] ∧
  (VUpdate ∉ denied cl) ∧ is_Some (objects cl !! InfoToObjMeta info).
Proof.
  unfold helperReplace. case_bool_decide as Hd; [done|].
  destruct (objects cl !! InfoToObjMeta info) eqn:Hl; [|done].
  intros ?; simplify_eq. eauto.
Qed.

Lemma helperReplace_failure (info : Info) (cl cl' : Cluster) (e : Error) (t : list Call) :
  helperReplace info cl = (Some e, cl', t) →
  cl' = cl ∧ t = [(ReqReplace info, Some e)].
Proof.
  unfold helperReplace. case_bool_decide as Hd; [by intros ?; simplify_eq|].
  destruct (objects cl !! InfoToObjMeta info) eqn:Hl; by intros ?; simplify_eq.
Qed.

Lemma helperDelete_ok (key : ObjMetadata) (cl : Cluster) :
  VDelete ∉ denied cl →
  is_Some (objects cl !! key) →
  helperDelete key cl =
  (None, {| objects := delete key (objects cl); denied := denied cl |},
   [(ReqDelete key, None)]).
Proof.
  intros Hd [c Hc]. unfold helperDelete.
  rewrite bool_decide_eq_false_2 by done. by rewrite Hc.
Qed.

Lemma helperDelete_trace (key : ObjMetadata) (cl : Cluster) :
  ∃ e, (helperDelete key cl).2 = [(ReqDelete key, e)].
Proof.
  unfold helperDelete. case_bool_decide; [by eexists|].
  destruct (objects cl !! key); by eexists.
Qed.

(** ** The helpers of the client *)

Section client.
Context (cic : ClusterInventoryClient).

Lemma applyInventoryObj_dry (info : option Info) (cl : Cluster) :
  dryRun cic = true → applyInventoryObj cic info cl = (None, cl, []).
Proof. unfold applyInventoryObj. by intros ->. Qed.

Lemma applyInventoryObj_live (info : Info) (cl : Cluster) :
  dryRun cic = false → applyInventoryObj cic (Some info) cl = helperReplace info cl.
Proof. unfold applyInventoryObj. by intros ->. Qed.

Lemma createInventoryObj_dry (info : option Info) (cl : Cluster) :
  dryRun cic = true → createInventoryObj cic info cl = (None, cl, []).
Proof. unfold createInventoryObj. by intros ->. Qed.

Lemma DeleteInventoryObj_dry (info : option Info) (cl : Cluster) :
  dryRun cic = true → DeleteInventoryObj cic info cl = (None, cl, []).
Proof. unfold DeleteInventoryObj. by intros ->. Qed.

Lemma DeleteInventoryObj_live_ok (info : Info) (resource : string) (cl : Cluster) :
  dryRun cic = false →
  mapper cic (objGroupKind (InfoToObjMeta info)) = Some resource →
  clientFunc cic resource = None →
  VDelete ∉ denied cl →
  is_Some (objects cl !! InfoToObjMeta info) →
  DeleteInventoryObj cic (Some info) cl =
  (None, {| objects := delete (InfoToObjMeta info) (objects cl); denied := denied cl |},
   [(ReqDelete (InfoToObjMeta info), None)]).
Proof.
  intros Hdry Hm Hc Hd Hin. unfold DeleteInventoryObj, RESTMapping.
  rewrite Hdry, Hm, Hc. by apply helperDelete_ok.
Qed.

(** Whatever happens, deleting an inventory object sends at most a
    delete request. *)
Lemma DeleteInventoryObj_trace (info : option Info) (cl : Cluster) :
  Forall isDeleteCall (DeleteInventoryObj cic info cl).2.
Proof.
  unfold DeleteInventoryObj, RESTMapping.
  destruct (dryRun cic); [by constructor|].
  destruct info as [info|]; [|by constructor].
  destruct (mapper cic _); [|by constructor].
  destruct (clientFunc cic _); [by constructor|].
  destruct (helperDelete_trace (InfoToObjMeta info) cl) as [e ->].
  constructor; [by eexists|constructor].
Qed.

Lemma deleteOthers_dry (others : list Info) (cl : Cluster) :
  dryRun cic = true → deleteOthers cic others cl = (None, cl, []).
Proof.
  intros Hdry. induction others as [|o others IH]; [done|].
  cbn [deleteOthers]. rewrite bind_run, DeleteInventoryObj_dry by done.
  by rewrite IH.
Qed.

Lemma deleteOthers_trace (others : list Info) (cl : Cluster) :
  Forall isDeleteCall (deleteOthers cic others cl).2.
Proof.
  revert cl. induction others as [|o others IH]; intros cl; [by constructor|].
  cbn [deleteOthers]. rewrite bind_run.
  pose proof (DeleteInventoryObj_trace (Some o) cl) as Hd.
  destruct (DeleteInventoryObj cic (Some o) cl) as [[[e|] cl1] t1]; cbn in *.
  - by rewrite app_nil_r.
  - specialize (IH cl1). destruct (deleteOthers cic others cl1) as [[e2 cl2] t2].
    cbn in *. by apply Forall_app.
Qed.

Lemma deleteOthers_denied (others : list Info) (cl : Cluster) :
  denied ((deleteOthers cic others cl).1.2) = denied cl.
Proof.
  revert cl. induction others as [|o others IH]; intros cl; [done|].
  cbn [deleteOthers]. rewrite bind_run.
  assert (denied ((DeleteInventoryObj cic (Some o) cl).1.2) = denied cl) as Hd.
  { unfold DeleteInventoryObj, RESTMapping.
    destruct (dryRun cic); [done|]. destruct (mapper cic _); [|done].
    destruct (clientFunc cic _); [done|]. unfold helperDelete.
    case_bool_decide; [done|]. by destruct (objects cl !! _). }
  destruct (DeleteInventoryObj cic (Some o) cl) as [[[e|] cl1] t1]; cbn in *; [done|].
  specialize (IH cl1). destruct (deleteOthers cic others cl1) as [[e2 cl2] t2].
  cbn in *. congruence.
Qed.

(** The deletions all succeed when the server accepts deletes and the
    objects are there. *)
Lemma deleteOthers_live_ok (others : list Info) (resource : string) (cl : Cluster) :
  dryRun cic = false →
  clientFunc cic resource = None →
  VDelete ∉ denied cl →
  distinctInfos others →
  (∀ o, o ∈ others →
        mapper cic (objGroupKind (InfoToObjMeta o)) = Some resource ∧
        is_Some (objects cl !! InfoToObjMeta o)) →
  deleteOthers cic others cl =
  (None, {| objects := foldr delete (objects cl) (InfoToObjMeta <$> others);
            denied := denied cl |},
   (λ o, (ReqDelete (InfoToObjMeta o), None)) <$> others).
Proof.
  intros Hdry Hc. revert cl.
  induction others as [|o others IH]; intros cl Hd Hnd Hall.
  { cbn. by destruct cl. }
  unfold distinctInfos in Hnd. rewrite fmap_cons in Hnd.
  apply NoDup_cons in Hnd as [Ho Hnd].
  destruct (Hall o) as [Hm Hin]; [apply elem_of_cons; by left|].
  cbn [deleteOthers]. rewrite bind_run.
  rewrite (DeleteInventoryObj_live_ok o resource) by done.
  rewrite IH; cbn; [|done|done|].
  - rewrite <-delete_foldr_delete. done.
  - intros o' Ho'. destruct (Hall o') as [Hm' Hin']; [apply elem_of_cons; by right|].
    split; [done|]. rewrite lookup_delete_ne; [done|].
    intros Heq. apply Ho. rewrite Heq. by apply list_elem_of_fmap_2.
Qed.
End client.

(** ** Loading the candidates *)

Lemma GetObject_Store (info : Info) (objs : gset ObjMetadata) :
  GetObject (Store (WrapInventoryObj (Some info)) objs).1 = (Some (withStored info objs), None).
Proof. done. Qed.

Lemma Load_withStored (info : Info) (objs : gset ObjMetadata) :
  Load (WrapInventoryObj (Some (withStored info objs))) = (objs, None).
Proof. rewrite Load_Wrap. apply decodeInventory_encodeInventory. Qed.

(** When every load succeeds, the result is the union of what was
    loaded. *)
Lemma loadOthers_ok (others : list Info) (R U : gset ObjMetadata) :
  loadOthers R others = (U, None) →
  (∀ c, c ∈ others → (Load (WrapInventoryObj (Some c))).2 = None) ∧
  (∀ o, o ∈ U ↔ o ∈ R ∨ ∃ c, c ∈ others ∧ o ∈ (Load (WrapInventoryObj (Some c))).1).
Proof.
  revert R. induction others as [|c others IH]; intros R; cbn [loadOthers].
  { intros ?; simplify_eq. split; [by intros ? ?%elem_of_nil|].
    intros o. split; [by left|]. intros [?|(c & ?%elem_of_nil & _)]; done. }
  destruct (Load (WrapInventoryObj (Some c))) as [S [e|]] eqn:Hc; [done|].
  intros [Hall HU]%IH. split.
  - intros c' [->|Hc']%elem_of_cons; [by rewrite Hc|by apply Hall].
  - intros o. rewrite HU. unfold Union. rewrite elem_of_union. split.
    + intros [[?|?]|(c' & Hc' & Ho)]; [by left| |].
      * right. exists c. rewrite Hc. split; [apply elem_of_cons; by left|done].
      * right. exists c'. split; [apply elem_of_cons; by right|done].
    + intros [?|(c' & [->|Hc']%elem_of_cons & Ho)]; [by left; left| |].
      * rewrite Hc in Ho. by left; right.
      * right. by exists c'.
Qed.

(** A failing load is the error of one of the candidates, and no set is
    returned with it. *)
Lemma loadOthers_error (others : list Info) (R U : gset ObjMetadata) (e : Error) :
  loadOthers R others = (U, Some e) →
  U = ∅ ∧ ∃ c, c ∈ others ∧ (Load (WrapInventoryObj (Some c))).2 = Some e.
Proof.
  revert R. induction others as [|c others IH]; intros R; cbn [loadOthers]; [done|].
  destruct (Load (WrapInventoryObj (Some c))) as [S [e'|]] eqn:Hc.
  - intros ?; simplify_eq. split; [done|]. exists c. rewrite Hc.
    split; [apply elem_of_cons; by left|done].
  - intros [-> (c' & Hc' & He)]%IH. split; [done|].
    exists c'. split; [apply elem_of_cons; by right|done].
Qed.

Lemma loadOthers_fails (others : list Info) (R : gset ObjMetadata) (c : Info) :
  c ∈ others → (Load (WrapInventoryObj (Some c))).2 ≠ None →
  ∃ e, loadOthers R others = (∅, Some e).
Proof.
  revert R. induction others as [|c' others IH]; intros R; [by intros ?%elem_of_nil|].
  intros Hin Hfail. cbn [loadOthers].
  destruct (Load (WrapInventoryObj (Some c'))) as [S [e'|]] eqn:Hc; [by eexists|].
  apply elem_of_cons in Hin as [->|Hin]; [by rewrite Hc in Hfail|].
  by apply IH.
Qed.

Lemma loadAll_ok (invInfos : list Info) (U : gset ObjMetadata) :
  loadAll invInfos = (U, None) →
  (∀ c, c ∈ invInfos → (Load (WrapInventoryObj (Some c))).2 = None) ∧
  (∀ o, o ∈ U ↔ ∃ c, c ∈ invInfos ∧ o ∈ (Load (WrapInventoryObj (Some c))).1).
Proof.
  destruct invInfos as [|r others]; cbn [loadAll].
  { intros ?; simplify_eq. split; [by intros ? ?%elem_of_nil|].
    intros o. split; [done|]. by intros (c & ?%elem_of_nil & _). }
  destruct (Load (WrapInventoryObj (Some r))) as [S [e|]] eqn:Hr; [done|].
  intros [Hall HU]%loadOthers_ok. split.
  - intros c [->|Hc]%elem_of_cons; [by rewrite Hr|by apply Hall].
  - intros o. rewrite HU. split.
    + intros [Ho|(c & Hc & Ho)].
      * exists r. rewrite Hr. split; [apply elem_of_cons; by left|done].
      * exists c. split; [apply elem_of_cons; by right|done].
    + intros (c & [->|Hc]%elem_of_cons & Ho).
      * left. by rewrite Hr in Ho.
      * right. by exists c.
Qed.

Lemma loadAll_error (invInfos : list Info) (U : gset ObjMetadata) (e : Error) :
  loadAll invInfos = (U, Some e) →
  U = ∅ ∧ ∃ c, c ∈ invInfos ∧ (Load (WrapInventoryObj (Some c))).2 = Some e.
Proof.
  destruct invInfos as [|r others]; cbn [loadAll]; [done|].
  destruct (Load (WrapInventoryObj (Some r))) as [S [e'|]] eqn:Hr.
  - intros ?; simplify_eq. split; [done|]. exists r. rewrite Hr.
    split; [apply elem_of_cons; by left|done].
  - intros [-> (c & Hc & He)]%loadOthers_error. split; [done|].
    exists c. split; [apply elem_of_cons; by right|done].
Qed.

Lemma loadAll_fails (invInfos : list Info) (c : Info) :
  c ∈ invInfos → (Load (WrapInventoryObj (Some c))).2 ≠ None →
  ∃ e, loadAll invInfos = (∅, Some e).
Proof.
  destruct invInfos as [|r others]; [by intros ?%elem_of_nil|].
  intros Hin Hfail. cbn [loadAll].
  destruct (Load (WrapInventoryObj (Some r))) as [S [e'|]] eqn:Hr; [by eexists|].
  apply elem_of_cons in Hin as [->|Hin]; [by rewrite Hr in Hfail|].
  by eapply loadOthers_fails.
Qed.

(** ** Duplicate resolution, run *)

Section resolution.
Context (cic : ClusterInventoryClient).

Lemma sortInfos_cons_nonempty (invInfos : list Info) (retained : Info) (others : list Info) :
  sortInfos invInfos = retained :: others → length invInfos ≠ 0.
Proof. intros Hs. rewrite <-sortInfos_length, Hs. done. Qed.

Lemma mergeClusterInventory_nil (cl : Cluster) :
  mergeClusterInventory cic [] cl = ((None, None), cl, []).
Proof. done. Qed.

(** With dry-run on, resolution loads and unions, and touches nothing. *)
Lemma mergeClusterInventory_dry (invInfos : list Info) (retained : Info)
    (others : list Info) (cl : Cluster) :
  dryRun cic = true →
  sortInfos invInfos = retained :: others →
  mergeClusterInventory cic invInfos cl =
  (match loadAll (retained :: others) with
   | (_, Some e) => (None, Some e)
   | (U, None) => (Some (withStored retained U), None)
   end, cl, []).
Proof.
  intros Hdry Hs. unfold mergeClusterInventory.
  rewrite bool_decide_eq_false_2 by by eapply sortInfos_cons_nonempty.
  rewrite Hs. cbn [loadAll].
  destruct (Load (WrapInventoryObj (Some retained))) as [S [e|]]; [done|].
  destruct (loadOthers S others) as [U [e|]]; [done|].
  cbn -[applyInventoryObj deleteOthers].
  rewrite bind_run, applyInventoryObj_dry by done.
  rewrite bind_run, deleteOthers_dry by done. done.
Qed.

(** With dry-run off, resolution loads and unions, replaces the
    retained object and then deletes the others. *)
Lemma mergeClusterInventory_live (invInfos : list Info) (retained : Info)
    (others : list Info) (cl : Cluster) :
  dryRun cic = false →
  sortInfos invInfos = retained :: others →
  mergeClusterInventory cic invInfos cl =
  match loadAll (retained :: others) with
  | (_, Some e) => ((None, Some e), cl, [])
  | (U, None) =>
      let '(e1, cl1, t1) := helperReplace (withStored retained U) cl in
      match e1 with
      | Some e => ((None, Some e), cl1, t1)
      | None =>
          let '(e2, cl2, t2) := deleteOthers cic others cl1 in
          (match e2 with
           | Some e => (None, Some e)
           | None => (Some (withStored retained U), None)
           end, cl2, t1 ++ t2)
      end
  end.
Proof.
  intros Hdry Hs. unfold mergeClusterInventory.
  rewrite bool_decide_eq_false_2 by by eapply sortInfos_cons_nonempty.
  rewrite Hs. cbn [loadAll].
  destruct (Load (WrapInventoryObj (Some retained))) as [S [e|]]; [done|].
  destruct (loadOthers S others) as [U [e|]]; [done|].
  cbn -[applyInventoryObj deleteOthers].
  rewrite bind_run, applyInventoryObj_live by done.
  fold (withStored retained U).
  destruct (helperReplace (withStored retained U) cl) as [[[e|] cl1] t1].
  { cbn. by rewrite app_nil_r. }
  rewrite bind_run.
  destruct (deleteOthers cic others cl1) as [[[e|] cl2] t2]; cbn; by rewrite app_nil_r.
Qed.
End resolution.

Section lookup.
Context (cic : ClusterInventoryClient).

Lemma DeleteInventoryObj_live_success (info : Info) (cl cl' : Cluster) (t : list Call) :
  dryRun cic = false →
  DeleteInventoryObj cic (Some info) cl = (None, cl', t) →
  cl' = {| objects := delete (InfoToObjMeta info) (objects cl); denied := denied cl |} ∧
  t = [(ReqDelete (InfoToObjMeta info), None)].
Proof.
  intros Hdry. unfold DeleteInventoryObj, RESTMapping. rewrite Hdry.
  destruct (mapper cic _); [|done]. destruct (clientFunc cic _); [done|].
  unfold helperDelete. case_bool_decide; [done|].
  destruct (objects cl !! _); [|done]. by intros ?; simplify_eq.
Qed.

Lemma deleteOthers_live_success (others : list Info) (cl cl' : Cluster) (t : list Call) :
  dryRun cic = false →
  deleteOthers cic others cl = (None, cl', t) →
  cl' = {| objects := foldr delete (objects cl) (InfoToObjMeta <$> others);
           denied := denied cl |} ∧
  t = (λ o, (ReqDelete (InfoToObjMeta o), None)) <$> others.
Proof.
  intros Hdry. revert cl cl' t.
  induction others as [|o others IH]; intros cl cl' t.
  { cbn. intros [= <- <-]. by destruct cl. }
  cbn [deleteOthers]. rewrite bind_run.
  destruct (DeleteInventoryObj cic (Some o) cl) as [[[e|] cl1] t1] eqn:Hdel; [done|].
  apply DeleteInventoryObj_live_success in Hdel as [-> ->]; [|done].
  destruct (deleteOthers cic others _) as [[[e|] cl2] t2] eqn:Hrest; [done|].
  apply IH in Hrest as [-> ->]. intros ?; simplify_eq. cbn.
  by rewrite <-delete_foldr_delete.
Qed.

Lemma lookupAnchors_Some (localInfo : Info) (cl : Cluster) (found : list Info) :
  lookupAnchors cic localInfo cl = Some found ↔
  ∃ resource label,
    mapper cic (objGroupKind (InfoToObjMeta localInfo)) = Some resource ∧
    Labels (infoObject localInfo) !! InventoryLabel = Some label ∧
    (VList ∉ denied cl) ∧
    found = listObjects (mapper cic) resource (Namespace (InfoToObjMeta localInfo))
                        (mkSelector InventoryLabel label) (objects cl).
Proof.
  unfold lookupAnchors, RESTMapping, retrieveInventoryLabel, builderInfos.
  destruct (mapper cic _) as [resource|]; [|by split; [|intros (?&?&?&_)]].
  destruct (Labels (infoObject localInfo) !! InventoryLabel) as [label|];
    [|by split; [|intros (?&?&_&?&_)]].
  case_bool_decide as Hd.
  - split; [done|]. by intros (?&?&_&_&?&_).
  - split.
    + intros ?; simplify_eq. by exists resource, label.
    + intros (?&?&?&?&_&->). by simplify_eq.
Qed.

(** The lookup does not depend on the dry-run flag. *)
Lemma lookupAnchors_SetDryRun (b : bool) (localInfo : Info) (cl : Cluster) :
  lookupAnchors (SetDryRun cic b) localInfo cl = lookupAnchors cic localInfo cl.
Proof. done. Qed.

Lemma lookupCall_SetDryRun (b : bool) (localInfo : Info) :
  lookupCall (SetDryRun cic b) localInfo = lookupCall cic localInfo.
Proof. done. Qed.

(** What [getClusterInventoryInfo] does once the lookup has answered. *)
Lemma getClusterInventoryInfo_lookup (localInfo : Info) (cl : Cluster) (found : list Info) :
  lookupAnchors cic localInfo cl = Some found →
  getClusterInventoryInfo cic (Some localInfo) cl =
  match found with
  | [] => ((None, None), cl, [lookupCall cic localInfo])
  | [clusterInv] => ((Some clusterInv, None), cl, [lookupCall cic localInfo])
  | _ =>
      let '(r, cl', t) := mergeClusterInventory cic found cl in
      (match r.2 with
       | Some e => (None, Some e)
       | None => (r.1, None)
       end, cl', lookupCall cic localInfo :: t)
  end.
Proof.
  unfold lookupAnchors, lookupCall, getClusterInventoryInfo.
  destruct (RESTMapping cic _) as [resource [e|]]; [done|].
  destruct (retrieveInventoryLabel localInfo) as [label [e|]]; [done|].
  rewrite bind_run. unfold builderInfos.
  case_bool_decide; [done|]. intros ?; simplify_eq.
  destruct (listObjects _ _ _ _ _) as [|a [|b l]]; [done..|].
  rewrite bind_run.
  destruct (mergeClusterInventory cic (a :: b :: l) cl) as [[[r [e|]] cl1] t1];
    cbn; by rewrite app_nil_r.
Qed.

(** When the descriptor does not resolve or the server refuses to list,
    [getClusterInventoryInfo] fails without a write, whatever the mode. *)
Lemma getClusterInventoryInfo_unresolved (localInfo : Info) (cl : Cluster) :
  lookupAnchors cic localInfo cl = None →
  ∃ e t, Forall (λ c, isWrite c = false) t ∧
         ∀ b, getClusterInventoryInfo (SetDryRun cic b) (Some localInfo) cl =
              ((None, Some e), cl, t).
Proof.
  unfold lookupAnchors, getClusterInventoryInfo, RESTMapping. cbn [SetDryRun mapper].
  destruct (mapper cic _) as [resource|]; [|by eexists _, []].
  destruct (retrieveInventoryLabel localInfo) as [label [e|]]; [by eexists _, []|].
  intros Hnone.
  assert (VList ∈ denied cl) as Hd.
  { unfold builderInfos in Hnone. by case_bool_decide. }
  exists (ErrForbidden VList),
    [(ReqList resource (Namespace (InfoToObjMeta localInfo))
              (mkSelector InventoryLabel label), Some (ErrForbidden VList))].
  split; [by repeat constructor|].
  intros b. rewrite bind_run. unfold builderInfos.
  rewrite bool_decide_eq_true_2 by done. done.
Qed.

(** After a resolution that went through, the lookup finds the retained
    object alone, with the union stored in it. *)
Lemma listObjects_resolved (resource namespace : string) (selector : LabelSelector)
    (m : gmap ObjMetadata Content) (retained : Info) (others : list Info)
    (U : gset ObjMetadata) :
  sortInfos (listObjects (mapper cic) resource namespace selector m) = retained :: others →
  listObjects (mapper cic) resource namespace selector
    (foldr delete (<[InfoToObjMeta retained := infoObject (withStored retained U)]> m)
           (InfoToObjMeta <$> others))
  = [withStored retained U].
Proof.
  intros Hs.
  pose proof (listObjects_distinct (mapper cic) resource namespace selector m) as Hd.
  pose proof (sortInfos_Permutation (listObjects (mapper cic) resource namespace selector m))
    as Hp.
  rewrite Hs in Hp.
  assert (distinctInfos (retained :: others)) as Hd'.
  { unfold distinctInfos in *. by rewrite Hp. }
  unfold distinctInfos in Hd'. rewrite fmap_cons in Hd'.
  apply NoDup_cons in Hd' as [Hr Hnd].
  assert (retained ∈ listObjects (mapper cic) resource namespace selector m) as Hrin.
  { rewrite <-Hp. apply elem_of_cons. by left. }
  apply elem_of_listObjects in Hrin as [Hrl Hrm].
  apply listObjects_singleton. intros j.
  rewrite elem_of_listObjects, lookup_foldr_delete_Some. split.
  - intros [[Hj Hl] Hm].
    destruct (decide (InfoToObjMeta j = InfoToObjMeta retained)) as [Heq|Hne].
    + rewrite Heq, lookup_insert_eq in Hl.
      destruct j as [jm jo]. unfold withStored. cbn in *. by simplify_eq.
    + rewrite lookup_insert_ne in Hl by done.
      assert (j ∈ retained :: others) as Hin.
      { rewrite Hp. by apply elem_of_listObjects. }
      apply elem_of_cons in Hin as [->|Hin]; [done|].
      exfalso. apply Hj. by apply list_elem_of_fmap_2.
  - intros ->. split; [split|].
    + done.
    + by rewrite lookup_insert_eq.
    + done.
Qed.
End lookup.

(** * The claims *)

(** ** Nil descriptors *)

(** C7, as stated, fails: with dry-run on, [DeleteInventoryObj] returns
    success on a nil inventory object, the dry-run test coming before
    the nil test. *)
Lemma DeleteInventoryObj_nil_dry_run_succeeds :
  DeleteInventoryObj (exClient true) None exClusterNone = (None, exClusterNone, []).
Proof. reflexivity. Qed.

(** C7, amended: on a nil local inventory descriptor [GetClusterObjs],
    [Merge] and [Replace] return the nil-descriptor error in every mode,
    with an empty result and without a request to the server;
    [DeleteInventoryObj] returns its nil error when dry-run is off, and
    returns success, also without a request, when dry-run is on. *)
Theorem nil_descriptor_is_rejected (cic : ClusterInventoryClient) (objs : gset ObjMetadata)
    (cl : Cluster) :
  GetClusterObjs cic None cl = ((∅, Some ErrNilLocalInventory), cl, []) ∧
  Merge cic None objs cl = ((∅, Some ErrNilLocalInventory), cl, []) ∧
  Replace cic None objs cl = (Some ErrNilLocalInventory, cl, []) ∧
  DeleteInventoryObj cic None cl =
    (if dryRun cic then None else Some ErrNilDelete, cl, []).
Proof.
  repeat split; try reflexivity.
  unfold DeleteInventoryObj. by destruct (dryRun cic).
Qed.

(** ** Duplicate resolution *)

(** C10: when the stored set of some candidate fails to load,
    [mergeClusterInventory] returns the load error of a candidate,
    leaves the cluster as it was and has sent no request at all. *)
Theorem mergeClusterInventory_load_failure_atomic (cic : ClusterInventoryClient) (invInfos : list Info)
    (cl : Cluster) (c : Info) :
  c ∈ invInfos →
  (Load (WrapInventoryObj (Some c))).2 ≠ None →
  ∃ e c', c' ∈ invInfos ∧
          (Load (WrapInventoryObj (Some c'))).2 = Some e ∧
          mergeClusterInventory cic invInfos cl = ((None, Some e), cl, []).
Proof.
  intros Hin Hfail.
  pose proof (sortInfos_Permutation invInfos) as Hp.
  destruct (sortInfos invInfos) as [|retained others] eqn:Hs.
  { apply Permutation_nil in Hp. subst. by apply elem_of_nil in Hin. }
  destruct (loadAll_fails (retained :: others) c) as [e He]; [by rewrite Hp|done|].
  destruct (loadAll_error _ _ _ He) as [_ (c' & Hc' & Hl)].
  exists e, c'. split; [by rewrite <-Hp|]. split; [done|].
  destruct (dryRun cic) eqn:Hdry.
  - rewrite (mergeClusterInventory_dry cic invInfos retained others) by done.
    by rewrite He.
  - rewrite (mergeClusterInventory_live cic invInfos retained others) by done.
    by rewrite He.
Qed.

(** C10 on the cluster whose second anchor is malformed. *)
Lemma mergeClusterInventory_load_failure_atomic_witness :
  ∃ e c', c' ∈ [exAnchorInfo exAnchor1 {[ exA ]};
                mkInfo exAnchor2 (mkContent exLabels [Garbled "not-an-object"])] ∧
          (Load (WrapInventoryObj (Some c'))).2 = Some e ∧
          mergeClusterInventory (exClient false)
            [exAnchorInfo exAnchor1 {[ exA ]};
             mkInfo exAnchor2 (mkContent exLabels [Garbled "not-an-object"])]
            exClusterGarbled
          = ((None, Some e), exClusterGarbled, []).
Proof.
  apply (mergeClusterInventory_load_failure_atomic (exClient false) _ exClusterGarbled
           (mkInfo exAnchor2 (mkContent exLabels [Garbled "not-an-object"]))).
  - apply elem_of_cons. right. apply elem_of_cons. by left.
  - vm_compute. discriminate.
Defined.

(** C4: in every run of [mergeClusterInventory], a delete request is
    preceded by the replace request that stores the union of the
    candidates' sets into the retained candidate, and the server has
    accepted that request: the retained object holds the union in the
    cluster the deletions start from. *)
Theorem mergeClusterInventory_write_before_delete (cic : ClusterInventoryClient) (invInfos : list Info)
    (cl : Cluster) (i : nat) (o : ObjMetadata) (e : option Error) :
  (mergeClusterInventory cic invInfos cl).2 !! i = Some (ReqDelete o, e) →
  ∃ retained others U cl1,
    sortInfos invInfos = retained :: others ∧
    (∀ x, x ∈ U ↔ ∃ c, c ∈ invInfos ∧ x ∈ (Load (WrapInventoryObj (Some c))).1) ∧
    0 < i ∧
    (mergeClusterInventory cic invInfos cl).2 !! 0
      = Some (ReqReplace (withStored retained U), None) ∧
    helperReplace (withStored retained U) cl
      = (None, cl1, [(ReqReplace (withStored retained U), None)]) ∧
    objects cl1 !! InfoToObjMeta retained = Some (infoObject (withStored retained U)) ∧
    (∀ j c, (mergeClusterInventory cic invInfos cl).2 !! j = Some c → 0 < j → isDeleteCall c).
Proof.
  pose proof (sortInfos_Permutation invInfos) as Hp.
  destruct (sortInfos invInfos) as [|retained others] eqn:Hs.
  { apply Permutation_nil in Hp. subst. by rewrite mergeClusterInventory_nil. }
  destruct (dryRun cic) eqn:Hdry.
  { by rewrite (mergeClusterInventory_dry cic invInfos retained others). }
  rewrite (mergeClusterInventory_live cic invInfos retained others) by done.
  destruct (loadAll (retained :: others)) as [U [e0|]] eqn:Hload; [done|].
  apply loadAll_ok in Hload as [_ HU].
  destruct (helperReplace (withStored retained U) cl) as [[[e1|] cl1] t1] eqn:Hrep.
  { apply helperReplace_failure in Hrep as [-> ->]. cbn.
    destruct i; cbn; [by intros ?; simplify_eq|done]. }
  apply helperReplace_success in Hrep as (-> & -> & Hden & Hin).
  pose proof (deleteOthers_trace cic others
    {| objects := <[InfoToObjMeta (withStored retained U) :=
                      infoObject (withStored retained U)]> (objects cl);
       denied := denied cl |}) as Htr.
  destruct (deleteOthers cic others _) as [[e2 cl2] t2]. cbn in Htr |- *.
  intros Hi. exists retained, others, U. eexists.
  split; [done|]. split.
  { intros x. rewrite HU. by setoid_rewrite Hp. }
  split; [destruct i; [by simplify_eq|lia]|].
  split; [done|]. split; [by apply helperReplace_ok|].
  split; [cbn; by rewrite lookup_insert_eq|].
  intros [|j] c Hj Hpos; [lia|]. cbn in Hj.
  rewrite Forall_forall in Htr. apply Htr. by eapply list_elem_of_lookup_2.
Qed.

(** C4 on the cluster with two anchors: the delete request is the
    second call of the resolution, after the replace. *)
Lemma mergeClusterInventory_write_before_delete_witness :
  ∃ retained others U cl1,
    sortInfos [exAnchorInfo exAnchor2 {[ exB ]}; exAnchorInfo exAnchor1 {[ exA ]}]
      = retained :: others ∧
    (∀ x, x ∈ U ↔ ∃ c, c ∈ [exAnchorInfo exAnchor2 {[ exB ]};
                            exAnchorInfo exAnchor1 {[ exA ]}] ∧
                       x ∈ (Load (WrapInventoryObj (Some c))).1) ∧
    0 < 1 ∧
    (mergeClusterInventory (exClient false)
       [exAnchorInfo exAnchor2 {[ exB ]}; exAnchorInfo exAnchor1 {[ exA ]}]
       exClusterTwo).2 !! 0
      = Some (ReqReplace (withStored retained U), None) ∧
    helperReplace (withStored retained U) exClusterTwo
      = (None, cl1, [(ReqReplace (withStored retained U), None)]) ∧
    objects cl1 !! InfoToObjMeta retained = Some (infoObject (withStored retained U)) ∧
    (∀ j c, (mergeClusterInventory (exClient false)
               [exAnchorInfo exAnchor2 {[ exB ]}; exAnchorInfo exAnchor1 {[ exA ]}]
               exClusterTwo).2 !! j = Some c → 0 < j → isDeleteCall c).
Proof.
  apply (mergeClusterInventory_write_before_delete (exClient false) _ exClusterTwo 1 exAnchor2 None).
  vm_compute. reflexivity.
Defined.

(** ** Lookups after a write *)

Section after_write.
Context (cic : ClusterInventoryClient).

Lemma sortInfos_singleton (a : Info) : sortInfos [a] = [a].
Proof. done. Qed.

(** After the single anchor has been replaced, the lookup finds it
    alone, with the new set stored. *)
Lemma lookupAnchors_after_replace (localInfo : Info) (cl : Cluster) (a : Info)
    (U : gset ObjMetadata) :
  lookupAnchors cic localInfo cl = Some [a] →
  lookupAnchors cic localInfo
    {| objects := <[InfoToObjMeta a := infoObject (withStored a U)]> (objects cl);
       denied := denied cl |} = Some [withStored a U].
Proof.
  intros (resource & label & Hm & Hl & Hd & Hfound)%lookupAnchors_Some.
  apply lookupAnchors_Some. exists resource, label. repeat split; [done..|]. cbn.
  symmetry.
  apply (listObjects_resolved cic resource _ _ (objects cl) a [] U).
  by rewrite <-Hfound.
Qed.

(** After the first anchor has been created, the lookup finds it. *)
Lemma lookupAnchors_after_create (localInfo : Info) (cl : Cluster) (D : gset ObjMetadata) :
  lookupAnchors cic localInfo cl = Some [] →
  lookupAnchors cic localInfo
    {| objects := <[InfoToObjMeta localInfo := infoObject (withStored localInfo D)]>
                    (objects cl);
       denied := denied cl |} = Some [withStored localInfo D].
Proof.
  intros (resource & label & Hm & Hl & Hd & Hfound)%lookupAnchors_Some.
  apply lookupAnchors_Some. exists resource, label. repeat split; [done..|]. cbn.
  symmetry. apply listObjects_singleton. intros j.
  rewrite elem_of_listObjects. split.
  - intros [Hj Hq].
    destruct (decide (InfoToObjMeta j = InfoToObjMeta localInfo)) as [Heq|Hne].
    + rewrite Heq, lookup_insert_eq in Hj.
      destruct j as [jm jo]. unfold withStored. cbn in *. by simplify_eq.
    + rewrite lookup_insert_ne in Hj by done.
      assert (j ∈ listObjects (mapper cic) resource (Namespace (InfoToObjMeta localInfo))
                    (mkSelector InventoryLabel label) (objects cl)) as Hin.
      { by apply elem_of_listObjects. }
      rewrite <-Hfound in Hin. by apply elem_of_nil in Hin.
  - intros ->. split.
    + cbn. by rewrite lookup_insert_eq.
    + unfold matchesQuery, InfoToObjMeta in *. cbn. rewrite Hm, Hl.
      by rewrite !bool_decide_eq_true_2.
Qed.

Lemma lookupAnchors_elem (localInfo : Info) (cl : Cluster) (found : list Info) (a : Info) :
  lookupAnchors cic localInfo cl = Some found → a ∈ found →
  objects cl !! InfoToObjMeta a = Some (infoObject a) ∧
  mapper cic (objGroupKind (InfoToObjMeta a)) =
    mapper cic (objGroupKind (InfoToObjMeta localInfo)).
Proof.
  intros (resource & label & Hm & Hl & Hd & ->)%lookupAnchors_Some Hin.
  split.
  - by apply elem_of_listObjects in Hin as [? _].
  - rewrite Hm. by eapply listObjects_mapper.
Qed.

(** ** [GetClusterObjs] and [Merge], run *)

Lemma GetClusterObjs_none (localInfo : Info) (cl : Cluster) :
  lookupAnchors cic localInfo cl = Some [] →
  GetClusterObjs cic (Some localInfo) cl = ((∅, None), cl, [lookupCall cic localInfo]).
Proof.
  intros Hl. unfold GetClusterObjs.
  by rewrite bind_run, (getClusterInventoryInfo_lookup cic localInfo cl []).
Qed.

Lemma GetClusterObjs_one (localInfo : Info) (cl : Cluster) (a : Info) :
  lookupAnchors cic localInfo cl = Some [a] →
  GetClusterObjs cic (Some localInfo) cl =
  (Load (WrapInventoryObj (Some a)), cl, [lookupCall cic localInfo]).
Proof.
  intros Hl. unfold GetClusterObjs.
  by rewrite bind_run, (getClusterInventoryInfo_lookup cic localInfo cl [a]).
Qed.

Lemma Merge_none (localInfo : Info) (D : gset ObjMetadata) (cl : Cluster) :
  lookupAnchors cic localInfo cl = Some [] →
  Merge cic (Some localInfo) D cl =
  let '(e, cl1, t) := createInventoryObj cic (Some (withStored localInfo D)) cl in
  ((∅, e), cl1, lookupCall cic localInfo :: t).
Proof.
  intros Hl. unfold Merge.
  rewrite bind_run, (getClusterInventoryInfo_lookup cic localInfo cl []) by done.
  cbn -[createInventoryObj]. rewrite bind_run. fold (withStored localInfo D).
  destruct (createInventoryObj cic _ cl) as [[[e|] cl1] t]; cbn; by rewrite app_nil_r.
Qed.

Lemma Merge_one (localInfo : Info) (D S : gset ObjMetadata) (cl : Cluster) (a : Info) :
  lookupAnchors cic localInfo cl = Some [a] →
  Load (WrapInventoryObj (Some a)) = (S, None) →
  Merge cic (Some localInfo) D cl =
  if SetEquals D S then ((∅, None), cl, [lookupCall cic localInfo; lookupCall cic localInfo])
  else if dryRun cic
  then ((S ∖ D, None), cl, [lookupCall cic localInfo; lookupCall cic localInfo])
  else
    let '(e, cl1, t) := helperReplace (withStored a (S ∪ D)) cl in
    ((S ∖ D, e), cl1, lookupCall cic localInfo :: lookupCall cic localInfo :: t).
Proof.
  intros Hl HS. unfold Merge.
  rewrite bind_run, (getClusterInventoryInfo_lookup cic localInfo cl [a]) by done.
  cbn -[GetClusterObjs applyInventoryObj]. rewrite bind_run.
  rewrite (GetClusterObjs_one localInfo cl a), HS by done.
  destruct (SetEquals D S); [done|].
  cbn -[applyInventoryObj]. unfold SetDiff, Union.
  destruct (dryRun cic) eqn:Hdry; [done|].
  cbn -[applyInventoryObj]. rewrite bind_run, applyInventoryObj_live by done.
  fold (withStored a (S ∪ D)).
  destruct (helperReplace (withStored a (S ∪ D)) cl) as [[[e|] cl1] t]; cbn;
    by rewrite app_nil_r.
Qed.
End after_write.

(** ** Merge *)

(** C1: when the lookup finds one anchor, storing [S], and the desired
    set [D] differs from [S], [Merge] returns the difference [S ∖ D] in
    every mode and whatever the server answers; with dry-run off it
    sends one replace request for the anchor holding the union
    [S ∪ D], and, the server accepting updates, the anchor in the
    cluster is replaced by it: the lookup then finds that anchor, and
    it loads as [S ∪ D]. *)
Theorem Merge_existing_anchor (cic : ClusterInventoryClient) (localInfo : Info)
    (D S : gset ObjMetadata) (cl : Cluster) (a : Info) :
  lookupAnchors cic localInfo cl = Some [a] →
  Load (WrapInventoryObj (Some a)) = (S, None) →
  D ≠ S →
  let merged := withStored a (S ∪ D) in
  let cl' := {| objects := <[InfoToObjMeta a := infoObject merged]> (objects cl);
                denied := denied cl |} in
  let lookup := lookupCall cic localInfo in
  (Merge cic (Some localInfo) D cl).1.1.1 = S ∖ D ∧
  Merge cic (Some localInfo) D cl =
    (if dryRun cic then ((S ∖ D, None), cl, [lookup; lookup])
     else if bool_decide (VUpdate ∈ denied cl)
     then ((S ∖ D, Some (ErrForbidden VUpdate)), cl,
           [lookup; lookup; (ReqReplace merged, Some (ErrForbidden VUpdate))])
     else ((S ∖ D, None), cl', [lookup; lookup; (ReqReplace merged, None)])) ∧
  lookupAnchors cic localInfo cl' = Some [merged] ∧
  Load (WrapInventoryObj (Some merged)) = (S ∪ D, None).
Proof.
  intros Hl HS Hne merged cl' lookup.
  assert (Merge cic (Some localInfo) D cl =
    (if dryRun cic then ((S ∖ D, None), cl, [lookup; lookup])
     else if bool_decide (VUpdate ∈ denied cl)
     then ((S ∖ D, Some (ErrForbidden VUpdate)), cl,
           [lookup; lookup; (ReqReplace merged, Some (ErrForbidden VUpdate))])
     else ((S ∖ D, None), cl', [lookup; lookup; (ReqReplace merged, None)]))) as Hrun.
  { rewrite (Merge_one cic localInfo D S cl a) by done.
    unfold SetEquals. rewrite bool_decide_eq_false_2 by done.
    destruct (dryRun cic); [done|].
    fold merged. unfold helperReplace.
    destruct (lookupAnchors_elem cic localInfo cl [a] a Hl) as [Hin _].
    { apply elem_of_cons. by left. }
    case_bool_decide; [done|].
    change (InfoToObjMeta merged) with (InfoToObjMeta a). by rewrite Hin. }
  split; [|split; [done|split]].
  - rewrite Hrun. destruct (dryRun cic); [done|]. by case_bool_decide.
  - by apply lookupAnchors_after_replace.
  - apply Load_withStored.
Qed.



(** C1 on the anchor storing [{a, b, c}], with [{b, c, d}] desired. *)
Lemma Merge_existing_anchor_witness :
  let merged := withStored (exAnchorInfo exAnchor1 {[ exA; exB; exC ]})
                           ({[ exA; exB; exC ]} ∪ {[ exB; exC; exD ]}) in
  let cl' := {| objects := <[InfoToObjMeta (exAnchorInfo exAnchor1 {[ exA; exB; exC ]})
                               := infoObject merged]>
                             (objects (exClusterOne {[ exA; exB; exC ]}));
                denied := denied (exClusterOne {[ exA; exB; exC ]}) |} in
  let lookup := lookupCall (exClient false) exLocal in
  (Merge (exClient false) (Some exLocal) {[ exB; exC; exD ]}
         (exClusterOne {[ exA; exB; exC ]})).1.1.1
    = {[ exA; exB; exC ]} ∖ {[ exB; exC; exD ]} ∧
  Merge (exClient false) (Some exLocal) {[ exB; exC; exD ]}
        (exClusterOne {[ exA; exB; exC ]}) =
    (if dryRun (exClient false)
     then (({[ exA; exB; exC ]} ∖ {[ exB; exC; exD ]}, None),
           exClusterOne {[ exA; exB; exC ]}, [lookup; lookup])
     else if bool_decide (VUpdate ∈ denied (exClusterOne {[ exA; exB; exC ]}))
     then (({[ exA; exB; exC ]} ∖ {[ exB; exC; exD ]}, Some (ErrForbidden VUpdate)),
           exClusterOne {[ exA; exB; exC ]},
           [lookup; lookup; (ReqReplace merged, Some (ErrForbidden VUpdate))])
     else (({[ exA; exB; exC ]} ∖ {[ exB; exC; exD ]}, None), cl',
           [lookup; lookup; (ReqReplace merged, None)])) ∧
  lookupAnchors (exClient false) exLocal cl' = Some [merged] ∧
  Load (WrapInventoryObj (Some merged))
    = ({[ exA; exB; exC ]} ∪ {[ exB; exC; exD ]}, None).
Proof.
  refine (Merge_existing_anchor (exClient false) exLocal {[ exB; exC; exD ]}
            {[ exA; exB; exC ]} (exClusterOne {[ exA; exB; exC ]})
            (exAnchorInfo exAnchor1 {[ exA; exB; exC ]}) _ _ _).
  - vm_compute. reflexivity.
  - compute_done.
  - compute_done.
Defined.

(** The example of the spec: stored [{a, b, c}], desired [{b, c, d}];
    the prune set is [{a}] and the anchor then stores [{a, b, c, d}]. *)
Example Merge_correctness_example :
  (Merge (exClient false) (Some exLocal) {[ exB; exC; exD ]}
         (exClusterOne {[ exA; exB; exC ]})).1.1 = ({[ exA ]}, None) ∧
  (GetClusterObjs (exClient false) (Some exLocal)
     (Merge (exClient false) (Some exLocal) {[ exB; exC; exD ]}
            (exClusterOne {[ exA; exB; exC ]})).1.2).1.1
    = ({[ exA; exB; exC; exD ]}, None).
Proof. compute_done. Qed.

(** C6: when the lookup finds no anchor, [Merge] returns an empty prune
    set in every mode and whatever the server answers.  With dry-run on
    nothing is sent.  With dry-run off, and a client for the resource,
    it sends one create request for the local inventory object holding
    exactly [D]; the server accepting it, the object is in the cluster,
    the lookup finds it, and it loads as [D]. *)
Theorem Merge_first_apply (cic : ClusterInventoryClient) (localInfo : Info)
    (D : gset ObjMetadata) (cl : Cluster) :
  lookupAnchors cic localInfo cl = Some [] →
  let created := withStored localInfo D in
  let cl' := {| objects := <[InfoToObjMeta localInfo := infoObject created]> (objects cl);
                denied := denied cl |} in
  let lookup := lookupCall cic localInfo in
  (Merge cic (Some localInfo) D cl).1.1.1 = ∅ ∧
  Merge cic (Some localInfo) D cl =
    (if dryRun cic then ((∅, None), cl, [lookup])
     else match clientFunc cic (RESTMapping cic (objGroupKind (InfoToObjMeta localInfo))).1 with
          | Some e => ((∅, Some e), cl, [lookup])
          | None =>
              if bool_decide (VCreate ∈ denied cl)
              then ((∅, Some (ErrForbidden VCreate)), cl,
                    [lookup; (ReqCreate created, Some (ErrForbidden VCreate))])
              else match objects cl !! InfoToObjMeta localInfo with
                   | Some _ =>
                       ((∅, Some (ErrAlreadyExists (InfoToObjMeta localInfo))), cl,
                        [lookup; (ReqCreate created,
                                  Some (ErrAlreadyExists (InfoToObjMeta localInfo)))])
                   | None => ((∅, None), cl', [lookup; (ReqCreate created, None)])
                   end
          end) ∧
  lookupAnchors cic localInfo cl' = Some [created] ∧
  Load (WrapInventoryObj (Some created)) = (D, None).
Proof.
  intros Hl created cl' lookup.
  split; [|split; [|split]].
  - rewrite (Merge_none cic localInfo D cl) by done.
    by destruct (createInventoryObj cic _ cl) as [[e cl1] t].
  - rewrite (Merge_none cic localInfo D cl) by done. fold created.
    unfold createInventoryObj.
    destruct (dryRun cic); [done|].
    apply lookupAnchors_Some in Hl as (resource & label & Hm & _).
    change (InfoToObjMeta created) with (InfoToObjMeta localInfo).
    unfold RESTMapping. rewrite Hm. cbn [fst].
    destruct (clientFunc cic resource); [done|].
    unfold helperCreate. change (InfoToObjMeta created) with (InfoToObjMeta localInfo).
    case_bool_decide; [done|]. by destruct (objects cl !! _).
  - by apply lookupAnchors_after_create.
  - apply Load_withStored.
Qed.


(** C6 on the cluster without an anchor, with [{a, b}] desired. *)
Lemma Merge_first_apply_witness :
  let created := withStored exLocal {[ exA; exB ]} in
  let cl' := {| objects := <[InfoToObjMeta exLocal := infoObject created]>
                             (objects exClusterNone);
                denied := denied exClusterNone |} in
  let lookup := lookupCall (exClient false) exLocal in
  (Merge (exClient false) (Some exLocal) {[ exA; exB ]} exClusterNone).1.1.1 = ∅ ∧
  Merge (exClient false) (Some exLocal) {[ exA; exB ]} exClusterNone =
    (if dryRun (exClient false) then ((∅, None), exClusterNone, [lookup])
     else match clientFunc (exClient false)
                  (RESTMapping (exClient false)
                     (objGroupKind (InfoToObjMeta exLocal))).1 with
          | Some e => ((∅, Some e), exClusterNone, [lookup])
          | None =>
              if bool_decide (VCreate ∈ denied exClusterNone)
              then ((∅, Some (ErrForbidden VCreate)), exClusterNone,
                    [lookup; (ReqCreate created, Some (ErrForbidden VCreate))])
              else match objects exClusterNone !! InfoToObjMeta exLocal with
                   | Some _ =>
                       ((∅, Some (ErrAlreadyExists (InfoToObjMeta exLocal))), exClusterNone,
                        [lookup; (ReqCreate created,
                                  Some (ErrAlreadyExists (InfoToObjMeta exLocal)))])
                   | None => ((∅, None), cl', [lookup; (ReqCreate created, None)])
                   end
          end) ∧
  lookupAnchors (exClient false) exLocal cl' = Some [created] ∧
  Load (WrapInventoryObj (Some created)) = ({[ exA; exB ]}, None).
Proof.
  refine (Merge_first_apply (exClient false) exLocal {[ exA; exB ]} exClusterNone _).
  vm_compute. reflexivity.
Defined.

(** The example of the spec: no anchor, desired [{a, b}]; the prune set
    is empty and the created anchor stores exactly [{a, b}]. *)
Example Merge_first_apply_example :
  (Merge (exClient false) (Some exLocal) {[ exA; exB ]} exClusterNone).1.1 = (∅, None) ∧
  (GetClusterObjs (exClient false) (Some exLocal)
     (Merge (exClient false) (Some exLocal) {[ exA; exB ]} exClusterNone).1.2).1.1
    = ({[ exA; exB ]}, None).
Proof. compute_done. Qed.

(** ** Dry runs are read-only *)

Lemma readOnly_ret {A} (a : A) : readOnly (ret a).
Proof. intros cl. by split. Qed.

Lemma readOnly_bind {A B} (m : Op A) (k : A → Op B) :
  readOnly m → (∀ a, readOnly (k a)) → readOnly (m ≫= k).
Proof.
  intros Hm Hk cl. rewrite bind_run.
  destruct (Hm cl) as [Hcl Ht]. destruct (m cl) as [[a cl1] t1]. cbn in Hcl, Ht. subst cl1.
  destruct (Hk a cl) as [Hcl' Ht']. destruct (k a cl) as [[b cl2] t2]. cbn in *.
  split; [done|]. by apply Forall_app.
Qed.

Lemma readOnly_builderInfos mapper resource namespace selector :
  readOnly (builderInfos mapper resource namespace selector).
Proof.
  intros cl. unfold builderInfos. case_bool_decide; cbn; by repeat constructor.
Qed.

Ltac readOnly_step :=
  first
    [ apply readOnly_ret
    | apply readOnly_builderInfos
    | apply readOnly_bind; [|intros ?]
    | match goal with
      | |- readOnly (match ?x with _ => _ end) => destruct x
      | |- readOnly (if ?b then _ else _) => destruct b
      | |- readOnly (let _ := _ in _) => cbv zeta
      end ].

Section dry_run.
Context (cic : ClusterInventoryClient) (Hdry : dryRun cic = true).

Lemma readOnly_applyInventoryObj (info : option Info) : readOnly (applyInventoryObj cic info).
Proof. unfold applyInventoryObj. rewrite Hdry. apply readOnly_ret. Qed.

Lemma readOnly_createInventoryObj (info : option Info) :
  readOnly (createInventoryObj cic info).
Proof. unfold createInventoryObj. rewrite Hdry. apply readOnly_ret. Qed.

Lemma readOnly_DeleteInventoryObj (info : option Info) :
  readOnly (DeleteInventoryObj cic info).
Proof. unfold DeleteInventoryObj. rewrite Hdry. apply readOnly_ret. Qed.

Lemma readOnly_deleteOthers (others : list Info) : readOnly (deleteOthers cic others).
Proof.
  induction others as [|o others IH]; cbn [deleteOthers]; [apply readOnly_ret|].
  apply readOnly_bind; [apply readOnly_DeleteInventoryObj|].
  intros [e|]; [apply readOnly_ret|done].
Qed.

Lemma readOnly_mergeClusterInventory (invInfos : list Info) :
  readOnly (mergeClusterInventory cic invInfos).
Proof.
  unfold mergeClusterInventory, Store.
  repeat first [ apply readOnly_applyInventoryObj | apply readOnly_deleteOthers
               | readOnly_step ].
Qed.

Lemma readOnly_getClusterInventoryInfo (localInv : option Info) :
  readOnly (getClusterInventoryInfo cic localInv).
Proof.
  unfold getClusterInventoryInfo.
  repeat first [ apply readOnly_mergeClusterInventory | readOnly_step ].
Qed.

Lemma readOnly_GetClusterObjs (localInv : option Info) :
  readOnly (GetClusterObjs cic localInv).
Proof.
  unfold GetClusterObjs.
  repeat first [ apply readOnly_getClusterInventoryInfo | readOnly_step ].
Qed.

Lemma readOnly_Merge (localInv : option Info) (objs : gset ObjMetadata) :
  readOnly (Merge cic localInv objs).
Proof.
  unfold Merge, Store.
  repeat first [ apply readOnly_getClusterInventoryInfo | apply readOnly_GetClusterObjs
               | apply readOnly_createInventoryObj | apply readOnly_applyInventoryObj
               | readOnly_step ].
Qed.

Lemma readOnly_Replace (localInv : option Info) (objs : gset ObjMetadata) :
  readOnly (Replace cic localInv objs).
Proof.
  unfold Replace, Store.
  repeat first [ apply readOnly_getClusterInventoryInfo | apply readOnly_GetClusterObjs
               | apply readOnly_applyInventoryObj | readOnly_step ].
Qed.
End dry_run.

Lemma SetDryRun_dryRun (cic : ClusterInventoryClient) : SetDryRun cic (dryRun cic) = cic.
Proof. by destruct cic. Qed.

(** ** Reading the stored set *)

(** C8, as stated, fails: with two anchors in the cluster and dry-run
    off, [GetClusterObjs] replaces the first anchor and deletes the
    second. *)
Lemma GetClusterObjs_writes_on_duplicates :
  (GetClusterObjs (exClient false) (Some exLocal) exClusterTwo).1.2 ≠ exClusterTwo ∧
  (GetClusterObjs (exClient false) (Some exLocal) exClusterTwo).2 =
    [lookupCall (exClient false) exLocal;
     (ReqReplace (exAnchorInfo exAnchor1 {[ exA; exB ]}), None);
     (ReqDelete exAnchor2, None)].
Proof. compute_done. Qed.

(** C8, amended: whenever dry-run is on, or the lookup finds at most
    one anchor candidate, [GetClusterObjs] leaves the cluster as it was
    and sends no create, replace or delete request; it returns the
    empty set when the lookup finds no anchor and what the anchor
    loads as when it finds exactly one. *)
Theorem GetClusterObjs_frame (cic : ClusterInventoryClient) (localInv : option Info)
    (cl : Cluster) :
  (dryRun cic = true ∨
   ∀ localInfo found, localInv = Some localInfo →
                      lookupAnchors cic localInfo cl = Some found → (length found ≤ 1)%nat) →
  (GetClusterObjs cic localInv cl).1.2 = cl ∧
  Forall (λ c, isWrite c = false) (GetClusterObjs cic localInv cl).2 ∧
  match localInv with
  | None => True
  | Some localInfo =>
      match lookupAnchors cic localInfo cl with
      | Some [] => (GetClusterObjs cic localInv cl).1.1 = (∅, None)
      | Some [a] => (GetClusterObjs cic localInv cl).1.1 = Load (WrapInventoryObj (Some a))
      | _ => True
      end
  end.
Proof.
  intros Hcase.
  assert (match localInv with
          | None => True
          | Some localInfo =>
              match lookupAnchors cic localInfo cl with
              | Some [] => (GetClusterObjs cic localInv cl).1.1 = (∅, None)
              | Some [a] =>
                  (GetClusterObjs cic localInv cl).1.1 = Load (WrapInventoryObj (Some a))
              | _ => True
              end
          end) as Hval.
  { destruct localInv as [localInfo|]; [|done].
    destruct (lookupAnchors cic localInfo cl) as [[|a [|b l]]|] eqn:Hl; [| |done..].
    - by rewrite (GetClusterObjs_none cic localInfo cl).
    - by rewrite (GetClusterObjs_one cic localInfo cl a). }
  destruct Hcase as [Hdry|Hone].
  { destruct (readOnly_GetClusterObjs cic Hdry localInv cl). done. }
  destruct localInv as [localInfo|]; [|done].
  destruct (lookupAnchors cic localInfo cl) as [found|] eqn:Hl.
  - specialize (Hone localInfo found eq_refl Hl).
    destruct found as [|a [|b l]]; [| |cbn in Hone; lia].
    + rewrite (GetClusterObjs_none cic localInfo cl) by done. cbn.
      split; [done|]. split; [by repeat constructor|done].
    + rewrite (GetClusterObjs_one cic localInfo cl a) by done. cbn.
      split; [done|]. split; [by repeat constructor|done].
  - destruct (getClusterInventoryInfo_unresolved cic localInfo cl Hl) as (e & t & Ht & Hrun).
    specialize (Hrun (dryRun cic)). rewrite SetDryRun_dryRun in Hrun.
    unfold GetClusterObjs. rewrite bind_run, Hrun. cbn. rewrite app_nil_r. done.
Qed.

(** C8, amended, on the cluster with one anchor storing [{a}]. *)
Lemma GetClusterObjs_frame_witness :
  (GetClusterObjs (exClient false) (Some exLocal) (exClusterOne {[ exA ]})).1.2
    = exClusterOne {[ exA ]} ∧
  Forall (λ c, isWrite c = false)
         (GetClusterObjs (exClient false) (Some exLocal) (exClusterOne {[ exA ]})).2 ∧
  match Some exLocal with
  | None => True
  | Some localInfo =>
      match lookupAnchors (exClient false) localInfo (exClusterOne {[ exA ]}) with
      | Some [] =>
          (GetClusterObjs (exClient false) (Some exLocal) (exClusterOne {[ exA ]})).1.1
            = (∅, None)
      | Some [a] =>
          (GetClusterObjs (exClient false) (Some exLocal) (exClusterOne {[ exA ]})).1.1
            = Load (WrapInventoryObj (Some a))
      | _ => True
      end
  end.
Proof.
  refine (GetClusterObjs_frame (exClient false) (Some exLocal) (exClusterOne {[ exA ]}) _).
  right. intros localInfo found [= <-] Hl.
  vm_compute in Hl. injection Hl as <-. cbn. lia.
Defined.

(** ** Merging the same set again *)

(** C5, as stated, fails in its second half: with [{a}] stored and
    [{b}] desired, the first [Merge] returns [{a}] and stores
    [{a, b}]; the second [Merge] of [{b}] returns [{a}] again and sends
    a further replace request. *)
Lemma Merge_twice_prunes_and_writes_again :
  (Merge (exClient false) (Some exLocal) {[ exB ]} (exClusterOne {[ exA ]})).1.1
    = ({[ exA ]}, None) ∧
  (Merge (exClient false) (Some exLocal) {[ exB ]}
     (Merge (exClient false) (Some exLocal) {[ exB ]} (exClusterOne {[ exA ]})).1.2).1.1
    = ({[ exA ]}, None) ∧
  (Merge (exClient false) (Some exLocal) {[ exB ]}
     (Merge (exClient false) (Some exLocal) {[ exB ]} (exClusterOne {[ exA ]})).1.2).2
    = [lookupCall (exClient false) exLocal; lookupCall (exClient false) exLocal;
       (ReqReplace (exAnchorInfo exAnchor1 {[ exA; exB ]}), None)].
Proof. compute_done. Qed.

(** C5, amended: when the lookup finds one anchor, storing [S], a
    [Merge] of [S] itself returns an empty prune set and sends nothing
    but the two lookups; and for a desired set [D] that contains [S],
    after a [Merge] of [D] that returned no error, a second [Merge] of
    [D] returns an empty prune set and sends nothing but the two
    lookups. *)
Theorem Merge_same_set_again (cic : ClusterInventoryClient) (localInfo : Info)
    (D S : gset ObjMetadata) (cl : Cluster) (a : Info) :
  lookupAnchors cic localInfo cl = Some [a] →
  Load (WrapInventoryObj (Some a)) = (S, None) →
  S ⊆ D →
  let lookup := lookupCall cic localInfo in
  Merge cic (Some localInfo) S cl = ((∅, None), cl, [lookup; lookup]) ∧
  match Merge cic (Some localInfo) D cl with
  | ((_, None), cl1, _) =>
      Merge cic (Some localInfo) D cl1 = ((∅, None), cl1, [lookup; lookup])
  | _ => True
  end.
Proof.
  intros Hl HS Hsub lookup. split.
  { rewrite (Merge_one cic localInfo S S cl a) by done.
    unfold SetEquals. by rewrite bool_decide_eq_true_2. }
  rewrite (Merge_one cic localInfo D S cl a) by done.
  unfold SetEquals. case_bool_decide as Heq.
  { subst D. rewrite (Merge_one cic localInfo S S cl a) by done.
    unfold SetEquals. by rewrite bool_decide_eq_true_2. }
  destruct (dryRun cic) eqn:Hdry.
  { rewrite (Merge_one cic localInfo D S cl a) by done.
    unfold SetEquals. rewrite bool_decide_eq_false_2, Hdry by done.
    by rewrite (subseteq_empty_difference_L S D). }
  destruct (helperReplace (withStored a (S ∪ D)) cl) as [[[e|] cl1] t] eqn:Hrep; [done|].
  apply helperReplace_success in Hrep as (-> & -> & _ & _).
  rewrite (Merge_one cic localInfo D (S ∪ D) _ (withStored a (S ∪ D))).
  - unfold SetEquals. rewrite bool_decide_eq_true_2; [done|].
    by rewrite (subseteq_union_1_L S D).
  - exact (lookupAnchors_after_replace cic localInfo cl a (S ∪ D) Hl).
  - apply Load_withStored.
Qed.

(** C5, amended, on the anchor storing [{a}], with [{a, b}] desired. *)
Lemma Merge_same_set_again_witness :
  let lookup := lookupCall (exClient false) exLocal in
  Merge (exClient false) (Some exLocal) {[ exA ]} (exClusterOne {[ exA ]})
    = ((∅, None), exClusterOne {[ exA ]}, [lookup; lookup]) ∧
  match Merge (exClient false) (Some exLocal) {[ exA; exB ]} (exClusterOne {[ exA ]}) with
  | ((_, None), cl1, _) =>
      Merge (exClient false) (Some exLocal) {[ exA; exB ]} cl1
        = ((∅, None), cl1, [lookup; lookup])
  | _ => True
  end.
Proof.
  refine (Merge_same_set_again (exClient false) exLocal {[ exA; exB ]} {[ exA ]}
            (exClusterOne {[ exA ]}) (exAnchorInfo exAnchor1 {[ exA ]}) _ _ _).
  - vm_compute. reflexivity.
  - compute_done.
  - compute_done.
Defined.

(** ** Duplicate resolution through the lookup *)

Section duplicates.
Context (cic : ClusterInventoryClient).

Lemma sortInfos_cons (found : list Info) :
  (0 < length found)%nat → ∃ retained others, sortInfos found = retained :: others.
Proof.
  intros Hlen. rewrite <-sortInfos_length in Hlen.
  destruct (sortInfos found) as [|r o]; [cbn in Hlen; lia|by eexists _, _].
Qed.

(** What a resolution that returned an anchor has done. *)
Lemma getClusterInventoryInfo_resolved (localInfo : Info) (cl cl' : Cluster)
    (found : list Info) (retained : Info) (others : list Info) (ri : option Info)
    (t : list Call) :
  dryRun cic = false →
  lookupAnchors cic localInfo cl = Some found →
  (1 < length found)%nat →
  sortInfos found = retained :: others →
  getClusterInventoryInfo cic (Some localInfo) cl = ((ri, None), cl', t) →
  ∃ U, loadAll (retained :: others) = (U, None) ∧
       ri = Some (withStored retained U) ∧
       cl' = {| objects := foldr delete
                  (<[InfoToObjMeta retained := infoObject (withStored retained U)]>
                     (objects cl))
                  (InfoToObjMeta <$> others);
                denied := denied cl |} ∧
       t = lookupCall cic localInfo :: (ReqReplace (withStored retained U), None)
             :: ((λ o, (ReqDelete (InfoToObjMeta o), None)) <$> others) ∧
       lookupAnchors cic localInfo cl' = Some [withStored retained U].
Proof.
  intros Hdry Hl Hlen Hs.
  rewrite (getClusterInventoryInfo_lookup cic localInfo cl found Hl).
  destruct found as [|a [|b l]]; [cbn in Hlen; lia..|].
  rewrite (mergeClusterInventory_live cic _ retained others _ Hdry Hs).
  destruct (loadAll (retained :: others)) as [U [e|]] eqn:Hload; [done|].
  destruct (helperReplace (withStored retained U) cl) as [[[e|] cl1] t1] eqn:Hrep; [done|].
  apply helperReplace_success in Hrep as (-> & -> & _ & _).
  destruct (deleteOthers cic others _) as [[[e|] cl2] t2] eqn:Hdel; [done|].
  apply deleteOthers_live_success in Hdel as [-> ->]; [|done].
  cbn. intros [= <- <- <-]. exists U. repeat split; [done..|].
  apply lookupAnchors_Some in Hl as (resource & label & Hm & Hlab & Hd & Hfound).
  apply lookupAnchors_Some. exists resource, label. repeat split; [done..|]. cbn.
  symmetry. change (InfoToObjMeta (withStored retained U)) with (InfoToObjMeta retained).
  apply listObjects_resolved. by rewrite <-Hfound.
Qed.

(** A resolution goes through when every candidate loads and the
    server accepts the replace and the deletes. *)
Lemma getClusterInventoryInfo_resolves (localInfo : Info) (cl : Cluster)
    (found : list Info) (retained : Info) (others : list Info) :
  dryRun cic = false →
  lookupAnchors cic localInfo cl = Some found →
  (1 < length found)%nat →
  sortInfos found = retained :: others →
  (∀ c, c ∈ found → (Load (WrapInventoryObj (Some c))).2 = None) →
  VUpdate ∉ denied cl →
  VDelete ∉ denied cl →
  clientFunc cic (RESTMapping cic (objGroupKind (InfoToObjMeta localInfo))).1 = None →
  ∃ ri cl' t, getClusterInventoryInfo cic (Some localInfo) cl = ((Some ri, None), cl', t).
Proof.
  intros Hdry Hl Hlen Hs Hloads Hupd Hdel Hclient.
  pose proof (sortInfos_Permutation found) as Hp. rewrite Hs in Hp.
  rewrite (getClusterInventoryInfo_lookup cic localInfo cl found Hl).
  assert (∀ c, c ∈ retained :: others →
               objects cl !! InfoToObjMeta c = Some (infoObject c) ∧
               mapper cic (objGroupKind (InfoToObjMeta c)) =
                 mapper cic (objGroupKind (InfoToObjMeta localInfo))) as Hin.
  { intros c Hc. apply (lookupAnchors_elem cic localInfo cl found c Hl). by rewrite <-Hp. }
  assert (distinctInfos (retained :: others)) as Hnd.
  { apply lookupAnchors_Some in Hl as (resource & label & _ & _ & _ & ->).
    unfold distinctInfos. rewrite Hp. apply listObjects_distinct. }
  unfold distinctInfos in Hnd. rewrite fmap_cons in Hnd.
  apply NoDup_cons in Hnd as [Hr Hnd].
  destruct found as [|a [|b l]]; [cbn in Hlen; lia..|].
  rewrite (mergeClusterInventory_live cic _ retained others _ Hdry Hs).
  destruct (loadAll (retained :: others)) as [U [e|]] eqn:Hload.
  { apply loadAll_error in Hload as [_ (c & Hc & He)].
    rewrite Hloads in He; [done|]. by rewrite <-Hp. }
  rewrite helperReplace_ok; [|done|].
  2:{ destruct (Hin retained) as [Hre _]; [apply elem_of_cons; by left|].
      exists (infoObject retained). exact Hre. }
  apply lookupAnchors_Some in Hl as (resource & label & Hm & _).
  unfold RESTMapping in Hclient. rewrite Hm in Hclient. cbn in Hclient.
  rewrite (deleteOthers_live_ok cic others resource); [by eexists _, _, _|done..| ].
  intros o Ho. destruct (Hin o) as [Hoin Hom]; [apply elem_of_cons; by right|].
  split; [by rewrite Hom|]. cbn [objects].
  rewrite lookup_insert_ne; [by rewrite Hoin|].
  intros Heq. apply Hr.
  change (InfoToObjMeta (withStored retained U)) with (InfoToObjMeta retained) in Heq.
  rewrite Heq. by apply list_elem_of_fmap_2.
Qed.
End duplicates.

(** With dry-run on, a lookup that finds duplicates returns the
    retained candidate holding the union, and so does the next one. *)
Lemma getClusterInventoryInfo_dry_duplicates (cic : ClusterInventoryClient)
    (localInfo : Info) (cl : Cluster) (found : list Info) (retained : Info)
    (others : list Info) (U : gset ObjMetadata) :
  dryRun cic = true →
  lookupAnchors cic localInfo cl = Some found →
  (1 < length found)%nat →
  sortInfos found = retained :: others →
  loadAll (retained :: others) = (U, None) →
  getClusterInventoryInfo cic (Some localInfo) cl =
    ((Some (withStored retained U), None), cl, [lookupCall cic localInfo]).
Proof.
  intros Hdry Hl Hlen Hs Hload.
  rewrite (getClusterInventoryInfo_lookup cic localInfo cl found Hl).
  destruct found as [|a [|b l]]; [cbn in Hlen; lia..|].
  rewrite (mergeClusterInventory_dry cic _ retained others _ Hdry Hs), Hload. done.
Qed.

(** In either mode, a lookup that finds duplicates of which one does
    not load returns the load error, having changed nothing. *)
Lemma getClusterInventoryInfo_duplicates_load_error (cic : ClusterInventoryClient)
    (localInfo : Info) (cl : Cluster) (found : list Info) (retained : Info)
    (others : list Info) (U : gset ObjMetadata) (e : Error) :
  lookupAnchors cic localInfo cl = Some found →
  (1 < length found)%nat →
  sortInfos found = retained :: others →
  loadAll (retained :: others) = (U, Some e) →
  getClusterInventoryInfo cic (Some localInfo) cl =
    ((None, Some e), cl, [lookupCall cic localInfo]).
Proof.
  intros Hl Hlen Hs Hload.
  rewrite (getClusterInventoryInfo_lookup cic localInfo cl found Hl).
  destruct found as [|a [|b l]]; [cbn in Hlen; lia..|].
  destruct (dryRun cic) eqn:Hdry.
  - rewrite (mergeClusterInventory_dry cic _ retained others _ Hdry Hs), Hload. done.
  - rewrite (mergeClusterInventory_live cic _ retained others _ Hdry Hs), Hload. done.
Qed.

(** When every candidate loads, so does the list of them. *)
Lemma loadAll_all_load (invInfos : list Info) :
  (∀ c, c ∈ invInfos → (Load (WrapInventoryObj (Some c))).2 = None) →
  ∃ U, loadAll invInfos = (U, None).
Proof.
  intros Hloads. destruct (loadAll invInfos) as [U [e|]] eqn:Hload; [|by eexists].
  apply loadAll_error in Hload as [_ (c & Hc & He)]. by rewrite Hloads in He.
Qed.

(** C3, as stated, fails: with dry-run on, a lookup that returns two
    candidates resolves to an anchor holding the union, but nothing is
    stored and nothing is deleted; the cluster still has both. *)
Lemma getClusterInventoryInfo_dry_run_keeps_duplicates :
  getClusterInventoryInfo (exClient true) (Some exLocal) exClusterTwo =
    ((Some (exAnchorInfo exAnchor1 {[ exA; exB ]}), None), exClusterTwo,
     [lookupCall (exClient true) exLocal]) ∧
  lookupAnchors (exClient true) exLocal exClusterTwo =
    Some [exAnchorInfo exAnchor1 {[ exA ]}; exAnchorInfo exAnchor2 {[ exB ]}].
Proof. compute_done. Qed.

(** C3, amended: when the lookup returns more than one candidate and
    every candidate loads, the candidates are sorted (the result is the
    same for every order the lookup could list them in), the first is
    retained, and the union of the stored sets of all candidates is
    taken.  With dry-run on, the retained candidate holding the union
    is returned and nothing is written: only the list request is sent
    and the cluster is unchanged.  With dry-run off, when the server
    accepts the replace and the deletes, the union is stored into the
    retained candidate, every other candidate is deleted from the
    cluster and nothing else is touched, and the retained candidate
    with the union is returned; a further lookup then finds it alone,
    returns it and changes nothing. *)
Theorem duplicate_resolution (cic : ClusterInventoryClient) (localInfo : Info)
    (cl : Cluster) (found : list Info) :
  lookupAnchors cic localInfo cl = Some found →
  (1 < length found)%nat →
  (∀ c, c ∈ found → (Load (WrapInventoryObj (Some c))).2 = None) →
  dryRun cic = true ∨
    ((VUpdate ∉ denied cl) ∧ (VDelete ∉ denied cl) ∧
     clientFunc cic (RESTMapping cic (objGroupKind (InfoToObjMeta localInfo))).1 = None) →
  ∃ retained others U,
    (* ordered, whatever the order of the listing *)
    sortInfos found = retained :: others ∧
    StronglySorted infoLe (retained :: others) ∧
    retained :: others ≡ₚ found ∧
    (∀ found', found' ≡ₚ found → sortInfos found' = retained :: others) ∧
    (* the union of the stored sets *)
    (∀ x, x ∈ U ↔ ∃ c, c ∈ found ∧ x ∈ (Load (WrapInventoryObj (Some c))).1) ∧
    if dryRun cic then
      (* the dry run: the union is returned, nothing is written *)
      getClusterInventoryInfo cic (Some localInfo) cl =
        ((Some (withStored retained U), None), cl, [lookupCall cic localInfo])
    else
      ∃ cl',
        (* the run: replace the retained one, then delete the others *)
        getClusterInventoryInfo cic (Some localInfo) cl =
          ((Some (withStored retained U), None), cl',
           lookupCall cic localInfo :: (ReqReplace (withStored retained U), None)
             :: ((λ o, (ReqDelete (InfoToObjMeta o), None)) <$> others)) ∧
        (* the cluster afterwards *)
        objects cl' !! InfoToObjMeta retained = Some (infoObject (withStored retained U)) ∧
        (∀ o, o ∈ others → objects cl' !! InfoToObjMeta o = None) ∧
        (∀ k, k ∉ InfoToObjMeta <$> found → objects cl' !! k = objects cl !! k) ∧
        denied cl' = denied cl ∧
        (* running it again *)
        lookupAnchors cic localInfo cl' = Some [withStored retained U] ∧
        getClusterInventoryInfo cic (Some localInfo) cl' =
          ((Some (withStored retained U), None), cl', [lookupCall cic localInfo]).
Proof.
  intros Hl Hlen Hloads Hmode.
  destruct (sortInfos_cons found) as (retained & others & Hs); [lia|].
  pose proof (sortInfos_Permutation found) as Hp. rewrite Hs in Hp.
  destruct (loadAll_all_load (retained :: others)) as [U Hload].
  { intros c Hc. apply Hloads. by rewrite <-Hp. }
  assert (distinctInfos found) as Hnd.
  { apply lookupAnchors_Some in Hl as (resource & label & _ & _ & _ & ->).
    apply listObjects_distinct. }
  assert (distinctInfos (retained :: others)) as Hnd'.
  { unfold distinctInfos in *. by rewrite Hp. }
  unfold distinctInfos in Hnd'. rewrite fmap_cons in Hnd'.
  apply NoDup_cons in Hnd' as [Hr Hnd'].
  exists retained, others, U.
  split; [done|]. split; [rewrite <-Hs; apply sortInfos_Sorted|]. split; [done|].
  split.
  { intros found' Hp'. rewrite <-Hs. apply sortInfos_permutation_invariant.
    - unfold distinctInfos in *. by rewrite Hp'.
    - done. }
  split.
  { apply loadAll_ok in Hload as [_ HU]. intros x. rewrite HU. by setoid_rewrite Hp. }
  destruct (dryRun cic) eqn:Hdry.
  { by apply (getClusterInventoryInfo_dry_duplicates cic localInfo cl found retained others). }
  destruct Hmode as [?|(Hupd & Hdel & Hclient)]; [done|].
  destruct (getClusterInventoryInfo_resolves cic localInfo cl found retained others)
    as (ri & cl' & t & Hrun); [done..|].
  destruct (getClusterInventoryInfo_resolved cic localInfo cl cl' found retained others
              (Some ri) t) as (U' & Hload' & Hri & Hcl' & Ht & Hl'); [done..|].
  assert (U' = U) as -> by congruence.
  exists cl'.
  split; [by rewrite Hrun, Ht; simplify_eq|].
  subst cl'. cbn [objects denied].
  split.
  { apply lookup_foldr_delete_Some. split; [done|]. by rewrite lookup_insert_eq. }
  split.
  { intros o Ho. apply lookup_foldr_delete. by apply list_elem_of_fmap_2. }
  split.
  { intros k Hk. rewrite <-Hp, fmap_cons, not_elem_of_cons in Hk. destruct Hk as [Hk1 Hk2].
    rewrite lookup_foldr_delete_not_elem_of by done. by rewrite lookup_insert_ne. }
  split; [done|]. split; [done|].
  by rewrite (getClusterInventoryInfo_lookup cic localInfo _ _ Hl').
Qed.

(** C3, amended, on the cluster with two anchors storing [{a}] and
    [{b}], with dry-run off. *)
Lemma duplicate_resolution_witness :
  ∃ retained others U,
    sortInfos [exAnchorInfo exAnchor1 {[ exA ]}; exAnchorInfo exAnchor2 {[ exB ]}]
      = retained :: others ∧
    StronglySorted infoLe (retained :: others) ∧
    retained :: others
      ≡ₚ [exAnchorInfo exAnchor1 {[ exA ]}; exAnchorInfo exAnchor2 {[ exB ]}] ∧
    (∀ found',
       found' ≡ₚ [exAnchorInfo exAnchor1 {[ exA ]}; exAnchorInfo exAnchor2 {[ exB ]}] →
       sortInfos found' = retained :: others) ∧
    (∀ x, x ∈ U ↔
          ∃ c, c ∈ [exAnchorInfo exAnchor1 {[ exA ]}; exAnchorInfo exAnchor2 {[ exB ]}] ∧
               x ∈ (Load (WrapInventoryObj (Some c))).1) ∧
    ∃ cl',
      getClusterInventoryInfo (exClient false) (Some exLocal) exClusterTwo =
        ((Some (withStored retained U), None), cl',
         lookupCall (exClient false) exLocal :: (ReqReplace (withStored retained U), None)
           :: ((λ o, (ReqDelete (InfoToObjMeta o), None)) <$> others)) ∧
      objects cl' !! InfoToObjMeta retained = Some (infoObject (withStored retained U)) ∧
      (∀ o, o ∈ others → objects cl' !! InfoToObjMeta o = None) ∧
      (∀ k, k ∉ InfoToObjMeta <$>
                  [exAnchorInfo exAnchor1 {[ exA ]}; exAnchorInfo exAnchor2 {[ exB ]}] →
            objects cl' !! k = objects exClusterTwo !! k) ∧
      denied cl' = denied exClusterTwo ∧
      lookupAnchors (exClient false) exLocal cl' = Some [withStored retained U] ∧
      getClusterInventoryInfo (exClient false) (Some exLocal) cl' =
        ((Some (withStored retained U), None), cl', [lookupCall (exClient false) exLocal]).
Proof.
  refine (duplicate_resolution (exClient false) exLocal exClusterTwo
            [exAnchorInfo exAnchor1 {[ exA ]}; exAnchorInfo exAnchor2 {[ exB ]}]
            _ _ _ _).
  - vm_compute. reflexivity.
  - cbn. lia.
  - intros c Hc. apply elem_of_cons in Hc as [->|Hc]; [by vm_compute|].
    apply list_elem_of_singleton in Hc as ->. by vm_compute.
  - right. split; [apply not_elem_of_nil|]. split; [apply not_elem_of_nil|reflexivity].
Defined.

(** The example of the spec: two anchors storing [{a}] and [{b}]; one
    anchor is left, storing [{a, b}], and a further lookup returns it
    without a write. *)
Example duplicate_resolution_example :
  (getClusterInventoryInfo (exClient false) (Some exLocal) exClusterTwo).1 =
    ((Some (exAnchorInfo exAnchor1 {[ exA; exB ]}), None),
     exClusterOne {[ exA; exB ]}) ∧
  getClusterInventoryInfo (exClient false) (Some exLocal) (exClusterOne {[ exA; exB ]}) =
    ((Some (exAnchorInfo exAnchor1 {[ exA; exB ]}), None),
     exClusterOne {[ exA; exB ]}, [lookupCall (exClient false) exLocal]).
Proof. compute_done. Qed.

(** ** Dry run against live run *)

Section merge_runs.
Context (cic : ClusterInventoryClient).

Lemma Merge_lookup_error (localInv : option Info) (D : gset ObjMetadata)
    (cl cl1 : Cluster) (ci : option Info) (e : Error) (t1 : list Call) :
  getClusterInventoryInfo cic localInv cl = ((ci, Some e), cl1, t1) →
  Merge cic localInv D cl = ((∅, Some e), cl1, t1).
Proof.
  intros Hg. unfold Merge. rewrite bind_run, Hg. cbn. by rewrite app_nil_r.
Qed.

Lemma Merge_load_error (localInv : option Info) (D U : gset ObjMetadata)
    (cl cl1 cl2 : Cluster) (ci : Info) (e : Error) (t1 t2 : list Call) :
  getClusterInventoryInfo cic localInv cl = ((Some ci, None), cl1, t1) →
  GetClusterObjs cic localInv cl1 = ((U, Some e), cl2, t2) →
  Merge cic localInv D cl = ((∅, Some e), cl2, t1 ++ t2).
Proof.
  intros Hg Ho. unfold Merge. rewrite bind_run, Hg.
  cbn -[GetClusterObjs]. rewrite bind_run, Ho. cbn. by rewrite app_nil_r.
Qed.

Lemma Merge_loaded (localInv : option Info) (D U : gset ObjMetadata)
    (cl cl1 cl2 : Cluster) (ci : Info) (t1 t2 : list Call) :
  getClusterInventoryInfo cic localInv cl = ((Some ci, None), cl1, t1) →
  GetClusterObjs cic localInv cl1 = ((U, None), cl2, t2) →
  Merge cic localInv D cl =
  if SetEquals D U then ((∅, None), cl2, t1 ++ t2)
  else if dryRun cic then ((U ∖ D, None), cl2, t1 ++ t2)
  else
    let '(e, cl3, t3) := helperReplace (withStored ci (U ∪ D)) cl2 in
    ((U ∖ D, e), cl3, t1 ++ t2 ++ t3).
Proof.
  intros Hg Ho. unfold Merge. rewrite bind_run, Hg.
  cbn -[GetClusterObjs applyInventoryObj]. rewrite bind_run, Ho.
  destruct (SetEquals D U); [cbn; by rewrite app_nil_r|].
  cbn -[applyInventoryObj]. unfold SetDiff, Union.
  destruct (dryRun cic) eqn:Hdry; [cbn; by rewrite app_nil_r|].
  cbn -[applyInventoryObj]. rewrite bind_run, applyInventoryObj_live by done.
  fold (withStored ci (U ∪ D)).
  destruct (helperReplace (withStored ci (U ∪ D)) cl2) as [[[e|] cl3] t3]; cbn;
    by rewrite app_nil_r.
Qed.
End merge_runs.

(** C2, as stated, fails: on a server that rejects updates, the live
    [Merge] returns the server's error and the dry run returns
    success. *)
Lemma Merge_dry_run_hides_write_error :
  (Merge (exClient false) (Some exLocal) {[ exB ]} exClusterReadOnly).1.1
    = ({[ exA ]}, Some (ErrForbidden VUpdate)) ∧
  (Merge (exClient true) (Some exLocal) {[ exB ]} exClusterReadOnly).1.1
    = ({[ exA ]}, None).
Proof. compute_done. Qed.

(** C2, amended: for every starting cluster and desired set, the dry
    run of [Merge] leaves the cluster as it was and sends no create,
    replace or delete request.  Whenever the run with dry-run off
    returns no error, the dry run returns the same prune set, also
    without an error.  Whenever the dry run returns an error, the run
    with dry-run off is the same run: the same error, the same prune
    set, the same requests and the same cluster afterwards.  So the
    outcomes differ only when the run with dry-run off returns an error
    and the dry run none; the prune sets are then still the same when
    the lookup found at most one anchor, and over duplicates the prune
    set of the run with dry-run off is the same or empty. *)
Theorem Merge_dry_run_equivalence (cic : ClusterInventoryClient) (localInv : option Info)
    (D : gset ObjMetadata) (cl : Cluster) :
  let live := Merge (SetDryRun cic false) localInv D cl in
  let dry := Merge (SetDryRun cic true) localInv D cl in
  dry.1.2 = cl ∧
  Forall (λ c, isWrite c = false) dry.2 ∧
  match live.1.1.2, dry.1.1.2 with
  | None, _ => dry.1.1 = live.1.1
  | Some _, Some _ => live = dry
  | Some _, None =>
      match localInv with
      | None => live.1.1.1 = dry.1.1.1
      | Some localInfo =>
          match lookupAnchors cic localInfo cl with
          | Some (_ :: _ :: _) => live.1.1.1 = dry.1.1.1 ∨ live.1.1.1 = ∅
          | _ => live.1.1.1 = dry.1.1.1
          end
      end
  end.
Proof.
  intros live dry.
  destruct (readOnly_Merge (SetDryRun cic true) eq_refl localInv D cl) as [Hcl Ht].
  split; [done|]. split; [done|]. clear Hcl Ht. subst live dry.
  set (cicL := SetDryRun cic false). set (cicD := SetDryRun cic true).
  destruct localInv as [localInfo|]; [|done].
  destruct (lookupAnchors cic localInfo cl) as [found|] eqn:Hl.
  2:{ destruct (getClusterInventoryInfo_unresolved cic localInfo cl Hl)
        as (e & t & _ & Hrun).
      rewrite (Merge_lookup_error cicL _ D cl cl None e t (Hrun false)).
      by rewrite (Merge_lookup_error cicD _ D cl cl None e t (Hrun true)). }
  assert (lookupAnchors cicL localInfo cl = Some found) as HlL by exact Hl.
  assert (lookupAnchors cicD localInfo cl = Some found) as HlD by exact Hl.
  destruct found as [|a [|b l]].
  - (* no anchor *)
    rewrite (Merge_none cicL localInfo D cl HlL), (Merge_none cicD localInfo D cl HlD).
    rewrite (createInventoryObj_dry cicD) by done.
    by destruct (createInventoryObj cicL _ cl) as [[[e|] cl1] t].
  - (* one anchor *)
    destruct (Load (WrapInventoryObj (Some a))) as [S [e|]] eqn:HS.
    { rewrite (Merge_load_error cicL (Some localInfo) D S cl cl cl a e
                 [lookupCall cicL localInfo] [lookupCall cicL localInfo]).
      2:{ rewrite (getClusterInventoryInfo_lookup cicL localInfo cl [a]);
            [reflexivity|exact HlL]. }
      2:{ rewrite (GetClusterObjs_one cicL localInfo cl a) by exact HlL. by rewrite HS. }
      rewrite (Merge_load_error cicD (Some localInfo) D S cl cl cl a e
                 [lookupCall cicD localInfo] [lookupCall cicD localInfo]); [done| |].
      - rewrite (getClusterInventoryInfo_lookup cicD localInfo cl [a]);
          [reflexivity|exact HlD].
      - rewrite (GetClusterObjs_one cicD localInfo cl a) by exact HlD. by rewrite HS. }
    rewrite (Merge_one cicL localInfo D S cl a HlL HS).
    rewrite (Merge_one cicD localInfo D S cl a HlD HS).
    destruct (SetEquals D S); [done|]. cbn [dryRun cicL cicD SetDryRun].
    by destruct (helperReplace (withStored a (S ∪ D)) cl) as [[[e|] cl1] t].
  - (* duplicates *)
    destruct (sortInfos_cons (a :: b :: l)) as (retained & others & Hs); [cbn; lia|].
    destruct (loadAll (retained :: others)) as [U [e|]] eqn:Hload.
    { (* a candidate does not load: the same error in both modes *)
      rewrite (Merge_lookup_error cicL _ D cl cl None e [lookupCall cicL localInfo]).
      2:{ apply (getClusterInventoryInfo_duplicates_load_error cicL localInfo cl
                   (a :: b :: l) retained others U); [done|cbn; lia|done|done]. }
      rewrite (Merge_lookup_error cicD _ D cl cl None e [lookupCall cicD localInfo]);
        [done|].
      apply (getClusterInventoryInfo_duplicates_load_error cicD localInfo cl
               (a :: b :: l) retained others U); [done|cbn; lia|done|done]. }
    assert (getClusterInventoryInfo cicD (Some localInfo) cl =
              ((Some (withStored retained U), None), cl, [lookupCall cicD localInfo]))
      as HgD.
    { apply (getClusterInventoryInfo_dry_duplicates cicD localInfo cl (a :: b :: l)
               retained others U); [done|done|cbn; lia|done|done]. }
    rewrite (Merge_loaded cicD (Some localInfo) D U cl cl cl (withStored retained U)
               [lookupCall cicD localInfo] [lookupCall cicD localInfo] HgD).
    2:{ unfold GetClusterObjs. rewrite bind_run, HgD. cbn -[Load].
        by rewrite Load_withStored. }
    destruct (getClusterInventoryInfo cicL (Some localInfo) cl)
      as [[[ri [e|]] cl1] t1] eqn:HgL.
    { (* the resolution fails: the live prune set is empty *)
      rewrite (Merge_lookup_error cicL _ D cl cl1 ri e t1 HgL).
      destruct (SetEquals D U); cbn; auto. }
    destruct (getClusterInventoryInfo_resolved cicL localInfo cl cl1 (a :: b :: l)
                retained others ri t1) as (U' & Hload' & -> & Hcl1 & Ht1 & Hl1);
      [done|done|cbn; lia|done|done|].
    assert (U' = U) as -> by congruence.
    rewrite (Merge_loaded cicL (Some localInfo) D U cl cl1 cl1 (withStored retained U)
               t1 [lookupCall cicL localInfo] HgL).
    2:{ rewrite (GetClusterObjs_one cicL localInfo cl1 _ Hl1). by rewrite Load_withStored. }
    destruct (SetEquals D U); [done|]. cbn [dryRun cicL cicD SetDryRun].
    destruct (helperReplace (withStored (withStored retained U) (U ∪ D)) cl1)
      as [[[e|] cl3] t3]; cbn; auto.
Qed.

(** The example of the spec, in both modes: stored [{a, b, c}], desired
    [{b, c, d}]; both runs return [{a}], and only the live run changes
    the cluster. *)
Example Merge_dry_run_example :
  (Merge (exClient true) (Some exLocal) {[ exB; exC; exD ]}
         (exClusterOne {[ exA; exB; exC ]})).1
    = (({[ exA ]}, None), exClusterOne {[ exA; exB; exC ]}) ∧
  (Merge (exClient false) (Some exLocal) {[ exB; exC; exD ]}
         (exClusterOne {[ exA; exB; exC ]})).1
    = (({[ exA ]}, None), exClusterOne {[ exA; exB; exC; exD ]}).
Proof. compute_done. Qed.

(** Over duplicates the prune sets can differ: on a server that
    rejects updates the resolution of the live run fails, and its
    prune set is empty, while the dry run, which computes the union
    [{a, b}], returns [{a}] for the desired set [{b}]. *)
Example Merge_dry_run_failed_resolution :
  let cl := mkCluster (objects exClusterTwo) [VUpdate] in
  (Merge (exClient false) (Some exLocal) {[ exB ]} cl).1.1
    = (∅, Some (ErrForbidden VUpdate)) ∧
  (Merge (exClient true) (Some exLocal) {[ exB ]} cl).1.1 = ({[ exA ]}, None).
Proof. cbv zeta. compute_done. Qed.

(** ** The inventory-deletion task *)

Lemma filter_none {A} (P : A → Prop) `{!∀ x, Decision (P x)} (l : list A) :
  (∀ x, x ∈ l → ¬ P x) → filter P l = [].
Proof.
  induction l as [|x l IH]; intros Hall; [done|].
  rewrite filter_cons_False.
  - apply IH. intros y Hy. apply Hall. apply elem_of_cons. by right.
  - apply Hall. apply elem_of_cons. by left.
Qed.

Lemma deliveries_go (g : Goroutine) (rt : Runtime) :
  deliveriesKnown rt → deliveries (fresh (dom (goroutines rt))) (go g rt) = [].
Proof.
  intros Hknown. unfold deliveries. cbn. apply filter_none. intros d Hd Heq.
  apply Hknown in Hd. apply elem_of_dom in Hd. rewrite Heq in Hd.
  by apply is_fresh in Hd.
Qed.

(** A step of another goroutine, or a further goroutine being started,
    leaves the goroutine and its deliveries as they are. *)
Lemma runGoroutine_other (gid gid' : nat) (rt : Runtime) :
  gid' ≠ gid →
  goroutines (runGoroutine gid' rt) !! gid = goroutines rt !! gid ∧
  deliveries gid (runGoroutine gid' rt) = deliveries gid rt.
Proof.
  intros Hne. unfold runGoroutine, deliveries.
  destruct (goroutines rt !! gid') as [[call rest|result rest| |]|]; [| |done..].
  - destruct (call (rtCluster rt)) as [[err cl'] t]. cbn.
    by rewrite lookup_insert_ne.
  - cbn. rewrite lookup_insert_ne by done. split; [done|].
    rewrite filter_app, filter_cons_False, filter_nil, app_nil_r; done.
Qed.

Lemma go_other (gid : nat) (g : Goroutine) (rt : Runtime) :
  is_Some (goroutines rt !! gid) →
  goroutines (go g rt) !! gid = goroutines rt !! gid ∧
  deliveries gid (go g rt) = deliveries gid rt.
Proof.
  intros Hin. split; [|done]. cbn. rewrite lookup_insert_ne; [done|].
  intros Heq. apply elem_of_dom in Hin. rewrite <-Heq in Hin.
  by apply is_fresh in Hin.
Qed.

Lemma stepsOf_cons (gid : nat) (c : Choice) (cs : list Choice) :
  stepsOf gid (c :: cs) = stepsOf gid [c] + stepsOf gid cs.
Proof. destruct c; cbn; lia. Qed.

(** Nothing runs after a panic. *)
Lemma stepChoice_panicked (c : Choice) (rt : Runtime) :
  rtPanicked rt = true → stepChoice c rt = rt.
Proof. intros Hp. unfold stepChoice. by rewrite Hp. Qed.

Lemma schedule_panicked (cs : list Choice) (rt : Runtime) :
  rtPanicked rt = true → schedule cs rt = rt.
Proof.
  induction cs as [|c cs IH]; intros Hp; [done|].
  cbn [schedule]. rewrite stepChoice_panicked by done. by apply IH.
Qed.

Lemma stepChoice_running (c : Choice) (rt : Runtime) :
  rtPanicked rt = false →
  stepChoice c rt = match c with Run gid => runGoroutine gid rt | Spawn g => go g rt end.
Proof. intros Hp. unfold stepChoice. by rewrite Hp. Qed.

Section start.
Context (call : Op (option Error)).

Lemma startPhase_known (gid n : nat) (rt : Runtime) :
  startPhase call gid n rt → is_Some (goroutines rt !! gid).
Proof.
  destruct n as [|[|n]]; cbn.
  - intros [-> _]. by eexists.
  - intros (cl0 & -> & _). by eexists.
  - intros (cl0 & -> & _). by eexists.
Qed.

Lemma startPhase_transfer (gid n : nat) (rt rt' : Runtime) :
  goroutines rt' !! gid = goroutines rt !! gid →
  deliveries gid rt' = deliveries gid rt →
  startPhase call gid n rt → startPhase call gid n rt'.
Proof.
  intros Hg Hd. destruct n as [|[|n]]; cbn; rewrite Hg, Hd; done.
Qed.

Lemma startPhase_own_step (gid n : nat) (rt : Runtime) :
  startPhase call gid n rt → startPhase call gid (S n) (runGoroutine gid rt).
Proof.
  destruct n as [|[|n]]; cbn.
  - intros [Hg Hd]. exists (rtCluster rt). unfold runGoroutine, deliveries in *.
    rewrite Hg. cbn.
    destruct (call (rtCluster rt)) as [[err cl'] t]. cbn.
    by rewrite lookup_insert_eq.
  - intros (cl0 & Hg & Hd). exists cl0. unfold runGoroutine, deliveries in *.
    rewrite Hg. cbn. rewrite lookup_insert_eq. split; [done|].
    by rewrite filter_app, Hd, filter_cons_True, filter_nil.
  - intros (cl0 & Hg & Hd). exists cl0. unfold runGoroutine. by rewrite Hg.
Qed.

Lemma startPhase_step (gid n : nat) (c : Choice) (rt : Runtime) :
  rtPanicked rt = false →
  startPhase call gid n rt →
  startPhase call gid (stepsOf gid [c] + n) (stepChoice c rt).
Proof.
  intros Hrun Hp. rewrite stepChoice_running by done.
  destruct c as [gid'|g]; cbn [stepsOf].
  - case_bool_decide as Heq.
    + subst gid'. by apply startPhase_own_step.
    + destruct (runGoroutine_other gid gid' rt Heq) as [Hg Hd].
      by apply (startPhase_transfer gid n rt).
  - destruct (go_other gid g rt) as [Hg Hd]; [by eapply startPhase_known|].
    by apply (startPhase_transfer gid n rt).
Qed.

(** While the program has not panicked, the goroutine is as far as the
    steps it was given. *)
Lemma startPhase_schedule (gid n : nat) (cs : list Choice) (rt : Runtime) :
  startPhase call gid n rt →
  rtPanicked (schedule cs rt) = false →
  startPhase call gid (stepsOf gid cs + n) (schedule cs rt).
Proof.
  revert n rt. induction cs as [|c cs IH]; intros n rt Hp Hrun; [done|].
  destruct (rtPanicked rt) eqn:Hrt.
  { rewrite schedule_panicked in Hrun by done. congruence. }
  cbn [schedule] in *. rewrite stepsOf_cons.
  replace (stepsOf gid [c] + stepsOf gid cs + n)
    with (stepsOf gid cs + (stepsOf gid [c] + n)) by lia.
  apply IH; [|done]. by apply startPhase_step.
Qed.

(** Whatever happens, the goroutine is in one of its phases. *)
Lemma startPhase_schedule_any (gid n : nat) (cs : list Choice) (rt : Runtime) :
  startPhase call gid n rt → ∃ m, startPhase call gid m (schedule cs rt).
Proof.
  revert n rt. induction cs as [|c cs IH]; intros n rt Hp; [by exists n|].
  cbn [schedule]. destruct (rtPanicked rt) eqn:Hrt.
  - rewrite stepChoice_panicked by done. by eapply IH.
  - eapply IH. by apply startPhase_step.
Qed.

Lemma startPhase_deliveries (gid n : nat) (rt : Runtime) :
  startPhase call gid n rt →
  deliveries gid rt = [] ∨
  ∃ cl0, deliveries gid rt = [(gid, {| Err := (call cl0).1.1 |})].
Proof.
  destruct n as [|[|n]]; cbn.
  - intros [_ ->]. by left.
  - intros (cl0 & _ & ->). by left.
  - intros (cl0 & _ & ->). right. by exists cl0.
Qed.
End start.

Lemma panicPhase_known (gid : nat) (late : bool) (rt : Runtime) :
  panicPhase gid late rt → is_Some (goroutines rt !! gid).
Proof. intros [_ Hg]. destruct late; [destruct Hg as [call ->]|rewrite Hg]; by eexists. Qed.

Lemma panicPhase_transfer (gid : nat) (late : bool) (rt rt' : Runtime) :
  goroutines rt' !! gid = goroutines rt !! gid →
  deliveries gid rt' = deliveries gid rt →
  panicPhase gid late rt → panicPhase gid late rt'.
Proof. intros Hg Hd. unfold panicPhase. by rewrite Hg, Hd. Qed.

(** The step of a goroutine that is about to panic: the panic, or the
    call after which it panics. *)
Lemma panicPhase_own_step (gid : nat) (late : bool) (rt : Runtime) :
  panicPhase gid late rt →
  panicPhase gid false (runGoroutine gid rt) ∧
  (if late then True else rtPanicked (runGoroutine gid rt) = true).
Proof.
  intros [Hd Hg]. destruct late.
  - destruct Hg as [call Hg]. split; [|done]. unfold panicPhase, runGoroutine, deliveries in *.
    rewrite Hg. destruct (call (rtCluster rt)) as [[err cl'] t]. cbn.
    by rewrite lookup_insert_eq.
  - unfold panicPhase, runGoroutine, deliveries in *. rewrite Hg. by cbn.
Qed.

Lemma panicPhase_other_step (gid : nat) (late : bool) (c : Choice) (rt : Runtime) :
  stepsOf gid [c] = 0 →
  panicPhase gid late rt → panicPhase gid late (stepChoice c rt).
Proof.
  intros Hc Hp. destruct (rtPanicked rt) eqn:Hrt.
  { by rewrite stepChoice_panicked. }
  rewrite stepChoice_running by done. destruct c as [gid'|g]; cbn [stepsOf] in Hc.
  - case_bool_decide as Heq; [lia|].
    destruct (runGoroutine_other gid gid' rt Heq) as [Hg Hd].
    by apply (panicPhase_transfer gid late rt).
  - destruct (go_other gid g rt) as [Hg Hd]; [by eapply panicPhase_known|].
    by apply (panicPhase_transfer gid late rt).
Qed.

Lemma stepsOf_single (gid : nat) (c : Choice) :
  stepsOf gid [c] = 0 ∨ c = Run gid.
Proof.
  destruct c as [gid'|g]; cbn; [|by left].
  case_bool_decide; [right; congruence|by left].
Qed.

(** A goroutine that is about to panic never delivers. *)
Lemma panicPhase_schedule (gid : nat) (late : bool) (cs : list Choice) (rt : Runtime) :
  panicPhase gid late rt → deliveries gid (schedule cs rt) = [].
Proof.
  revert late rt. induction cs as [|c cs IH]; intros late rt Hp; [by destruct Hp|].
  cbn [schedule]. destruct (stepsOf_single gid c) as [Hc| ->].
  - eapply IH. by apply panicPhase_other_step.
  - destruct (rtPanicked rt) eqn:Hrt.
    + rewrite stepChoice_panicked by done. by eapply IH.
    + rewrite stepChoice_running by done.
      eapply IH. by apply (panicPhase_own_step gid late rt).
Qed.

(** While the program has not panicked, such a goroutine has not been
    given the step at which it panics. *)
Lemma panicPhase_steps (gid : nat) (late : bool) (cs : list Choice) (rt : Runtime) :
  panicPhase gid late rt →
  rtPanicked (schedule cs rt) = false →
  (stepsOf gid cs ≤ (if late then 1 else 0))%nat.
Proof.
  revert late rt. induction cs as [|c cs IH]; intros late rt Hp Hrun; [cbn; lia|].
  destruct (rtPanicked rt) eqn:Hrt.
  { rewrite schedule_panicked in Hrun by done. congruence. }
  cbn [schedule] in Hrun. rewrite stepsOf_cons.
  destruct (stepsOf_single gid c) as [Hc| ->].
  - rewrite Hc. apply (IH late (stepChoice c rt)); [|done].
    by apply panicPhase_other_step.
  - rewrite stepChoice_running in Hrun by done.
    destruct (panicPhase_own_step gid late rt Hp) as [Hp' Hpanic].
    cbn [stepsOf]. rewrite bool_decide_eq_true_2 by done.
    destruct late.
    + specialize (IH false _ Hp' Hrun). cbn in IH. lia.
    + rewrite schedule_panicked in Hrun by done. congruence.
Qed.

(** The goroutine of a task that lacks its inventory info, its client
    or its task context is one that panics before it sends. *)
Lemma panicPhase_Start {C I : Type} `{!InventoryClient C I}
    (i : task.DeleteInvTask C I) (taskContext : option TaskContext) (rt : Runtime) :
  deliveriesKnown rt →
  task.InvInfo i = None ∨ task.InvClient i = None ∨ taskContext = None →
  ∃ late,
    panicPhase (fresh (dom (goroutines rt))) late (task.Start i taskContext rt) ∧
    (task.InvInfo i = None ∨ task.InvClient i = None → late = false).
Proof.
  intros Hknown Hnil. unfold task.Start, task.startBody.
  destruct (task.InvInfo i) as [invInfo|];
    [destruct (task.InvClient i) as [invClient|];
     [destruct taskContext as [ctx|]|]|].
  - exfalso. destruct Hnil as [?|[?|?]]; done.
  - exists true. split; [|intros [?|?]; done]. split; [by apply deliveries_go|].
    eexists. cbn. by rewrite lookup_insert_eq.
  - exists false. split; [|done]. split; [by apply deliveries_go|].
    cbn. by rewrite lookup_insert_eq.
  - exists false. split; [|done]. split; [by apply deliveries_go|].
    cbn. by rewrite lookup_insert_eq.
Qed.

Lemma startPhase_Start {C I : Type} `{!InventoryClient C I}
    (i : task.DeleteInvTask C I) (invInfo : I) (invClient : C) (ctx : TaskContext)
    (rt : Runtime) :
  deliveriesKnown rt →
  task.InvInfo i = Some invInfo →
  task.InvClient i = Some invClient →
  startPhase (clientDeleteInventoryObj invClient (Some invInfo))
    (fresh (dom (goroutines rt))) 0 (task.Start i (Some ctx) rt).
Proof.
  intros Hknown Hinfo Hclient. split; [|by apply deliveries_go].
  unfold task.Start, task.startBody. rewrite Hinfo, Hclient. cbn.
  by rewrite lookup_insert_eq.
Qed.

(** C9, as stated, fails: the goroutine of a task without an
    inventory info panics at its first step, before the client is
    called, and no result is ever delivered.  So does the goroutine of
    a task without a client; with a nil task context the goroutine
    calls the client, which deletes the anchor, and panics before it
    sends.  And the result of a task that has all three is lost when
    the goroutine of a task without an inventory info, started after
    it, panics first. *)
Lemma Start_panics_and_delivers_nothing :
  (let rt' := schedule [Run 0; Run 0] (task.Start exTaskNoInfo (Some RunContext) exRuntime) in
   taskChannel rt' = [] ∧ rtTrace rt' = [] ∧ rtPanicked rt' = true ∧
   ∀ cs, taskChannel (schedule cs rt') = []) ∧
  (let rt' := schedule [Run 0; Run 0] (task.Start exTaskNoClient (Some RunContext) exRuntime) in
   taskChannel rt' = [] ∧ rtTrace rt' = [] ∧ rtPanicked rt' = true ∧
   ∀ cs, taskChannel (schedule cs rt') = []) ∧
  (let rt' := schedule [Run 0; Run 0] (task.Start exTask None exRuntime) in
   taskChannel rt' = [] ∧ rtTrace rt' = [(ReqDelete exAnchor1, None)] ∧
   rtPanicked rt' = true ∧
   ∀ cs, taskChannel (schedule cs rt') = []) ∧
  (let rt' := schedule [Run 0; Run 1; Run 0]
                (task.Start exTaskNoInfo (Some RunContext)
                   (task.Start exTask (Some RunContext) exRuntime)) in
   taskChannel rt' = [] ∧ rtPanicked rt' = true ∧
   ∀ cs, taskChannel (schedule cs rt') = []).
Proof.
  cbv zeta. repeat split; try (vm_compute; reflexivity);
    intros cs; by rewrite schedule_panicked.
Qed.

(** C9: [Start] returns at once, having only added its goroutine: no
    call is made and nothing is delivered in [Start] itself.  Whatever
    the scheduler then does, the goroutine delivers at most one result.
    When the inventory info, the client and the task context are not
    nil, a result it delivers carries the error [DeleteInventoryObj]
    returned (nil on success) in the cluster it was called in; while
    no goroutine has panicked, it has delivered none before its second
    step, and from its second step on it has finished and has delivered
    exactly one; run on its own, it calls [DeleteInventoryObj] in the
    cluster [Start] found and sends its error.  When the inventory info
    or the client is nil, the goroutine panics at its first step,
    before any call, and when only the task context is nil, at its
    second step, after the call: in both cases it never delivers a
    result. *)
Theorem Start_delivers_exactly_once {C I : Type} `{!InventoryClient C I}
    (i : task.DeleteInvTask C I) (taskContext : option TaskContext)
    (rt : Runtime) (cs : list Choice) :
  deliveriesKnown rt →
  rtPanicked rt = false →
  let gid := fresh (dom (goroutines rt)) in
  let rt' := schedule cs (task.Start i taskContext rt) in
  task.Start i taskContext rt =
    {| rtCluster := rtCluster rt;
       rtTrace := rtTrace rt;
       goroutines := <[gid := task.startBody i taskContext]> (goroutines rt);
       taskChannel := taskChannel rt;
       rtPanicked := false |} ∧
  (length (deliveries gid rt') ≤ 1)%nat ∧
  match task.InvInfo i, task.InvClient i, taskContext with
  | Some invInfo, Some invClient, Some _ =>
      (deliveries gid rt' = [] ∨
       ∃ cl0, deliveries gid rt' =
                [(gid, {| Err := (clientDeleteInventoryObj invClient (Some invInfo) cl0).1.1 |})]) ∧
      (if rtPanicked rt' then True
       else if decide (stepsOf gid cs < 2)%nat
       then deliveries gid rt' = []
       else goroutines rt' !! gid = Some GoDone ∧
            ∃ cl0, deliveries gid rt' =
                     [(gid, {| Err := (clientDeleteInventoryObj invClient
                                         (Some invInfo) cl0).1.1 |})]) ∧
      schedule [Run gid; Run gid] (task.Start i taskContext rt) =
        {| rtCluster := (clientDeleteInventoryObj invClient (Some invInfo) (rtCluster rt)).1.2;
           rtTrace := rtTrace rt ++
                      (clientDeleteInventoryObj invClient (Some invInfo) (rtCluster rt)).2;
           goroutines := <[gid := GoDone]> (goroutines rt);
           taskChannel := taskChannel rt ++
                          [(gid, {| Err := (clientDeleteInventoryObj invClient (Some invInfo)
                                              (rtCluster rt)).1.1 |})];
           rtPanicked := false |}
  | Some invInfo, Some invClient, None =>
      deliveries gid rt' = [] ∧
      (if decide (stepsOf gid cs < 2)%nat then True else rtPanicked rt' = true) ∧
      schedule [Run gid; Run gid] (task.Start i taskContext rt) =
        {| rtCluster := (clientDeleteInventoryObj invClient (Some invInfo) (rtCluster rt)).1.2;
           rtTrace := rtTrace rt ++
                      (clientDeleteInventoryObj invClient (Some invInfo) (rtCluster rt)).2;
           goroutines := <[gid := GoPanic]> (goroutines rt);
           taskChannel := taskChannel rt;
           rtPanicked := true |}
  | _, _, _ =>
      deliveries gid rt' = [] ∧
      (if decide (stepsOf gid cs < 1)%nat then True else rtPanicked rt' = true) ∧
      schedule [Run gid] (task.Start i taskContext rt) =
        {| rtCluster := rtCluster rt;
           rtTrace := rtTrace rt;
           goroutines := <[gid := GoPanic]> (goroutines rt);
           taskChannel := taskChannel rt;
           rtPanicked := true |}
  end.
Proof.
  intros Hknown Hrun gid rt'.
  assert (task.InvInfo i = None ∨ task.InvClient i = None ∨ taskContext = None →
          deliveries gid rt' = [] ∧
          (if decide (stepsOf gid cs < 2)%nat then True else rtPanicked rt' = true) ∧
          (task.InvInfo i = None ∨ task.InvClient i = None →
           if decide (stepsOf gid cs < 1)%nat then True else rtPanicked rt' = true))
    as Hnil.
  { intros Hnil.
    destruct (panicPhase_Start i taskContext rt Hknown Hnil) as (late & Hp & Hlate).
    split; [by eapply panicPhase_schedule|].
    pose proof (panicPhase_steps gid late cs _ Hp) as Hsteps. fold rt' in Hsteps.
    split.
    - case_decide; [done|]. destruct (rtPanicked rt'); [done|].
      specialize (Hsteps eq_refl). destruct late; lia.
    - intros Hearly. rewrite (Hlate Hearly) in Hsteps.
      case_decide; [done|]. destruct (rtPanicked rt'); [done|].
      specialize (Hsteps eq_refl). lia. }
  split; [unfold task.Start, go; by rewrite Hrun|].
  destruct (task.InvInfo i) as [invInfo|] eqn:Hinfo;
    [destruct (task.InvClient i) as [invClient|] eqn:Hclient;
     [destruct taskContext as [ctx|]|]|].
  - pose proof (startPhase_Start i invInfo invClient ctx rt Hknown Hinfo Hclient) as Hp0.
    destruct (startPhase_schedule_any _ gid 0 cs _ Hp0) as [m Hany]. fold rt' in Hany.
    apply startPhase_deliveries in Hany.
    split; [destruct Hany as [->|[cl0 ->]]; cbn; lia|].
    split; [done|]. split.
    + destruct (rtPanicked rt') eqn:Hrt'; [done|].
      pose proof (startPhase_schedule _ gid 0 cs _ Hp0 Hrt') as Hp.
      fold rt' in Hp. rewrite Nat.add_0_r in Hp.
      destruct (stepsOf gid cs) as [|[|n]]; cbn in Hp.
      * rewrite decide_True by lia. by destruct Hp as [_ ->].
      * rewrite decide_True by lia. by destruct Hp as (cl0 & _ & ->).
      * rewrite decide_False by lia. destruct Hp as (cl0 & -> & ->). eauto.
    + cbn [schedule]. rewrite (stepChoice_running _ (task.Start i _ rt)) by (cbn; done).
      unfold task.Start, task.startBody, go, runGoroutine at 1. fold gid.
      rewrite Hinfo, Hclient. cbn. rewrite lookup_insert_eq. cbn.
      destruct (clientDeleteInventoryObj invClient (Some invInfo) (rtCluster rt))
        as [[err cl'] t]. cbn.
      rewrite stepChoice_running by (cbn; done).
      unfold runGoroutine. cbn. rewrite lookup_insert_eq. cbn.
      by rewrite !insert_insert_eq, Hrun.
  - destruct Hnil as (Hd & Hlate & _); [auto|].
    split; [rewrite Hd; cbn; lia|]. split; [done|]. split; [done|].
    cbn [schedule]. rewrite (stepChoice_running _ (task.Start i _ rt)) by (cbn; done).
    unfold task.Start, task.startBody, go, runGoroutine at 1. fold gid.
    rewrite Hinfo, Hclient. cbn. rewrite lookup_insert_eq. cbn.
    destruct (clientDeleteInventoryObj invClient (Some invInfo) (rtCluster rt))
      as [[err cl'] t]. cbn.
    rewrite stepChoice_running by (cbn; done).
    unfold runGoroutine. cbn. rewrite lookup_insert_eq. cbn.
    by rewrite !insert_insert_eq.
  - destruct Hnil as (Hd & _ & Hearly); [auto|].
    split; [rewrite Hd; cbn; lia|]. split; [done|]. split; [apply Hearly; auto|].
    cbn [schedule]. rewrite (stepChoice_running _ (task.Start i _ rt)) by (cbn; done).
    unfold task.Start, task.startBody, go, runGoroutine. fold gid.
    rewrite Hinfo, Hclient. cbn. by rewrite lookup_insert_eq.
  - destruct Hnil as (Hd & _ & Hearly); [auto|].
    split; [rewrite Hd; cbn; lia|]. split; [done|]. split; [apply Hearly; auto|].
    cbn [schedule]. rewrite (stepChoice_running _ (task.Start i _ rt)) by (cbn; done).
    unfold task.Start, task.startBody, go, runGoroutine. fold gid.
    rewrite Hinfo. cbn. by rewrite lookup_insert_eq.
Qed.

(** C9 on the task that deletes the one anchor: another goroutine is
    started between the two steps of the task's goroutine. *)
Lemma Start_delivers_exactly_once_witness :
  let invInfo := mkFakeInfo "default" "inventory-1" in
  let cs := [Run 0; Spawn GoDone; Run 0] in
  let gid := fresh (dom (goroutines exRuntime)) in
  let rt' := schedule cs (task.Start exTask (Some RunContext) exRuntime) in
  task.Start exTask (Some RunContext) exRuntime =
    {| rtCluster := rtCluster exRuntime;
       rtTrace := rtTrace exRuntime;
       goroutines := <[gid := task.startBody exTask (Some RunContext)]> (goroutines exRuntime);
       taskChannel := taskChannel exRuntime;
       rtPanicked := false |} ∧
  (length (deliveries gid rt') ≤ 1)%nat ∧
  (deliveries gid rt' = [] ∨
   ∃ cl0, deliveries gid rt' =
            [(gid, {| Err := (clientDeleteInventoryObj FakeClient (Some invInfo) cl0).1.1 |})]) ∧
  (if rtPanicked rt' then True
   else if decide (stepsOf gid cs < 2)%nat
   then deliveries gid rt' = []
   else goroutines rt' !! gid = Some GoDone ∧
        ∃ cl0, deliveries gid rt' =
                 [(gid, {| Err := (clientDeleteInventoryObj FakeClient
                                     (Some invInfo) cl0).1.1 |})]) ∧
  schedule [Run gid; Run gid] (task.Start exTask (Some RunContext) exRuntime) =
    {| rtCluster := (clientDeleteInventoryObj FakeClient (Some invInfo)
                       (rtCluster exRuntime)).1.2;
       rtTrace := rtTrace exRuntime ++
                  (clientDeleteInventoryObj FakeClient (Some invInfo) (rtCluster exRuntime)).2;
       goroutines := <[gid := GoDone]> (goroutines exRuntime);
       taskChannel := taskChannel exRuntime ++
                      [(gid, {| Err := (clientDeleteInventoryObj FakeClient (Some invInfo)
                                          (rtCluster exRuntime)).1.1 |})];
       rtPanicked := false |}.
Proof.
  refine (Start_delivers_exactly_once exTask (Some RunContext) exRuntime
            [Run 0; Spawn GoDone; Run 0] _ _).
  - intros d Hd. by apply elem_of_nil in Hd.
  - reflexivity.
Defined.

(** The task's goroutine run on the cluster with one anchor: the anchor
    is deleted and one result, without an error, is on the channel; on
    a cluster without the anchor the one result carries the server's
    error; when another goroutine panics before the task's goroutine
    has sent, nothing is delivered; and the goroutine of a task without
    a task context deletes the anchor and panics. *)
Example Start_example :
  taskChannel (schedule [Run 0; Run 0] (task.Start exTask (Some RunContext) exRuntime))
    = [(0, {| Err := None |})] ∧
  objects (rtCluster (schedule [Run 0; Run 0] (task.Start exTask (Some RunContext) exRuntime)))
    = ∅ ∧
  taskChannel (schedule [Run 0; Run 0]
                 (task.Start exTask (Some RunContext)
                    {| rtCluster := exClusterNone; rtTrace := [];
                       goroutines := ∅; taskChannel := []; rtPanicked := false |}))
    = [(0, {| Err := Some (ErrNotFound exAnchor1) |})] ∧
  taskChannel (schedule [Run 0; Spawn GoPanic; Run 1; Run 0]
                 (task.Start exTask (Some RunContext) exRuntime)) = [] ∧
  (let rt' := schedule [Run 0; Run 0] (task.Start exTask None exRuntime) in
   taskChannel rt' = [] ∧ objects (rtCluster rt') = ∅ ∧ rtPanicked rt' = true).
Proof. repeat split; vm_compute; reflexivity. Qed.

(** * Further properties of the client and of the task *)

(** ** Replace *)

Section replace_runs.
Context (cic : ClusterInventoryClient).

Lemma Replace_one (localInfo : Info) (objs S : gset ObjMetadata) (cl : Cluster) (a : Info) :
  lookupAnchors cic localInfo cl = Some [a] →
  Load (WrapInventoryObj (Some a)) = (S, None) →
  Replace cic (Some localInfo) objs cl =
  if SetEquals objs S then (None, cl, [lookupCall cic localInfo])
  else if dryRun cic
  then (None, cl, [lookupCall cic localInfo; lookupCall cic localInfo])
  else
    let '(e, cl1, t) := helperReplace (withStored a objs) cl in
    (e, cl1, lookupCall cic localInfo :: lookupCall cic localInfo :: t).
Proof.
  intros Hl HS. unfold Replace.
  rewrite bind_run, (GetClusterObjs_one cic localInfo cl a Hl), HS.
  destruct (SetEquals objs S); [done|].
  rewrite bind_run, (getClusterInventoryInfo_lookup cic localInfo cl [a] Hl).
  cbn -[applyInventoryObj].
  destruct (dryRun cic) eqn:Hdry; [done|].
  cbn -[applyInventoryObj]. rewrite applyInventoryObj_live by done.
  fold (withStored a objs).
  by destruct (helperReplace (withStored a objs) cl) as [[e cl1] t].
Qed.

Lemma Replace_load_error (localInfo : Info) (objs S : gset ObjMetadata) (cl : Cluster)
    (a : Info) (e : Error) :
  lookupAnchors cic localInfo cl = Some [a] →
  Load (WrapInventoryObj (Some a)) = (S, Some e) →
  Replace cic (Some localInfo) objs cl = (Some e, cl, [lookupCall cic localInfo]).
Proof.
  intros Hl HS. unfold Replace.
  by rewrite bind_run, (GetClusterObjs_one cic localInfo cl a Hl), HS.
Qed.

Lemma Replace_none_empty (localInfo : Info) (cl : Cluster) :
  lookupAnchors cic localInfo cl = Some [] →
  Replace cic (Some localInfo) ∅ cl = (None, cl, [lookupCall cic localInfo]).
Proof.
  intros Hl. unfold Replace.
  rewrite bind_run, (GetClusterObjs_none cic localInfo cl Hl).
  unfold SetEquals. by rewrite bool_decide_eq_true_2.
Qed.
End replace_runs.

(** X1: [Replace] short-circuits: when the set to store equals what the
    anchor stores, or is empty and there is no anchor, it returns
    success after its first lookup, sends no write and leaves the
    cluster as it was. *)
Theorem Replace_short_circuit (cic : ClusterInventoryClient) (localInfo : Info)
    (objs : gset ObjMetadata) (cl : Cluster) :
  (∃ a, lookupAnchors cic localInfo cl = Some [a] ∧
        Load (WrapInventoryObj (Some a)) = (objs, None)) ∨
  (lookupAnchors cic localInfo cl = Some [] ∧ objs = ∅) →
  Replace cic (Some localInfo) objs cl = (None, cl, [lookupCall cic localInfo]).
Proof.
  intros [(a & Hl & HS)|[Hl ->]].
  - rewrite (Replace_one cic localInfo objs objs cl a Hl HS).
    unfold SetEquals. by rewrite bool_decide_eq_true_2.
  - by apply Replace_none_empty.
Qed.

(** X1 on the anchor storing [{a, b}]. *)
Lemma Replace_short_circuit_witness :
  Replace (exClient false) (Some exLocal) {[ exA; exB ]} (exClusterOne {[ exA; exB ]})
    = (None, exClusterOne {[ exA; exB ]}, [lookupCall (exClient false) exLocal]).
Proof.
  refine (Replace_short_circuit (exClient false) exLocal {[ exA; exB ]}
            (exClusterOne {[ exA; exB ]}) _).
  left. exists (exAnchorInfo exAnchor1 {[ exA; exB ]}). split.
  - vm_compute. reflexivity.
  - compute_done.
Defined.

(** X2: when the lookup finds one anchor, storing [S], and the set to
    store differs from [S], [Replace] looks the anchor up a second time
    and, with dry-run off, sends one replace request for the anchor
    holding exactly the given set, not its union with [S]; the server
    accepting it, the lookup then finds that anchor and it loads as the
    given set.  With dry-run on it returns success and sends no
    write. *)
Theorem Replace_existing_anchor (cic : ClusterInventoryClient) (localInfo : Info)
    (objs S : gset ObjMetadata) (cl : Cluster) (a : Info) :
  lookupAnchors cic localInfo cl = Some [a] →
  Load (WrapInventoryObj (Some a)) = (S, None) →
  objs ≠ S →
  let replaced := withStored a objs in
  let cl' := {| objects := <[InfoToObjMeta a := infoObject replaced]> (objects cl);
                denied := denied cl |} in
  let lookup := lookupCall cic localInfo in
  Replace cic (Some localInfo) objs cl =
    (if dryRun cic then (None, cl, [lookup; lookup])
     else if bool_decide (VUpdate ∈ denied cl)
     then (Some (ErrForbidden VUpdate), cl,
           [lookup; lookup; (ReqReplace replaced, Some (ErrForbidden VUpdate))])
     else (None, cl', [lookup; lookup; (ReqReplace replaced, None)])) ∧
  GetClusterObjs cic (Some localInfo) cl' = ((objs, None), cl', [lookup]).
Proof.
  intros Hl HS Hne replaced cl' lookup. split.
  - rewrite (Replace_one cic localInfo objs S cl a Hl HS).
    unfold SetEquals. rewrite bool_decide_eq_false_2 by done.
    destruct (dryRun cic); [done|].
    fold replaced. unfold helperReplace.
    destruct (lookupAnchors_elem cic localInfo cl [a] a Hl) as [Hin _].
    { apply elem_of_cons. by left. }
    case_bool_decide; [done|].
    change (InfoToObjMeta replaced) with (InfoToObjMeta a). by rewrite Hin.
  - rewrite (GetClusterObjs_one cic localInfo cl' replaced).
    + unfold replaced. by rewrite Load_withStored.
    + by apply lookupAnchors_after_replace.
Qed.

(** X2 on the anchor storing [{a, b, c}], with [{b}] to store. *)
Lemma Replace_existing_anchor_witness :
  let replaced := withStored (exAnchorInfo exAnchor1 {[ exA; exB; exC ]}) {[ exB ]} in
  let cl' := {| objects := <[InfoToObjMeta (exAnchorInfo exAnchor1 {[ exA; exB; exC ]})
                               := infoObject replaced]>
                             (objects (exClusterOne {[ exA; exB; exC ]}));
                denied := denied (exClusterOne {[ exA; exB; exC ]}) |} in
  let lookup := lookupCall (exClient false) exLocal in
  Replace (exClient false) (Some exLocal) {[ exB ]} (exClusterOne {[ exA; exB; exC ]}) =
    (if dryRun (exClient false)
     then (None, exClusterOne {[ exA; exB; exC ]}, [lookup; lookup])
     else if bool_decide (VUpdate ∈ denied (exClusterOne {[ exA; exB; exC ]}))
     then (Some (ErrForbidden VUpdate), exClusterOne {[ exA; exB; exC ]},
           [lookup; lookup; (ReqReplace replaced, Some (ErrForbidden VUpdate))])
     else (None, cl', [lookup; lookup; (ReqReplace replaced, None)])) ∧
  GetClusterObjs (exClient false) (Some exLocal) cl' = (({[ exB ]}, None), cl', [lookup]).
Proof.
  refine (Replace_existing_anchor (exClient false) exLocal {[ exB ]} {[ exA; exB; exC ]}
            (exClusterOne {[ exA; exB; exC ]})
            (exAnchorInfo exAnchor1 {[ exA; exB; exC ]}) _ _ _).
  - vm_compute. reflexivity.
  - compute_done.
  - compute_done.
Defined.

(** ** Merge, then Replace: the cycle of an apply *)

Section apply_cycle.
Context (cic : ClusterInventoryClient) (Hlive : dryRun cic = false).

Lemma Merge_live_step (localInfo : Info) (D S : gset ObjMetadata) (cl : Cluster) (a : Info) :
  lookupAnchors cic localInfo cl = Some [a] →
  Load (WrapInventoryObj (Some a)) = (S, None) →
  VUpdate ∉ denied cl →
  (Merge cic (Some localInfo) D cl).1.1 = (S ∖ D, None) ∧
  denied ((Merge cic (Some localInfo) D cl).1.2) = denied cl ∧
  ∃ a', lookupAnchors cic localInfo (Merge cic (Some localInfo) D cl).1.2 = Some [a'] ∧
        Load (WrapInventoryObj (Some a')) = (S ∪ D, None).
Proof.
  intros Hl HS Hupd. rewrite (Merge_one cic localInfo D S cl a Hl HS).
  unfold SetEquals. case_bool_decide as Heq.
  - subst D. cbn. rewrite difference_diag_L, union_idemp_L. eauto.
  - rewrite Hlive, helperReplace_ok; [|done|].
    + cbn. split; [done|]. split; [done|]. exists (withStored a (S ∪ D)).
      split; [by apply lookupAnchors_after_replace|apply Load_withStored].
    + destruct (lookupAnchors_elem cic localInfo cl [a] a Hl) as [Hin _].
      { apply elem_of_cons. by left. }
      by exists (infoObject a).
Qed.

Lemma Replace_live_step (localInfo : Info) (D S : gset ObjMetadata) (cl : Cluster)
    (a : Info) :
  lookupAnchors cic localInfo cl = Some [a] →
  Load (WrapInventoryObj (Some a)) = (S, None) →
  VUpdate ∉ denied cl →
  (Replace cic (Some localInfo) D cl).1.1 = None ∧
  denied ((Replace cic (Some localInfo) D cl).1.2) = denied cl ∧
  ∃ a', lookupAnchors cic localInfo (Replace cic (Some localInfo) D cl).1.2 = Some [a'] ∧
        Load (WrapInventoryObj (Some a')) = (D, None).
Proof.
  intros Hl HS Hupd. rewrite (Replace_one cic localInfo D S cl a Hl HS).
  unfold SetEquals. case_bool_decide as Heq.
  - subst D. cbn. eauto.
  - rewrite Hlive, helperReplace_ok; [|done|].
    + cbn. split; [done|]. split; [done|]. exists (withStored a D).
      split; [by apply lookupAnchors_after_replace|apply Load_withStored].
    + destruct (lookupAnchors_elem cic localInfo cl [a] a Hl) as [Hin _].
      { apply elem_of_cons. by left. }
      by exists (infoObject a).
Qed.
End apply_cycle.

(** X3: the cycle of an apply reaches a fixed point.  With dry-run off,
    one anchor storing [S] and a server that accepts updates, [Merge]
    of [D] returns [S ∖ D]; a [Replace] of [D] after it succeeds and
    leaves exactly [D] stored; from then on [GetClusterObjs] returns
    [D], a further [Merge] of [D] returns an empty prune set and a
    further [Replace] of [D] returns success, neither sending a
    write. *)
Theorem Merge_then_Replace (cic : ClusterInventoryClient) (localInfo : Info)
    (D S : gset ObjMetadata) (cl : Cluster) (a : Info) :
  dryRun cic = false →
  lookupAnchors cic localInfo cl = Some [a] →
  Load (WrapInventoryObj (Some a)) = (S, None) →
  VUpdate ∉ denied cl →
  let cl1 := (Merge cic (Some localInfo) D cl).1.2 in
  let cl2 := (Replace cic (Some localInfo) D cl1).1.2 in
  let lookup := lookupCall cic localInfo in
  (Merge cic (Some localInfo) D cl).1.1 = (S ∖ D, None) ∧
  (Replace cic (Some localInfo) D cl1).1.1 = None ∧
  GetClusterObjs cic (Some localInfo) cl2 = ((D, None), cl2, [lookup]) ∧
  Merge cic (Some localInfo) D cl2 = ((∅, None), cl2, [lookup; lookup]) ∧
  Replace cic (Some localInfo) D cl2 = (None, cl2, [lookup]).
Proof.
  intros Hlive Hl HS Hupd cl1 cl2 lookup.
  destruct (Merge_live_step cic Hlive localInfo D S cl a Hl HS Hupd)
    as (Hm & Hd1 & a1 & Hl1 & HS1).
  fold cl1 in Hd1, Hl1.
  destruct (Replace_live_step cic Hlive localInfo D (S ∪ D) cl1 a1 Hl1 HS1)
    as (Hr & Hd2 & a2 & Hl2 & HS2); [by rewrite Hd1|].
  fold cl2 in Hd2, Hl2.
  split; [done|]. split; [done|]. split; [|split].
  - by rewrite (GetClusterObjs_one cic localInfo cl2 a2 Hl2), HS2.
  - rewrite (Merge_one cic localInfo D D cl2 a2 Hl2 HS2).
    unfold SetEquals. by rewrite bool_decide_eq_true_2.
  - rewrite (Replace_one cic localInfo D D cl2 a2 Hl2 HS2).
    unfold SetEquals. by rewrite bool_decide_eq_true_2.
Qed.

(** X3 on the anchor storing [{a, b, c}], with [{b, c, d}] applied. *)
Lemma Merge_then_Replace_witness :
  let cl1 := (Merge (exClient false) (Some exLocal) {[ exB; exC; exD ]}
                    (exClusterOne {[ exA; exB; exC ]})).1.2 in
  let cl2 := (Replace (exClient false) (Some exLocal) {[ exB; exC; exD ]} cl1).1.2 in
  let lookup := lookupCall (exClient false) exLocal in
  (Merge (exClient false) (Some exLocal) {[ exB; exC; exD ]}
         (exClusterOne {[ exA; exB; exC ]})).1.1
    = ({[ exA; exB; exC ]} ∖ {[ exB; exC; exD ]}, None) ∧
  (Replace (exClient false) (Some exLocal) {[ exB; exC; exD ]} cl1).1.1 = None ∧
  GetClusterObjs (exClient false) (Some exLocal) cl2
    = (({[ exB; exC; exD ]}, None), cl2, [lookup]) ∧
  Merge (exClient false) (Some exLocal) {[ exB; exC; exD ]} cl2
    = ((∅, None), cl2, [lookup; lookup]) ∧
  Replace (exClient false) (Some exLocal) {[ exB; exC; exD ]} cl2 = (None, cl2, [lookup]).
Proof.
  refine (Merge_then_Replace (exClient false) exLocal {[ exB; exC; exD ]}
            {[ exA; exB; exC ]} (exClusterOne {[ exA; exB; exC ]})
            (exAnchorInfo exAnchor1 {[ exA; exB; exC ]}) _ _ _ _).
  - reflexivity.
  - vm_compute. reflexivity.
  - compute_done.
  - apply not_elem_of_nil.
Defined.

(** ** Errors of the lookup and of the load *)

(** X4: a payload that fails to load is never taken for a set to
    write from.  When the lookup finds one anchor and loading it
    fails, [GetClusterObjs] returns what [Load] returned, error
    included, [Merge] returns the load error with an empty prune set,
    and [Replace] returns the load error; in both modes the cluster is
    unchanged and no request but the lookups is sent. *)
Theorem load_error_is_returned (cic : ClusterInventoryClient) (localInfo : Info)
    (objs S : gset ObjMetadata) (cl : Cluster) (a : Info) (e : Error) :
  lookupAnchors cic localInfo cl = Some [a] →
  Load (WrapInventoryObj (Some a)) = (S, Some e) →
  let lookup := lookupCall cic localInfo in
  GetClusterObjs cic (Some localInfo) cl = ((S, Some e), cl, [lookup]) ∧
  Merge cic (Some localInfo) objs cl = ((∅, Some e), cl, [lookup; lookup]) ∧
  Replace cic (Some localInfo) objs cl = (Some e, cl, [lookup]).
Proof.
  intros Hl HS lookup.
  assert (GetClusterObjs cic (Some localInfo) cl = ((S, Some e), cl, [lookup])) as Hg.
  { by rewrite (GetClusterObjs_one cic localInfo cl a Hl), HS. }
  split; [done|]. split.
  - apply (Merge_load_error cic (Some localInfo) objs S cl cl cl a e [lookup] [lookup]);
      [|done].
    by rewrite (getClusterInventoryInfo_lookup cic localInfo cl [a] Hl).
  - by apply (Replace_load_error cic localInfo objs S cl a e).
Qed.

(** X4 on the anchor whose payload is one malformed entry. *)
Lemma load_error_is_returned_witness :
  let lookup := lookupCall (exClient false) exLocal in
  GetClusterObjs (exClient false) (Some exLocal) exClusterOneGarbled
    = ((∅, Some (ErrDecode "not-an-object")), exClusterOneGarbled, [lookup]) ∧
  Merge (exClient false) (Some exLocal) {[ exB ]} exClusterOneGarbled
    = ((∅, Some (ErrDecode "not-an-object")), exClusterOneGarbled, [lookup; lookup]) ∧
  Replace (exClient false) (Some exLocal) {[ exB ]} exClusterOneGarbled
    = (Some (ErrDecode "not-an-object"), exClusterOneGarbled, [lookup]).
Proof.
  refine (load_error_is_returned (exClient false) exLocal {[ exB ]} ∅ exClusterOneGarbled
            (mkInfo exAnchor1 (mkContent exLabels [Garbled "not-an-object"]))
            (ErrDecode "not-an-object") _ _).
  - vm_compute. reflexivity.
  - compute_done.
Defined.

(** X5: an error of the lookup is the error of every reading and
    writing operation.  When the REST mapper returns an error for the
    descriptor's kind, [GetClusterObjs], [Merge] and [Replace] return
    that error without any request; when the mapper answers and
    retrieving the inventory label returns an error, they return that
    one, without any request; when both answer and the list query
    returns an error, they return that one after the requests of the
    query.  In each case the result is empty and nothing is written:
    the cluster is as the query left it. *)
Theorem unresolved_descriptor_is_rejected (cic : ClusterInventoryClient)
    (localInfo : Info) (objs : gset ObjMetadata) (cl : Cluster) :
  let rejected (err : Error) (cl' : Cluster) (t : list Call) :=
    GetClusterObjs cic (Some localInfo) cl = ((∅, Some err), cl', t) ∧
    Merge cic (Some localInfo) objs cl = ((∅, Some err), cl', t) ∧
    Replace cic (Some localInfo) objs cl = (Some err, cl', t) in
  match RESTMapping cic (objGroupKind (InfoToObjMeta localInfo)) with
  | (_, Some err) => rejected err cl []
  | (groupResource, None) =>
      match retrieveInventoryLabel localInfo with
      | (_, Some err) => rejected err cl []
      | (label, None) =>
          match builderInfos (mapper cic) groupResource (Namespace (InfoToObjMeta localInfo))
                             (mkSelector InventoryLabel label) cl with
          | ((_, Some err), cl', t) => rejected err cl' t
          | ((_, None), _, _) => True
          end
      end
  end.
Proof.
  intros rejected.
  assert (∀ err cl' t,
            getClusterInventoryInfo cic (Some localInfo) cl = ((None, Some err), cl', t) →
            rejected err cl' t) as Hrej.
  { intros err cl' t Hrun.
    assert (GetClusterObjs cic (Some localInfo) cl = ((∅, Some err), cl', t)) as Hg.
    { unfold GetClusterObjs. rewrite bind_run, Hrun. cbn. by rewrite app_nil_r. }
    split; [done|]. split.
    - by apply (Merge_lookup_error cic (Some localInfo) objs cl cl' None err t).
    - unfold Replace. rewrite bind_run, Hg. cbn. by rewrite app_nil_r. }
  destruct (RESTMapping cic _) as [groupResource [err|]] eqn:Hm.
  { apply Hrej. unfold getClusterInventoryInfo. by rewrite Hm. }
  destruct (retrieveInventoryLabel localInfo) as [label [err|]] eqn:Hlab.
  { apply Hrej. unfold getClusterInventoryInfo. by rewrite Hm, Hlab. }
  destruct (builderInfos _ _ _ _ cl) as [[[infos [err|]] cl'] t] eqn:Hb; [|done].
  apply Hrej. unfold getClusterInventoryInfo. rewrite Hm, Hlab.
  rewrite bind_run, Hb. cbn. by rewrite app_nil_r.
Qed.

(** X5 with a descriptor of a kind the mapper does not know, with a
    descriptor that lacks the inventory label, and on a server that
    rejects the list request. *)
Example unresolved_descriptor_example :
  Merge (exClient false) (Some (mkInfo exA (mkContent exLabels []))) {[ exB ]}
        (exClusterOne {[ exA ]})
    = ((∅, Some (ErrNoMapping exDeployment)), exClusterOne {[ exA ]}, []) ∧
  Merge (exClient false) (Some (mkInfo exAnchor1 (mkContent ∅ []))) {[ exB ]}
        (exClusterOne {[ exA ]})
    = ((∅, Some ErrNoLabel), exClusterOne {[ exA ]}, []) ∧
  (Merge (exClient false) (Some exLocal) {[ exB ]}
         (mkCluster (objects (exClusterOne {[ exA ]})) [VList])).1
    = ((∅, Some (ErrForbidden VList)), mkCluster (objects (exClusterOne {[ exA ]})) [VList]).
Proof. compute_done. Qed.

(** ** No request after a rejected one *)

Lemma failsFast_ret {A} (err : A → option Error) (a : A) : failsFast err (ret a).
Proof. intros cl j c e Hj. done. Qed.

Lemma failsFast_bind {A B} (errA : A → option Error) (errB : B → option Error)
    (m : Op A) (k : A → Op B) :
  failsFast errA m →
  (∀ a, failsFast errB (k a)) →
  (∀ a e cl, errA a = Some e → ∃ b, k a cl = (b, cl, []) ∧ errB b = Some e) →
  failsFast errB (m ≫= k).
Proof.
  intros Hm Hk Hstop cl j c e. rewrite bind_run.
  specialize (Hm cl). destruct (m cl) as [[a cl1] t1]. cbn in Hm.
  specialize (Hk a cl1). destruct (k a cl1) as [[b cl2] t2] eqn:Hka. cbn in Hk |- *.
  intros Hj. apply lookup_app_Some in Hj as [Hj|[Hlen Hj]].
  - destruct (Hm j c e Hj) as [Hlast Herr].
    destruct (Hstop a e cl1 Herr) as (b' & Hb' & Hberr).
    rewrite Hka in Hb'. simplify_eq. rewrite app_nil_r. done.
  - destruct (Hk _ c e Hj) as [Hlast Herr]. split; [|done].
    rewrite length_app. unfold Call in *. lia.
Qed.

Ltac failsFast_single :=
  let j := fresh "j" in
  intros j ? ?; cbn; destruct j as [|j]; cbn; intros ?; by simplify_eq.

Lemma failsFast_builderInfos mapper resource namespace selector :
  failsFast snd (builderInfos mapper resource namespace selector).
Proof. intros cl. unfold builderInfos. case_bool_decide; failsFast_single. Qed.

Lemma failsFast_helperReplace (info : Info) : failsFast id (helperReplace info).
Proof.
  intros cl. unfold helperReplace. case_bool_decide; [failsFast_single|].
  destruct (objects cl !! _); failsFast_single.
Qed.

Lemma failsFast_helperCreate (info : Info) : failsFast id (helperCreate info).
Proof.
  intros cl. unfold helperCreate. case_bool_decide; [failsFast_single|].
  destruct (objects cl !! _); failsFast_single.
Qed.

Lemma failsFast_helperDelete (key : ObjMetadata) : failsFast id (helperDelete key).
Proof.
  intros cl. unfold helperDelete. case_bool_decide; [failsFast_single|].
  destruct (objects cl !! _); failsFast_single.
Qed.

Ltac failsFast_stop :=
  let cl := fresh "cl" in
  intros [? ?] ? cl; cbn; intros ->; by eexists.

Ltac failsFast_step :=
  first
    [ apply failsFast_ret
    | apply failsFast_builderInfos
    | apply failsFast_helperReplace
    | apply failsFast_helperCreate
    | apply failsFast_helperDelete
    | match goal with
      | |- failsFast _ (match ?x with _ => _ end) => destruct x
      | |- failsFast _ (if ?b then _ else _) => destruct b
      | |- failsFast _ (let _ := _ in _) => cbv zeta
      end ].

Section fails_fast.
Context (cic : ClusterInventoryClient).

Lemma failsFast_applyInventoryObj (info : option Info) :
  failsFast id (applyInventoryObj cic info).
Proof. unfold applyInventoryObj. repeat failsFast_step. Qed.

Lemma failsFast_createInventoryObj (info : option Info) :
  failsFast id (createInventoryObj cic info).
Proof. unfold createInventoryObj. repeat failsFast_step. Qed.

Lemma failsFast_DeleteInventoryObj (info : option Info) :
  failsFast id (DeleteInventoryObj cic info).
Proof. unfold DeleteInventoryObj. repeat failsFast_step. Qed.

Lemma failsFast_deleteOthers (others : list Info) : failsFast id (deleteOthers cic others).
Proof.
  induction others as [|o others IH]; cbn [deleteOthers]; [apply failsFast_ret|].
  apply (failsFast_bind id id); [apply failsFast_DeleteInventoryObj| |].
  - intros [e|]; [apply failsFast_ret|done].
  - intros a e cl. cbn. intros ->. by eexists.
Qed.

Lemma failsFast_mergeClusterInventory (invInfos : list Info) :
  failsFast snd (mergeClusterInventory cic invInfos).
Proof.
  unfold mergeClusterInventory, Store. repeat failsFast_step.
  apply (failsFast_bind id snd); [apply failsFast_applyInventoryObj| |].
  - intros [e|]; [apply failsFast_ret|].
    apply (failsFast_bind id snd); [apply failsFast_deleteOthers| |].
    + intros [e|]; apply failsFast_ret.
    + intros a e cl. cbn. intros ->. by eexists.
  - intros a e cl. cbn. intros ->. by eexists.
Qed.

Lemma failsFast_getClusterInventoryInfo (localInv : option Info) :
  failsFast snd (getClusterInventoryInfo cic localInv).
Proof.
  unfold getClusterInventoryInfo. repeat failsFast_step.
  apply (failsFast_bind snd snd); [apply failsFast_builderInfos| |].
  - intros [found [e|]]; [apply failsFast_ret|].
    destruct found as [|a [|b l]]; [apply failsFast_ret..|].
    apply (failsFast_bind snd snd); [apply failsFast_mergeClusterInventory| |].
    + intros [ci [e|]]; apply failsFast_ret.
    + failsFast_stop.
  - failsFast_stop.
Qed.

Lemma failsFast_GetClusterObjs (localInv : option Info) :
  failsFast snd (GetClusterObjs cic localInv).
Proof.
  unfold GetClusterObjs.
  apply (failsFast_bind snd snd); [apply failsFast_getClusterInventoryInfo| |].
  - intros [ci [e|]]; [apply failsFast_ret|].
    destruct ci; [|apply failsFast_ret].
    intros cl j c e Hj. done.
  - failsFast_stop.
Qed.

Lemma failsFast_Merge (localInv : option Info) (objs : gset ObjMetadata) :
  failsFast snd (Merge cic localInv objs).
Proof.
  unfold Merge, Store. cbv zeta.
  apply (failsFast_bind snd snd); [apply failsFast_getClusterInventoryInfo| |];
    [|failsFast_stop].
  intros [ci [e|]]; [apply failsFast_ret|].
  destruct ci as [ci|].
  - apply (failsFast_bind snd snd); [apply failsFast_GetClusterObjs| |];
      [|failsFast_stop].
    intros [clusterObjs [e|]]; [apply failsFast_ret|].
    destruct (SetEquals objs clusterObjs); [apply failsFast_ret|].
    destruct (negb (dryRun cic)); [|apply failsFast_ret].
    cbn [GetObject WrapInventoryObj inv objMetas].
    apply (failsFast_bind id snd); [apply failsFast_applyInventoryObj| |].
    + intros [e|]; apply failsFast_ret.
    + intros a e cl. cbn. intros ->. by eexists.
  - destruct (GetObject _) as [invInfo [e|]]; [apply failsFast_ret|].
    apply (failsFast_bind id snd); [apply failsFast_createInventoryObj| |].
    + intros [e|]; apply failsFast_ret.
    + intros a e cl. cbn. intros ->. by eexists.
Qed.

Lemma failsFast_Replace (localInv : option Info) (objs : gset ObjMetadata) :
  failsFast id (Replace cic localInv objs).
Proof.
  unfold Replace, Store.
  apply (failsFast_bind snd id); [apply failsFast_GetClusterObjs| |];
    [|failsFast_stop].
  intros [clusterObjs [e|]]; [apply failsFast_ret|].
  destruct (SetEquals objs clusterObjs); [apply failsFast_ret|].
  apply (failsFast_bind snd id); [apply failsFast_getClusterInventoryInfo| |];
    [|failsFast_stop].
  intros [ci [e|]]; [apply failsFast_ret|].
  destruct (negb (dryRun cic)); [|apply failsFast_ret].
  destruct (GetObject _) as [info [e|]]; [apply failsFast_ret|].
  apply failsFast_applyInventoryObj.
Qed.
End fails_fast.

(** X6: no operation of the client retries or goes on after the server
    has rejected a request: in every run of [GetClusterObjs], [Merge],
    [Replace] and [DeleteInventoryObj], a rejected request is the last
    request sent, and the error the operation returns is the server's
    error for it, unchanged. *)
Theorem rejected_request_ends_the_operation (cic : ClusterInventoryClient)
    (localInv : option Info) (objs : gset ObjMetadata) :
  failsFast snd (GetClusterObjs cic localInv) ∧
  failsFast snd (Merge cic localInv objs) ∧
  failsFast id (Replace cic localInv objs) ∧
  failsFast id (DeleteInventoryObj cic localInv).
Proof.
  split; [apply failsFast_GetClusterObjs|].
  split; [apply failsFast_Merge|].
  split; [apply failsFast_Replace|apply failsFast_DeleteInventoryObj].
Qed.

(** X6 on the server that rejects updates: the rejected replace is the
    third and last request of [Merge], and its error is returned. *)
Lemma rejected_request_ends_the_operation_witness :
  3 = length (Merge (exClient false) (Some exLocal) {[ exB ]} exClusterReadOnly).2 ∧
  (Merge (exClient false) (Some exLocal) {[ exB ]} exClusterReadOnly).1.1.2
    = Some (ErrForbidden VUpdate).
Proof.
  refine (proj1 (proj2 (rejected_request_ends_the_operation (exClient false)
                          (Some exLocal) {[ exB ]}))
            exClusterReadOnly 2
            (ReqReplace (exAnchorInfo exAnchor1 {[ exA; exB ]}))
            (ErrForbidden VUpdate) _).
  vm_compute. reflexivity.
Defined.

(** ** Dry run *)

(** X7: once [SetDryRun] has switched dry-run on, no operation of the
    client changes the cluster or sends a create, replace or delete
    request, whatever the descriptor, the cluster and the set; and
    [DeleteInventoryObj] then returns success without any request. *)
Theorem SetDryRun_makes_read_only (cic : ClusterInventoryClient) (localInv : option Info)
    (objs : gset ObjMetadata) :
  readOnly (GetClusterObjs (SetDryRun cic true) localInv) ∧
  readOnly (Merge (SetDryRun cic true) localInv objs) ∧
  readOnly (Replace (SetDryRun cic true) localInv objs) ∧
  ∀ cl, DeleteInventoryObj (SetDryRun cic true) localInv cl = (None, cl, []).
Proof.
  split; [by apply readOnly_GetClusterObjs|].
  split; [by apply readOnly_Merge|].
  split; [by apply readOnly_Replace|done].
Qed.

(** ** Deleting an inventory object *)

Lemma DeleteInventoryObj_frame (cic : ClusterInventoryClient) (info : Info) (cl : Cluster)
    (k : ObjMetadata) :
  k ≠ InfoToObjMeta info →
  objects ((DeleteInventoryObj cic (Some info) cl).1.2) !! k = objects cl !! k.
Proof.
  intros Hne. unfold DeleteInventoryObj, RESTMapping.
  destruct (dryRun cic); [done|]. destruct (mapper cic _); [|done].
  destruct (clientFunc cic _); [done|]. unfold helperDelete.
  case_bool_decide; [done|]. destruct (objects cl !! InfoToObjMeta info); [|done].
  cbn. by rewrite lookup_delete_ne.
Qed.

(** X8: with dry-run off, [DeleteInventoryObj] never touches an object
    other than the one it is given; when it returns no error that
    object was in the cluster and is gone, and when it returns an error
    the cluster is exactly as it was. *)
Theorem DeleteInventoryObj_deletes_only_its_object (cic : ClusterInventoryClient)
    (info : Info) (cl : Cluster) :
  dryRun cic = false →
  (∀ k, k ≠ InfoToObjMeta info →
        objects ((DeleteInventoryObj cic (Some info) cl).1.2) !! k = objects cl !! k) ∧
  match (DeleteInventoryObj cic (Some info) cl).1.1 with
  | None =>
      is_Some (objects cl !! InfoToObjMeta info) ∧
      objects ((DeleteInventoryObj cic (Some info) cl).1.2) !! InfoToObjMeta info = None
  | Some _ => (DeleteInventoryObj cic (Some info) cl).1.2 = cl
  end.
Proof.
  intros Hlive. split; [intros k Hk; by apply DeleteInventoryObj_frame|].
  unfold DeleteInventoryObj, RESTMapping. rewrite Hlive.
  destruct (mapper cic _); [|done]. destruct (clientFunc cic _); [done|].
  unfold helperDelete. case_bool_decide; [done|].
  destruct (objects cl !! InfoToObjMeta info) eqn:Hin; [|done].
  cbn. split; [by eexists|]. apply lookup_delete_eq.
Qed.

(** X8 on the second of two anchors. *)
Lemma DeleteInventoryObj_deletes_only_its_object_witness :
  (∀ k, k ≠ InfoToObjMeta (exAnchorInfo exAnchor2 {[ exB ]}) →
        objects ((DeleteInventoryObj (exClient false)
                    (Some (exAnchorInfo exAnchor2 {[ exB ]})) exClusterTwo).1.2) !! k
        = objects exClusterTwo !! k) ∧
  match (DeleteInventoryObj (exClient false)
           (Some (exAnchorInfo exAnchor2 {[ exB ]})) exClusterTwo).1.1 with
  | None =>
      is_Some (objects exClusterTwo !! InfoToObjMeta (exAnchorInfo exAnchor2 {[ exB ]})) ∧
      objects ((DeleteInventoryObj (exClient false)
                  (Some (exAnchorInfo exAnchor2 {[ exB ]})) exClusterTwo).1.2)
        !! InfoToObjMeta (exAnchorInfo exAnchor2 {[ exB ]}) = None
  | Some _ =>
      (DeleteInventoryObj (exClient false)
         (Some (exAnchorInfo exAnchor2 {[ exB ]})) exClusterTwo).1.2 = exClusterTwo
  end.
Proof.
  refine (DeleteInventoryObj_deletes_only_its_object (exClient false)
            (exAnchorInfo exAnchor2 {[ exB ]}) exClusterTwo _).
  reflexivity.
Defined.

(** ** What duplicate resolution leaves alone *)

Section resolution_frame.
Context (cic : ClusterInventoryClient).

Lemma deleteOthers_frame (others : list Info) (cl : Cluster) (k : ObjMetadata) :
  k ∉ InfoToObjMeta <$> others →
  objects ((deleteOthers cic others cl).1.2) !! k = objects cl !! k.
Proof.
  revert cl. induction others as [|o others IH]; intros cl Hk; [done|].
  rewrite fmap_cons, not_elem_of_cons in Hk. destruct Hk as [Hko Hk].
  cbn [deleteOthers]. rewrite bind_run.
  pose proof (DeleteInventoryObj_frame cic o cl k Hko) as Hd.
  destruct (DeleteInventoryObj cic (Some o) cl) as [[[e|] cl1] t1]; cbn in Hd |- *; [done|].
  specialize (IH cl1 Hk).
  destruct (deleteOthers cic others cl1) as [[e2 cl2] t2]. cbn in IH |- *. congruence.
Qed.

Lemma deleteOthers_dom (others : list Info) (cl : Cluster) :
  dom (objects ((deleteOthers cic others cl).1.2)) ⊆ dom (objects cl).
Proof.
  revert cl. induction others as [|o others IH]; intros cl; [done|].
  cbn [deleteOthers]. rewrite bind_run.
  assert (dom (objects ((DeleteInventoryObj cic (Some o) cl).1.2)) ⊆ dom (objects cl)) as Hd.
  { unfold DeleteInventoryObj, RESTMapping.
    destruct (dryRun cic); [done|]. destruct (mapper cic _); [|done].
    destruct (clientFunc cic _); [done|]. unfold helperDelete.
    case_bool_decide; [done|]. destruct (objects cl !! _); [|done].
    cbn. rewrite dom_delete_L. apply subseteq_difference_l. done. }
  destruct (DeleteInventoryObj cic (Some o) cl) as [[[e|] cl1] t1]; cbn in Hd |- *; [done|].
  specialize (IH cl1).
  destruct (deleteOthers cic others cl1) as [[e2 cl2] t2]. cbn in IH |- *.
  by etrans.
Qed.

Lemma helperReplace_frame (info : Info) (cl : Cluster) (k : ObjMetadata) :
  k ≠ InfoToObjMeta info →
  objects ((helperReplace info cl).1.2) !! k = objects cl !! k.
Proof.
  intros Hne. unfold helperReplace. case_bool_decide; [done|].
  destruct (objects cl !! InfoToObjMeta info); [|done].
  cbn. by rewrite lookup_insert_ne.
Qed.

Lemma helperReplace_dom (info : Info) (cl : Cluster) :
  dom (objects ((helperReplace info cl).1.2)) = dom (objects cl).
Proof.
  unfold helperReplace. case_bool_decide; [done|].
  destruct (objects cl !! InfoToObjMeta info) eqn:Hin; [|done].
  cbn. rewrite dom_insert_L.
  assert (InfoToObjMeta info ∈ dom (objects cl)) by (apply elem_of_dom; by eexists).
  apply subseteq_union_1_L. by apply singleton_subseteq_l.
Qed.
End resolution_frame.

(** X9: duplicate resolution touches candidates only.  In every run of
    [mergeClusterInventory], in either mode and whatever the server
    answers, an object that is not one of the candidates is left as it
    was, and no object is added to the cluster. *)
Theorem mergeClusterInventory_touches_candidates_only (cic : ClusterInventoryClient)
    (invInfos : list Info) (cl : Cluster) :
  (∀ k, k ∉ InfoToObjMeta <$> invInfos →
        objects ((mergeClusterInventory cic invInfos cl).1.2) !! k = objects cl !! k) ∧
  dom (objects ((mergeClusterInventory cic invInfos cl).1.2)) ⊆ dom (objects cl).
Proof.
  pose proof (sortInfos_Permutation invInfos) as Hp.
  destruct (sortInfos invInfos) as [|retained others] eqn:Hs.
  { apply Permutation_nil in Hp. subst. by rewrite mergeClusterInventory_nil. }
  destruct (dryRun cic) eqn:Hdry.
  { by rewrite (mergeClusterInventory_dry cic invInfos retained others cl Hdry Hs). }
  rewrite (mergeClusterInventory_live cic invInfos retained others cl Hdry Hs).
  destruct (loadAll (retained :: others)) as [U [e|]]; [done|].
  pose proof (helperReplace_frame (withStored retained U) cl) as Hrf.
  pose proof (helperReplace_dom (withStored retained U) cl) as Hrd.
  destruct (helperReplace (withStored retained U) cl) as [[[e|] cl1] t1]; cbn in Hrf, Hrd.
  { cbn. split; [|by rewrite Hrd]. intros k Hk. apply Hrf.
    intros ->. apply Hk. rewrite <-Hp, fmap_cons. apply elem_of_cons. by left. }
  pose proof (deleteOthers_frame cic others cl1) as Hdf.
  pose proof (deleteOthers_dom cic others cl1) as Hdd.
  destruct (deleteOthers cic others cl1) as [[e2 cl2] t2]. cbn in Hdf, Hdd |- *.
  split; [|by rewrite <-Hrd].
  intros k Hk. rewrite <-Hp, fmap_cons, not_elem_of_cons in Hk. destruct Hk as [Hkr Hko].
  rewrite Hdf by done. by apply Hrf.
Qed.

(** X10: once the server has accepted the replace of the retained
    candidate, the union is safe whatever becomes of the deletions.  In
    every run of [mergeClusterInventory] on candidates with distinct
    identities whose first request is an accepted replace, the object
    replaced is in the cluster at the end, also when a deletion fails,
    and it loads as the union of the candidates' stored sets. *)
Theorem mergeClusterInventory_union_survives (cic : ClusterInventoryClient)
    (invInfos : list Info) (cl : Cluster) (ri : Info) :
  distinctInfos invInfos →
  (mergeClusterInventory cic invInfos cl).2 !! 0 = Some (ReqReplace ri, None) →
  objects ((mergeClusterInventory cic invInfos cl).1.2) !! InfoToObjMeta ri
    = Some (infoObject ri) ∧
  (Load (WrapInventoryObj (Some ri))).2 = None ∧
  ∀ x, x ∈ (Load (WrapInventoryObj (Some ri))).1 ↔
       ∃ c, c ∈ invInfos ∧ x ∈ (Load (WrapInventoryObj (Some c))).1.
Proof.
  intros Hnd.
  pose proof (sortInfos_Permutation invInfos) as Hp.
  destruct (sortInfos invInfos) as [|retained others] eqn:Hs.
  { apply Permutation_nil in Hp. subst. by rewrite mergeClusterInventory_nil. }
  destruct (dryRun cic) eqn:Hdry.
  { by rewrite (mergeClusterInventory_dry cic invInfos retained others cl Hdry Hs). }
  rewrite (mergeClusterInventory_live cic invInfos retained others cl Hdry Hs).
  destruct (loadAll (retained :: others)) as [U [e|]] eqn:Hload; [done|].
  apply loadAll_ok in Hload as [_ HU].
  destruct (helperReplace (withStored retained U) cl) as [[[e1|] cl1] t1] eqn:Hrep.
  { apply helperReplace_failure in Hrep as [-> ->]. done. }
  apply helperReplace_success in Hrep as (-> & -> & _ & _).
  pose proof (deleteOthers_frame cic others
    {| objects := <[InfoToObjMeta (withStored retained U) :=
                      infoObject (withStored retained U)]> (objects cl);
       denied := denied cl |} (InfoToObjMeta retained)) as Hdf.
  destruct (deleteOthers cic others _) as [[e2 cl2] t2]. cbn -[Load] in Hdf |- *.
  intros [= <-]. split; [|split].
  - change (InfoToObjMeta (withStored retained U)) with (InfoToObjMeta retained).
    rewrite Hdf.
    + change (InfoToObjMeta (withStored retained U)) with (InfoToObjMeta retained).
      by rewrite lookup_insert_eq.
    + unfold distinctInfos in Hnd. rewrite <-Hp, fmap_cons in Hnd.
      by apply NoDup_cons in Hnd as [? _].
  - by rewrite Load_withStored.
  - intros x. rewrite Load_withStored. cbn. rewrite HU. by setoid_rewrite Hp.
Qed.

(** X10 on the server that rejects deletes: the replace goes through,
    the deletion fails, and the first anchor holds the union. *)
Lemma mergeClusterInventory_union_survives_witness :
  objects ((mergeClusterInventory (exClient false)
              [exAnchorInfo exAnchor1 {[ exA ]}; exAnchorInfo exAnchor2 {[ exB ]}]
              exClusterTwoNoDelete).1.2)
    !! InfoToObjMeta (exAnchorInfo exAnchor1 {[ exA; exB ]})
    = Some (infoObject (exAnchorInfo exAnchor1 {[ exA; exB ]})) ∧
  (Load (WrapInventoryObj (Some (exAnchorInfo exAnchor1 {[ exA; exB ]})))).2 = None ∧
  ∀ x, x ∈ (Load (WrapInventoryObj (Some (exAnchorInfo exAnchor1 {[ exA; exB ]})))).1 ↔
       ∃ c, c ∈ [exAnchorInfo exAnchor1 {[ exA ]}; exAnchorInfo exAnchor2 {[ exB ]}] ∧
            x ∈ (Load (WrapInventoryObj (Some c))).1.
Proof.
  refine (mergeClusterInventory_union_survives (exClient false)
            [exAnchorInfo exAnchor1 {[ exA ]}; exAnchorInfo exAnchor2 {[ exB ]}]
            exClusterTwoNoDelete (exAnchorInfo exAnchor1 {[ exA; exB ]}) _ _).
  - unfold distinctInfos. apply (bool_decide_unpack _). vm_compute. exact I.
  - vm_compute. reflexivity.
Defined.

(** The run of X10's example: the deletion is rejected, the error is
    returned, and both anchors are still there. *)
Example mergeClusterInventory_failed_delete_example :
  (mergeClusterInventory (exClient false)
     [exAnchorInfo exAnchor1 {[ exA ]}; exAnchorInfo exAnchor2 {[ exB ]}]
     exClusterTwoNoDelete).1.1 = (None, Some (ErrForbidden VDelete)) ∧
  (mergeClusterInventory (exClient false)
     [exAnchorInfo exAnchor1 {[ exA ]}; exAnchorInfo exAnchor2 {[ exB ]}]
     exClusterTwoNoDelete).2 =
    [(ReqReplace (exAnchorInfo exAnchor1 {[ exA; exB ]}), None);
     (ReqDelete exAnchor2, Some (ErrForbidden VDelete))].
Proof. compute_done. Qed.

(** ** Reading and merging over duplicates *)

(** X11: over duplicates a read returns the union.  When the lookup
    finds more than one candidate and every candidate loads,
    [GetClusterObjs] with dry-run on returns the union of the
    candidates' stored sets and leaves the cluster alone; with dry-run
    off, whenever it returns no error, it returns that same union. *)
Theorem GetClusterObjs_over_duplicates (cic : ClusterInventoryClient) (localInfo : Info)
    (cl : Cluster) (found : list Info) :
  lookupAnchors cic localInfo cl = Some found →
  (1 < length found)%nat →
  (∀ c, c ∈ found → (Load (WrapInventoryObj (Some c))).2 = None) →
  ∃ U, (∀ x, x ∈ U ↔ ∃ c, c ∈ found ∧ x ∈ (Load (WrapInventoryObj (Some c))).1) ∧
       if dryRun cic
       then GetClusterObjs cic (Some localInfo) cl
              = ((U, None), cl, [lookupCall cic localInfo])
       else match (GetClusterObjs cic (Some localInfo) cl).1.1 with
            | (V, None) => V = U
            | (_, Some _) => True
            end.
Proof.
  intros Hl Hlen Hloads.
  destruct (sortInfos_cons found) as (retained & others & Hs); [lia|].
  pose proof (sortInfos_Permutation found) as Hp. rewrite Hs in Hp.
  destruct (loadAll_all_load (retained :: others)) as [U Hload].
  { intros c Hc. apply Hloads. by rewrite <-Hp. }
  exists U. split.
  { apply loadAll_ok in Hload as [_ HU]. intros x. rewrite HU. by setoid_rewrite Hp. }
  unfold GetClusterObjs. rewrite bind_run.
  destruct (dryRun cic) eqn:Hdry.
  - rewrite (getClusterInventoryInfo_dry_duplicates cic localInfo cl found retained
               others U Hdry Hl Hlen Hs Hload).
    cbn -[Load]. by rewrite Load_withStored.
  - destruct (getClusterInventoryInfo cic (Some localInfo) cl)
      as [[[ri [e|]] cl1] t1] eqn:Hg; [done|].
    destruct (getClusterInventoryInfo_resolved cic localInfo cl cl1 found retained
                others ri t1 Hdry Hl Hlen Hs Hg) as (U' & Hload' & -> & _).
    rewrite Hload in Hload'. injection Hload' as <-.
    cbn -[Load]. by rewrite Load_withStored.
Qed.

(** X11 on the two anchors storing [{a}] and [{b}], with dry-run on. *)
Lemma GetClusterObjs_over_duplicates_witness :
  ∃ U, (∀ x, x ∈ U ↔
             ∃ c, c ∈ [exAnchorInfo exAnchor1 {[ exA ]}; exAnchorInfo exAnchor2 {[ exB ]}] ∧
                  x ∈ (Load (WrapInventoryObj (Some c))).1) ∧
       if dryRun (exClient true)
       then GetClusterObjs (exClient true) (Some exLocal) exClusterTwo
              = ((U, None), exClusterTwo, [lookupCall (exClient true) exLocal])
       else match (GetClusterObjs (exClient true) (Some exLocal) exClusterTwo).1.1 with
            | (V, None) => V = U
            | (_, Some _) => True
            end.
Proof.
  refine (GetClusterObjs_over_duplicates (exClient true) exLocal exClusterTwo
            [exAnchorInfo exAnchor1 {[ exA ]}; exAnchorInfo exAnchor2 {[ exB ]}] _ _ _).
  - vm_compute. reflexivity.
  - cbn. lia.
  - intros c Hc. apply elem_of_cons in Hc as [->|Hc]; [by vm_compute|].
    apply list_elem_of_singleton in Hc as ->. by vm_compute.
Defined.

(** X12: [Merge] over duplicates merges into the retained anchor.  With
    dry-run off, when the lookup finds more than one candidate and
    [Merge] returns no error, the prune set is the union [U] of the
    candidates' stored sets less the desired set, and afterwards the
    lookup finds one anchor, the retained candidate, which loads as
    [U ∪ D], while every other candidate is gone from the cluster. *)
Theorem Merge_over_duplicates (cic : ClusterInventoryClient) (localInfo : Info)
    (D : gset ObjMetadata) (cl : Cluster) (found : list Info) :
  dryRun cic = false →
  lookupAnchors cic localInfo cl = Some found →
  (1 < length found)%nat →
  (Merge cic (Some localInfo) D cl).1.1.2 = None →
  ∃ retained others U anchor,
    sortInfos found = retained :: others ∧
    (∀ x, x ∈ U ↔ ∃ c, c ∈ found ∧ x ∈ (Load (WrapInventoryObj (Some c))).1) ∧
    (Merge cic (Some localInfo) D cl).1.1.1 = U ∖ D ∧
    lookupAnchors cic localInfo (Merge cic (Some localInfo) D cl).1.2 = Some [anchor] ∧
    InfoToObjMeta anchor = InfoToObjMeta retained ∧
    Load (WrapInventoryObj (Some anchor)) = (U ∪ D, None) ∧
    ∀ o, o ∈ others →
         objects ((Merge cic (Some localInfo) D cl).1.2) !! InfoToObjMeta o = None.
Proof.
  intros Hlive Hl Hlen.
  destruct (sortInfos_cons found) as (retained & others & Hs); [lia|].
  pose proof (sortInfos_Permutation found) as Hp. rewrite Hs in Hp.
  assert (InfoToObjMeta retained ∉ InfoToObjMeta <$> others) as Hr.
  { assert (distinctInfos found) as Hnd.
    { apply lookupAnchors_Some in Hl as (resource & label & _ & _ & _ & ->).
      apply listObjects_distinct. }
    unfold distinctInfos in Hnd. rewrite <-Hp, fmap_cons in Hnd.
    by apply NoDup_cons in Hnd as [? _]. }
  destruct (getClusterInventoryInfo cic (Some localInfo) cl)
    as [[[ri [e|]] cl1] t1] eqn:Hg.
  { by rewrite (Merge_lookup_error cic _ D cl cl1 ri e t1 Hg). }
  destruct (getClusterInventoryInfo_resolved cic localInfo cl cl1 found retained
              others ri t1 Hlive Hl Hlen Hs Hg) as (U & Hload & -> & Hcl1 & Ht1 & Hl1).
  rewrite (Merge_loaded cic (Some localInfo) D U cl cl1 cl1 (withStored retained U)
             t1 [lookupCall cic localInfo] Hg).
  2:{ rewrite (GetClusterObjs_one cic localInfo cl1 _ Hl1). by rewrite Load_withStored. }
  assert (∀ x, x ∈ U ↔ ∃ c, c ∈ found ∧ x ∈ (Load (WrapInventoryObj (Some c))).1) as HU.
  { apply loadAll_ok in Hload as [_ HU]. intros x. rewrite HU. by setoid_rewrite Hp. }
  assert (∀ o, o ∈ others → objects cl1 !! InfoToObjMeta o = None) as Hgone.
  { intros o Ho. rewrite Hcl1. cbn [objects]. apply lookup_foldr_delete.
    by apply list_elem_of_fmap_2. }
  unfold SetEquals. case_bool_decide as Heq.
  - subst D. cbn -[Load]. intros _.
    exists retained, others, U, (withStored retained U).
    rewrite difference_diag_L, union_idemp_L, Load_withStored. done.
  - rewrite Hlive.
    destruct (helperReplace (withStored (withStored retained U) (U ∪ D)) cl1)
      as [[[e|] cl3] t3] eqn:Hrep; [done|].
    apply helperReplace_success in Hrep as (-> & -> & _ & _). cbn -[Load]. intros _.
    exists retained, others, U, (withStored (withStored retained U) (U ∪ D)).
    split; [done|]. split; [done|]. split; [done|]. split.
    { exact (lookupAnchors_after_replace cic localInfo cl1 (withStored retained U)
               (U ∪ D) Hl1). }
    split; [done|]. split; [apply Load_withStored|].
    intros o Ho. rewrite lookup_insert_ne; [by apply Hgone|].
    intros Heq'. apply Hr. apply list_elem_of_fmap. exists o. split; [exact Heq'|done].
Qed.

(** X12 on the two anchors storing [{a}] and [{b}], with [{b, c}]
    desired. *)
Lemma Merge_over_duplicates_witness :
  ∃ retained others U anchor,
    sortInfos [exAnchorInfo exAnchor1 {[ exA ]}; exAnchorInfo exAnchor2 {[ exB ]}]
      = retained :: others ∧
    (∀ x, x ∈ U ↔
          ∃ c, c ∈ [exAnchorInfo exAnchor1 {[ exA ]}; exAnchorInfo exAnchor2 {[ exB ]}] ∧
               x ∈ (Load (WrapInventoryObj (Some c))).1) ∧
    (Merge (exClient false) (Some exLocal) {[ exB; exC ]} exClusterTwo).1.1.1
      = U ∖ {[ exB; exC ]} ∧
    lookupAnchors (exClient false) exLocal
      (Merge (exClient false) (Some exLocal) {[ exB; exC ]} exClusterTwo).1.2
      = Some [anchor] ∧
    InfoToObjMeta anchor = InfoToObjMeta retained ∧
    Load (WrapInventoryObj (Some anchor)) = (U ∪ {[ exB; exC ]}, None) ∧
    ∀ o, o ∈ others →
         objects ((Merge (exClient false) (Some exLocal) {[ exB; exC ]}
                     exClusterTwo).1.2) !! InfoToObjMeta o = None.
Proof.
  refine (Merge_over_duplicates (exClient false) exLocal {[ exB; exC ]} exClusterTwo
            [exAnchorInfo exAnchor1 {[ exA ]}; exAnchorInfo exAnchor2 {[ exB ]}] _ _ _ _).
  - reflexivity.
  - vm_compute. reflexivity.
  - cbn. lia.
  - vm_compute. reflexivity.
Defined.

(** The run of X12's example: the prune set is [{a}] and one anchor is
    left, storing [{a, b, c}]. *)
Example Merge_over_duplicates_example :
  (Merge (exClient false) (Some exLocal) {[ exB; exC ]} exClusterTwo).1
    = (({[ exA ]}, None), exClusterOne {[ exA; exB; exC ]}).
Proof. compute_done. Qed.

(** ** What the operations add to the cluster *)

Lemma addsAtMost_ret {A} (K : gset ObjMetadata) (a : A) : addsAtMost K (ret a).
Proof. intros cl. cbn. apply union_subseteq_l. Qed.

Lemma addsAtMost_bind {A B} (K : gset ObjMetadata) (m : Op A) (k : A → Op B) :
  addsAtMost K m → (∀ a, addsAtMost K (k a)) → addsAtMost K (m ≫= k).
Proof.
  intros Hm Hk cl. rewrite bind_run.
  specialize (Hm cl). destruct (m cl) as [[a cl1] t1]. cbn in Hm.
  specialize (Hk a cl1). destruct (k a cl1) as [[b cl2] t2]. cbn in Hk |- *.
  etrans; [exact Hk|]. apply union_least; [done|]. apply union_subseteq_r.
Qed.

Lemma addsAtMost_builderInfos (K : gset ObjMetadata) mapper resource namespace selector :
  addsAtMost K (builderInfos mapper resource namespace selector).
Proof.
  intros cl. unfold builderInfos. case_bool_decide; cbn; apply union_subseteq_l.
Qed.

Lemma addsAtMost_helperReplace (K : gset ObjMetadata) (info : Info) :
  addsAtMost K (helperReplace info).
Proof. intros cl. rewrite helperReplace_dom. apply union_subseteq_l. Qed.

Lemma addsAtMost_helperDelete (K : gset ObjMetadata) (key : ObjMetadata) :
  addsAtMost K (helperDelete key).
Proof.
  intros cl. unfold helperDelete. case_bool_decide; [apply union_subseteq_l|].
  destruct (objects cl !! key); [|apply union_subseteq_l].
  cbn. rewrite dom_delete_L. etrans; [|apply union_subseteq_l].
  by apply subseteq_difference_l.
Qed.

Lemma addsAtMost_helperCreate (K : gset ObjMetadata) (info : Info) :
  InfoToObjMeta info ∈ K → addsAtMost K (helperCreate info).
Proof.
  intros HK cl. unfold helperCreate. case_bool_decide; [apply union_subseteq_l|].
  destruct (objects cl !! InfoToObjMeta info); [apply union_subseteq_l|].
  cbn. rewrite dom_insert_L. apply union_least; [|apply union_subseteq_l].
  etrans; [|apply union_subseteq_r]. by apply singleton_subseteq_l.
Qed.

Ltac addsAtMost_step :=
  first
    [ apply addsAtMost_ret
    | apply addsAtMost_builderInfos
    | apply addsAtMost_helperReplace
    | apply addsAtMost_helperDelete
    | apply addsAtMost_bind; [|intros ?]
    | match goal with
      | |- addsAtMost _ (match ?x with _ => _ end) => destruct x
      | |- addsAtMost _ (if ?b then _ else _) => destruct b
      | |- addsAtMost _ (let _ := _ in _) => cbv zeta
      end ].

Section adds.
Context (cic : ClusterInventoryClient) (K : gset ObjMetadata).

Lemma addsAtMost_applyInventoryObj (info : option Info) :
  addsAtMost K (applyInventoryObj cic info).
Proof. unfold applyInventoryObj. repeat addsAtMost_step. Qed.

Lemma addsAtMost_DeleteInventoryObj (info : option Info) :
  addsAtMost K (DeleteInventoryObj cic info).
Proof. unfold DeleteInventoryObj. repeat addsAtMost_step. Qed.

Lemma addsAtMost_createInventoryObj (info : Info) :
  InfoToObjMeta info ∈ K → addsAtMost K (createInventoryObj cic (Some info)).
Proof.
  intros HK. unfold createInventoryObj.
  repeat first [ by apply addsAtMost_helperCreate | addsAtMost_step ].
Qed.

Lemma addsAtMost_deleteOthers (others : list Info) :
  addsAtMost K (deleteOthers cic others).
Proof.
  induction others as [|o others IH]; cbn [deleteOthers]; [apply addsAtMost_ret|].
  apply addsAtMost_bind; [apply addsAtMost_DeleteInventoryObj|].
  intros [e|]; [apply addsAtMost_ret|done].
Qed.

Lemma addsAtMost_mergeClusterInventory (invInfos : list Info) :
  addsAtMost K (mergeClusterInventory cic invInfos).
Proof.
  unfold mergeClusterInventory, Store.
  repeat first [ apply addsAtMost_applyInventoryObj | apply addsAtMost_deleteOthers
               | addsAtMost_step ].
Qed.

Lemma addsAtMost_getClusterInventoryInfo (localInv : option Info) :
  addsAtMost K (getClusterInventoryInfo cic localInv).
Proof.
  unfold getClusterInventoryInfo.
  repeat first [ apply addsAtMost_mergeClusterInventory | addsAtMost_step ].
Qed.

Lemma addsAtMost_GetClusterObjs (localInv : option Info) :
  addsAtMost K (GetClusterObjs cic localInv).
Proof.
  unfold GetClusterObjs.
  repeat first [ apply addsAtMost_getClusterInventoryInfo | addsAtMost_step ].
Qed.

Lemma addsAtMost_Replace (localInv : option Info) (objs : gset ObjMetadata) :
  addsAtMost K (Replace cic localInv objs).
Proof.
  unfold Replace, Store.
  repeat first [ apply addsAtMost_getClusterInventoryInfo | apply addsAtMost_GetClusterObjs
               | apply addsAtMost_applyInventoryObj | addsAtMost_step ].
Qed.
End adds.

Lemma addsAtMost_Merge (cic : ClusterInventoryClient) (localInfo : Info)
    (objs : gset ObjMetadata) :
  addsAtMost {[ InfoToObjMeta localInfo ]} (Merge cic (Some localInfo) objs).
Proof.
  unfold Merge, Store. cbv zeta.
  apply addsAtMost_bind; [apply addsAtMost_getClusterInventoryInfo|].
  intros [ci [e|]]; [apply addsAtMost_ret|].
  destruct ci as [ci|].
  - repeat first [ apply addsAtMost_GetClusterObjs | apply addsAtMost_applyInventoryObj
                 | addsAtMost_step ].
  - cbn [GetObject WrapInventoryObj inv objMetas].
    apply addsAtMost_bind.
    + apply addsAtMost_createInventoryObj. by apply elem_of_singleton.
    + intros [e|]; apply addsAtMost_ret.
Qed.

(** X14: only a first apply adds an object.  In every run, in either
    mode and whatever the server answers, [GetClusterObjs], [Replace]
    and [DeleteInventoryObj] add no object to the cluster, and [Merge]
    adds at most one, with the identity of the local inventory
    descriptor. *)
Theorem only_Merge_adds_an_object (cic : ClusterInventoryClient) (localInfo : Info)
    (objs : gset ObjMetadata) (cl : Cluster) :
  dom (objects ((GetClusterObjs cic (Some localInfo) cl).1.2)) ⊆ dom (objects cl) ∧
  dom (objects ((Replace cic (Some localInfo) objs cl).1.2)) ⊆ dom (objects cl) ∧
  dom (objects ((DeleteInventoryObj cic (Some localInfo) cl).1.2)) ⊆ dom (objects cl) ∧
  dom (objects ((Merge cic (Some localInfo) objs cl).1.2))
    ⊆ dom (objects cl) ∪ {[ InfoToObjMeta localInfo ]}.
Proof.
  pose proof (addsAtMost_GetClusterObjs cic ∅ (Some localInfo) cl) as H1.
  pose proof (addsAtMost_Replace cic ∅ (Some localInfo) objs cl) as H2.
  pose proof (addsAtMost_DeleteInventoryObj cic ∅ (Some localInfo) cl) as H3.
  rewrite (right_id_L ∅ (∪)) in H1, H2, H3.
  split; [done|]. split; [done|]. split; [done|].
  apply addsAtMost_Merge.
Qed.

(** ** More of the task *)





(** The run of X15's example: the first goroutine deletes the anchor,
    the second one finds it gone; each reports its own outcome. *)
Example Start_twice_example :
  taskChannel (schedule [Run 0; Run 1; Run 1; Run 0]
                 (task.Start exTask (Some RunContext)
                    (task.Start exTask (Some RunContext) exRuntime)))
    = [(1, {| Err := Some (ErrNotFound exAnchor1) |}); (0, {| Err := None |})].
Proof. vm_compute. reflexivity. Qed.
